(** * The knockout-tournament engine of [src/App.jsx]

    A shallow embedding of the bracket engine (ranking, round construction,
    cursor derivation, fast-forward, pick application, progress totals) and
    the properties its specification states about it.

    Conventions of the embedding.
    - A JavaScript value that is either an entrant object or [null] is a
      [Slot]; [None] is [null] (the snapshots go through JSON, which has no
      [undefined]), and a read past the end of an array gives [None] as well.
    - An array is a [list]; [arr[i]] is stdpp's lookup.
    - A thrown [TypeError] (a property read on [undefined]) is the failure
      [TypeError] of the [Result] monad.
    - The [while] loop of [fastForwardIfNeeded] runs on fuel; the fuel that
      the model hands it is proved to be enough for every tournament. *)

From Stdlib Require Import ZArith Lia Permutation Sorted.
From stdpp Require Import base list strings pretty gmap.

(** ** Data model *)

(** A track as the loader builds it.  The engine reads [id] and
    [popularity] only; the display fields ([uri], [artists], [albumImage],
    [duration_ms], [external_url]) ride along unread and are kept as one
    opaque text. *)
Record Entrant := mkEntrant {
  eid : string;
  ename : string;
  popularity : option Z;
  display : string
}.

Abbreviation Slot := (option Entrant).

(** [{ a, b, winner, id }]; the matches of a three round carry no [id]. *)
Record Match := mkMatch {
  m_a : Slot;
  m_b : Slot;
  m_winner : Slot;
  m_id : option string
}.

(** The three shapes [makeRound] returns, told apart by [type].  The
    [winners: []] field every round is born with is never read or written
    and is left out, as are [bye: null] and [matches: []] of a done round. *)
Inductive Round :=
| RDone (entrants : list Slot)
| RThree (entrants : list Slot) (top : Slot) (qualifier : Match) (final : option Match)
| RNormal (entrants : list Slot) (bye : Slot) (matches : list Match).

Inductive Special := three | final.

(** [{ round, special }] or [{ round, match }]. *)
Inductive Cursor :=
| CSpecial (round : nat) (special : Special)
| CMatch (round : nat) (idx : nat).

(** [{ round, stage, winnerId }] or [{ round, match, winnerId }]. *)
Inductive HistoryEntry :=
| HStage (round : nat) (stage : Special) (winnerId : string)
| HMatch (round : nat) (idx : nat) (winnerId : string).

Record Tournament := mkTournament {
  roundIndex : nat;
  rounds : list Round;
  cursor : option Cursor;
  champion : Slot;
  history : list HistoryEntry
}.

(** [pickedSide === "a" ? m.a : m.b]: every value other than ["a"] selects
    slot [b]. *)
Inductive Side := PickA | PickB.

#[global] Instance Entrant_eq_dec : EqDecision Entrant.
Proof. solve_decision. Defined.
#[global] Instance Match_eq_dec : EqDecision Match.
Proof. solve_decision. Defined.
#[global] Instance Round_eq_dec : EqDecision Round.
Proof. solve_decision. Defined.
#[global] Instance Special_eq_dec : EqDecision Special.
Proof. solve_decision. Defined.
#[global] Instance Cursor_eq_dec : EqDecision Cursor.
Proof. solve_decision. Defined.
#[global] Instance HistoryEntry_eq_dec : EqDecision HistoryEntry.
Proof. solve_decision. Defined.
#[global] Instance Tournament_eq_dec : EqDecision Tournament.
Proof. solve_decision. Defined.

(** Field assignments [t.f = v], as functional updates of the clone. *)
Definition set_cursor (c : option Cursor) (t : Tournament) : Tournament :=
  mkTournament (roundIndex t) (rounds t) c (champion t) (history t).
Definition set_champion (w : Slot) (t : Tournament) : Tournament :=
  mkTournament (roundIndex t) (rounds t) (cursor t) w (history t).
Definition set_rounds (rs : list Round) (t : Tournament) : Tournament :=
  mkTournament (roundIndex t) rs (cursor t) (champion t) (history t).
Definition set_roundIndex (i : nat) (t : Tournament) : Tournament :=
  mkTournament i (rounds t) (cursor t) (champion t) (history t).
Definition push_history (h : HistoryEntry) (t : Tournament) : Tournament :=
  mkTournament (roundIndex t) (rounds t) (cursor t) (champion t) (history t ++ [h]).
Definition set_winner (w : Slot) (m : Match) : Match :=
  mkMatch (m_a m) (m_b m) w (m_id m).

(** ** Failure *)

(** [BadHeap] is raised by the store model only, on a reference that does
    not hold an object of the expected kind. *)
Inductive Failure := TypeError | OutOfFuel | BadHeap.

Inductive Result (A : Type) :=
| Ok (x : A)
| Fail (f : Failure).
Arguments Ok {A} x.
Arguments Fail {A} f.

Definition bindR {A B} (r : Result A) (k : A -> Result B) : Result B :=
  match r with
  | Ok x => k x
  | Fail f => Fail f
  end.

(** ** Helpers standing for JavaScript built-ins *)

(** [Boolean(x)] on a slot: an object is truthy, [null] is not. *)
Definition truthy (s : Slot) : bool :=
  match s with
  | Some _ => true
  | None => false
  end.

(** [arr[i]] where a miss reads as absent. *)
Definition at_ (l : list Slot) (i : nat) : Slot := mjoin (l !! i).

(** [x?.popularity ?? 0]. *)
Definition popularityOr0 (s : Slot) : Z :=
  match s with
  | Some e => default 0%Z (popularity e)
  | None => 0%Z
  end.

(** [`${x?.id}`]. *)
Definition idText (s : Slot) : string :=
  match s with
  | Some e => eid e
  | None => "undefined"%string
  end.

(** [Array.prototype.sort] with a comparator: a stable sort, so for a
    consistent comparator its result is fixed by the language.  It is run
    here as a stable insertion: [x] moves behind [y] only when
    [cmp x y > 0]. *)
Section Sort.
Context {A : Type} (cmp : A -> A -> Z).

Fixpoint insertBy (x : A) (l : list A) : list A :=
  match l with
  | [] => [x]
  | y :: l' => if (0 <? cmp x y)%Z then y :: insertBy x l' else x :: l
  end.

Fixpoint sortBy (l : list A) : list A :=
  match l with
  | [] => []
  | x :: l' => insertBy x (sortBy l')
  end.

End Sort.

(** [arr.findIndex(p)], with [None] for [-1]. *)
Fixpoint findIndex {A} (p : A -> bool) (l : list A) : option nat :=
  match l with
  | [] => None
  | x :: l' => if p x then Some 0 else S <$> findIndex p l'
  end.

(** [JSON.parse(JSON.stringify(x))]: on the JSON data of the model the copy
    is structurally equal to its argument. *)
Definition deepClone {A} (x : A) : A := x.

(** ** The engine *)

(** [sortByPopularityDesc] is called on the filtered list of [makeRound]
    only, whose entries are all entrant objects; there the comparator
    decides every pair.  (On an [undefined] entry [Array.prototype.sort]
    would not ask the comparator; the filtered lists hold none.) *)
Definition comparePopularity (a b : Slot) : Z :=
  (popularityOr0 b - popularityOr0 a)%Z.

Definition sortByPopularityDesc (l : list Slot) : list Slot :=
  sortBy comparePopularity l.

(** One iteration of the pairing loop of [makeRound]. *)
Definition pairAt (pool : list Slot) (i : nat) : Match :=
  let x := at_ pool i in
  let y := at_ pool (length pool - 1 - i) in
  mkMatch x y None
    (Some ("m-" +:+ idText x +:+ "-" +:+ idText y +:+ "-" +:+ pretty i)%string).

(** [for (let i = 0; i < pool.length / 2; i++) matches.push(...)]: the
    bound is a real division, so the loop runs [ceil (length / 2)] times. *)
Definition pairings (pool : list Slot) : list Match :=
  pairAt pool <$> seq 0 ((length pool + 1) / 2).

(** [(entrants || []).filter(Boolean)]. *)
Definition alive (entrants : list Slot) : list Slot := List.filter truthy entrants.

Definition makeRound (entrants : list Slot) : Round :=
  let alive := alive entrants in
  if length alive <=? 1 then RDone alive
  else if length alive =? 3 then
    let sorted := sortByPopularityDesc alive in
    RThree sorted (at_ sorted 0)
      (mkMatch (at_ sorted 1) (at_ sorted 2) None None) None
  else
    let sorted := sortByPopularityDesc alive in
    if length sorted mod 2 =? 1
    then RNormal sorted (at_ sorted 0) (pairings (drop 1 sorted))
    else RNormal sorted None (pairings sorted).

(** [(m) => !m.winner && m.a && m.b]. *)
Definition pending (m : Match) : bool :=
  negb (truthy (m_winner m)) && truthy (m_a m) && truthy (m_b m).

Definition decided (m : Match) : bool := truthy (m_winner m).

Definition deriveCursor (t : Tournament) : option Cursor :=
  match rounds t !! roundIndex t with
  | None => None
  | Some (RThree _ _ q f) =>
      if negb (truthy (m_winner q)) then Some (CSpecial (roundIndex t) three)
      else match f with
           | Some fm =>
               if negb (truthy (m_winner fm))
               then Some (CSpecial (roundIndex t) final)
               else None
           | None => None
           end
  | Some (RNormal _ _ ms) =>
      match findIndex pending ms with
      | Some idx => Some (CMatch (roundIndex t) idx)
      | None => None
      end
  | Some (RDone _) => None
  end.

(** [round.matches.map((m) => m.winner).filter(Boolean)] followed by
    [if (round.bye) winners.push(round.bye)]. *)
Definition collectWinners (bye : Slot) (ms : list Match) : list Slot :=
  let winners := List.filter truthy (m_winner <$> ms) in
  if truthy bye then winners ++ [bye] else winners.

(** The body of the [while] loop of [fastForwardIfNeeded]; the loop test
    [!t.champion] is in [ffLoop]. *)
Inductive LoopStep :=
| Break (t : Tournament)
| Continue (t : Tournament).

Definition ffBody (t0 : Tournament) : LoopStep :=
  let t := set_cursor (deriveCursor t0) t0 in
  match rounds t !! roundIndex t with
  | None => Break t
  | Some round =>
      if bool_decide (is_Some (cursor t)) then Break t
      else match round with
           | RNormal _ bye ms =>
               if negb (forallb decided ms) then Break t
               else
                 let winners := collectWinners bye ms in
                 if length winners =? 1
                 then Break (set_champion (at_ winners 0) t)
                 else
                   let next := makeRound winners in
                   Continue (set_rounds (rounds t ++ [next])
                               (set_roundIndex (roundIndex t + 1) t))
           | RThree _ _ _ _ => Break t
           | RDone ents =>
               if length ents =? 1
               then Break (set_champion (at_ ents 0) t)
               else Break t
           end
  end.

Fixpoint ffLoop (fuel : nat) (t : Tournament) : option Tournament :=
  match fuel with
  | 0 => None
  | S fuel' =>
      if truthy (champion t) then Some t
      else match ffBody t with
           | Break t' => Some t'
           | Continue t' => ffLoop fuel' t'
           end
  end.

(** Every pass that continues moves [roundIndex] one step towards the
    rounds appended by the loop itself, and a freshly built round always
    stops the loop. *)
Definition ffFuel (t : Tournament) : nat :=
  S (length (rounds t) - roundIndex t).

Definition fastForwardIfNeeded (tournament : Tournament) : Result Tournament :=
  let t := deepClone tournament in
  match ffLoop (ffFuel t) t with
  | None => Fail OutOfFuel
  | Some t' => Ok (set_cursor (deriveCursor t') t')
  end.

Definition buildTournament (tracks : list Slot) : Result Tournament :=
  let first := makeRound tracks in
  let t := mkTournament 0 [first] None None [] in
  let t := set_cursor (deriveCursor t) t in
  fastForwardIfNeeded t.

Definition pickOf (pickedSide : Side) (m : Match) : Slot :=
  match pickedSide with
  | PickA => m_a m
  | PickB => m_b m
  end.

(** A cursor that names a part the active round object does not have makes
    the code read a property of [undefined] ([round.match], [round.final] or
    [round.matches[i]] missing): those reads are the [TypeError] cases. *)
Definition applyPick (tournament : Tournament) (pickedSide : Side)
  : Result Tournament :=
  let t := deepClone tournament in
  match cursor t with
  | None => Ok t
  | Some cur =>
    match rounds t !! roundIndex t with
    | None => Ok t
    | Some round =>
      match cur with
      | CSpecial _ three =>
          match round with
          | RThree ents top m fin =>
              match pickOf pickedSide m with
              | None => Ok t
              | Some w =>
                  let m' := set_winner (Some w) m in
                  let t1 := push_history (HStage (roundIndex t) three (eid w)) t in
                  let round' :=
                    RThree ents top m' (Some (mkMatch top (Some w) None None)) in
                  let t2 := set_rounds (<[roundIndex t := round']> (rounds t1)) t1 in
                  Ok (set_cursor (deriveCursor t2) t2)
              end
          | _ => Fail TypeError
          end
      | CSpecial _ final =>
          match round with
          | RThree ents top q (Some m) =>
              match pickOf pickedSide m with
              | None => Ok t
              | Some w =>
                  let m' := set_winner (Some w) m in
                  let t1 := push_history (HStage (roundIndex t) final (eid w)) t in
                  let t2 :=
                    set_rounds (<[roundIndex t := RThree ents top q (Some m')]> (rounds t1)) t1 in
                  Ok (set_cursor None (set_champion (Some w) t2))
              end
          | _ => Fail TypeError
          end
      | CMatch _ idx =>
          match round with
          | RNormal ents bye ms =>
              match ms !! idx with
              | None => Fail TypeError
              | Some m =>
                  match pickOf pickedSide m with
                  | None => Ok t
                  | Some w =>
                      let ms' := <[idx := set_winner (Some w) m]> ms in
                      let t1 := push_history (HMatch (roundIndex t) idx (eid w)) t in
                      let t2 :=
                        set_rounds (<[roundIndex t := RNormal ents bye ms']> (rounds t1)) t1 in
                      if negb (forallb decided ms')
                      then Ok (set_cursor (deriveCursor t2) t2)
                      else
                        let winners := collectWinners bye ms' in
                        if length winners =? 1
                        then Ok (set_cursor None (set_champion (at_ winners 0) t2))
                        else
                          let next := makeRound winners in
                          let t3 :=
                            set_rounds (rounds t2 ++ [next])
                              (set_roundIndex (roundIndex t2 + 1) t2) in
                          fastForwardIfNeeded (set_cursor (deriveCursor t3) t3)
                  end
              end
          | _ => Fail TypeError
          end
      end
    end
  end.

(** [getTotalDone]: the [for ... of] loop over the rounds, threading the two
    counters. *)
Definition countRound (acc : nat * nat) (r : Round) : nat * nat :=
  let '(total, done) := acc in
  match r with
  | RNormal _ _ ms => (total + length ms, done + length (List.filter decided ms))
  | RThree _ _ q f =>
      let done1 := done + (if truthy (m_winner q) then 1 else 0) in
      let done2 :=
        done1 + (if truthy (from_option m_winner None f) then 1 else 0) in
      (total + 2, done2)
  | RDone _ => (total, done)
  end.

Definition getTotalDone (t : Tournament) : nat * nat :=
  fold_left countRound (rounds t) (0, 0).


(** ** Notions used to state the properties *)

(** Ordered by popularity, highest first. *)
Definition popDesc (x y : Slot) : Prop := (popularityOr0 y <= popularityOr0 x)%Z.

Definition hasPopularity (p : Z) (s : Slot) : bool := (popularityOr0 s =? p)%Z.

(** A match as the engine leaves it: both slots filled, and the winner, once
    set, is one of the two. *)
Definition playable (m : Match) : Prop :=
  is_Some (m_a m) /\ is_Some (m_b m) /\
  (m_winner m = None \/ m_winner m = m_a m \/ m_winner m = m_b m).

(** Entrants that take part in a round, and decisions already taken in it. *)
Definition entrantCount (r : Round) : nat :=
  match r with
  | RDone ents => length ents
  | RThree _ _ _ _ => 3
  | RNormal _ bye ms => 2 * length ms + (if truthy bye then 1 else 0)
  end.

Definition decidedCount (r : Round) : nat :=
  match r with
  | RDone _ => 0
  | RThree _ _ q f =>
      (if truthy (m_winner q) then 1 else 0)
      + (if truthy (from_option m_winner None f) then 1 else 0)
  | RNormal _ _ ms => length (List.filter decided ms)
  end.

(** The shape of the active round of a tournament with champion [ch]. *)
Definition roundOK (ch : Slot) (r : Round) : Prop :=
  match r with
  | RDone ents => Forall is_Some ents /\ length ents <= 1 /\ ch = at_ ents 0
  | RThree _ top q f =>
      is_Some top /\ playable q /\
      match f with
      | None => m_winner q = None /\ ch = None
      | Some fm =>
          is_Some (m_winner q) /\ m_a fm = top /\ m_b fm = m_winner q /\
          (m_winner fm = None \/ m_winner fm = m_a fm \/ m_winner fm = m_b fm) /\
          ch = m_winner fm
      end
  | RNormal _ bye ms =>
      ms <> [] /\ Forall playable ms /\
      ((forallb decided ms = false /\ ch = None) \/
       (forallb decided ms = true /\ is_Some ch /\ collectWinners bye ms = [ch]))
  end.

(** The invariant of the engine for a tournament started from [n] present
    entrants: the active round is the last one, it has the shape above, the
    stored cursor is the derived one, every decision in [history] has
    removed one entrant, and somebody is left unless nobody started. *)
Definition Inv (n : nat) (t : Tournament) : Prop :=
  cursor t = deriveCursor t /\
  exists past r,
    rounds t = past ++ [r] /\ roundIndex t = length past /\
    roundOK (champion t) r /\
    length (history t) + entrantCount r = n + decidedCount r /\
    (0 < n -> 0 < entrantCount r).

(** The operations a caller has on a snapshot. *)
Inductive Op :=
| OpPick (side : Side)
| OpSettle.

Definition step (t : Tournament) (o : Op) : Result Tournament :=
  match o with
  | OpPick side => applyPick t side
  | OpSettle => fastForwardIfNeeded t
  end.

Fixpoint run (ops : list Op) (t : Tournament) : Result Tournament :=
  match ops with
  | [] => Ok t
  | o :: ops' => bindR (step t o) (run ops')
  end.

(** Applying one pick after the other. *)
Definition play (picks : list Side) (t : Tournament) : Result Tournament :=
  run (OpPick <$> picks) t.

(** The tournaments the engine can produce. *)
Inductive Reachable : Tournament -> Prop :=
| reach_build tracks t :
    buildTournament tracks = Ok t -> Reachable t
| reach_step t o t' :
    Reachable t -> step t o = Ok t' -> Reachable t'.

(** The match [m] that [applyPick] reads for the stored cursor, when the
    active round has it. *)
Definition targetMatch (t : Tournament) : option Match :=
  match cursor t, rounds t !! roundIndex t with
  | Some (CSpecial _ three), Some (RThree _ _ q _) => Some q
  | Some (CSpecial _ final), Some (RThree _ _ _ f) => f
  | Some (CMatch _ idx), Some (RNormal _ _ ms) => ms !! idx
  | _, _ => None
  end.

(** The survivors of a round once nothing is left to decide in it, gathered
    the way the engine gathers them. *)
Definition survivorsOf (r : Round) : option (list Slot) :=
  match r with
  | RDone ents => Some ents
  | RThree _ _ _ f =>
      match f with
      | Some fm => if truthy (m_winner fm) then Some [m_winner fm] else None
      | None => None
      end
  | RNormal _ bye ms =>
      if forallb decided ms then Some (collectWinners bye ms) else None
  end.

(** The tournament is complete: its active round is over with [w] as its
    only survivor. *)
Definition soleSurvivor (t : Tournament) (w : Slot) : Prop :=
  exists r, rounds t !! roundIndex t = Some r /\ survivorsOf r = Some [w].

(** Number of three-entrant stages among the rounds built so far. *)
Definition threeStages (t : Tournament) : nat :=
  length (List.filter (fun r => match r with RThree _ _ _ _ => true | _ => false end)
            (rounds t)).

(** A round on which the fast-forward loop cannot continue: only a normal
    round with every match decided lets it build the next one. *)
Definition stops (r : Round) : Prop :=
  match r with
  | RNormal _ _ ms => forallb decided ms = false
  | _ => True
  end.

(** ** Sample data *)

Definition track (id : string) (pop : Z) : Entrant :=
  mkEntrant id id (Some pop) "".

Definition five : list Slot :=
  Some <$> [track "t90" 90; track "t80" 80; track "t70" 70;
            track "t60" 60; track "t50" 50].

Definition trio : list Slot :=
  Some <$> [track "t90" 90; track "t60" 60; track "t40" 40].

(** Following the spec's words for the totals: what one round adds to the
    slot count and to the count of decided slots. *)
Definition roundSlots (r : Round) : nat :=
  match r with
  | RNormal _ _ ms => length ms
  | RThree _ _ _ _ => 2
  | RDone _ => 0
  end.

Definition roundDecided (r : Round) : nat :=
  match r with
  | RNormal _ _ ms => length (List.filter (fun m => truthy (m_winner m)) ms)
  | RThree _ _ q f =>
      (if truthy (m_winner q) then 1 else 0)
      + match f with
        | Some fm => if truthy (m_winner fm) then 1 else 0
        | None => 0
        end
  | RDone _ => 0
  end.

Definition totalsSpec (rs : list Round) : nat * nat :=
  (sum_list (roundSlots <$> rs), sum_list (roundDecided <$> rs)).

(** A tournament in its three-entrant stage, the final not yet created. *)
Definition awaitingFinal (t : Tournament) : Prop :=
  exists ents top q, rounds t = [RThree ents top q None].


(** Provenance: every slot held by a match, a round or the tournament
    satisfies [P].  With [P] closed under "absent", this says that the
    engine only moves entrants around. *)
Definition matchOf (P : Slot -> Prop) (m : Match) : Prop :=
  P (m_a m) /\ P (m_b m) /\ P (m_winner m).

Definition roundOf (P : Slot -> Prop) (r : Round) : Prop :=
  match r with
  | RDone ents => Forall P ents
  | RThree _ top q f => P top /\ matchOf P q /\ from_option (matchOf P) True f
  | RNormal _ bye ms => P bye /\ Forall (matchOf P) ms
  end.

Definition tournamentOf (P : Slot -> Prop) (t : Tournament) : Prop :=
  P (champion t) /\ Forall (roundOf P) (rounds t).

(** The slot is absent or holds one of [entrants]. *)
Definition oneOf (entrants : list Entrant) (s : Slot) : Prop :=
  forall e, s = Some e -> e ∈ entrants.
(** ** The engine on a store of objects

    The functions once more, this time on a store in which every object of
    a snapshot (the tournament, its arrays, its rounds and its matches) has
    an address and is read and written in place, as the JavaScript code
    does.  Entrants, cursors and history entries are never written to by
    the engine and are kept as values inside the objects that hold them. *)

Module Store.

Definition loc := nat.

Record TournamentObj := mkTournamentObj {
  o_roundIndex : nat;
  o_rounds : loc;
  o_cursor : option Cursor;
  o_champion : Slot;
  o_history : loc
}.

Inductive RoundObj :=
| ODone (entrants : loc)
| OThree (entrants : loc) (top : Slot) (qualifier : loc) (final : option loc)
| ONormal (entrants : loc) (bye : Slot) (matches : loc).

Inductive Obj :=
| OTournament (t : TournamentObj)
| ORounds (rs : list loc)
| ORound (r : RoundObj)
| OMatches (ms : list loc)
| OMatch (m : Match)
| OSlots (xs : list Slot)
| OHistory (hs : list HistoryEntry).

Abbreviation Heap := (gmap loc Obj).

(** Computations on the store. *)
Definition M (A : Type) : Type := Heap -> Result (A * Heap).

Definition retM {A} (a : A) : M A := fun h => Ok (a, h).

Definition bindM {A B} (m : M A) (k : A -> M B) : M B :=
  fun h =>
    match m h with
    | Ok (a, h') => k a h'
    | Fail e => Fail e
    end.

Definition failM {A} (e : Failure) : M A := fun _ => Fail e.

Notation "'let*' x ':=' m 'in' k" := (bindM m (fun x => k))
  (at level 10, x name, m at level 100, k at level 200).
Notation "m ;; k" := (bindM m (fun _ => k))
  (at level 100, k at level 200, right associativity).

(** A new object gets an address no object has. *)
Definition alloc (o : Obj) : M loc :=
  fun h => let l := fresh (dom h) in Ok (l, <[l := o]> h).

Definition load (l : loc) : M Obj :=
  fun h =>
    match h !! l with
    | Some o => Ok (o, h)
    | None => Fail BadHeap
    end.

Definition store (l : loc) (o : Obj) : M unit :=
  fun h => Ok (tt, <[l := o]> h).

Definition loadTournament (l : loc) : M TournamentObj :=
  let* o := load l in
  match o with OTournament t => retM t | _ => failM BadHeap end.
Definition loadRounds (l : loc) : M (list loc) :=
  let* o := load l in
  match o with ORounds rs => retM rs | _ => failM BadHeap end.
Definition loadRound (l : loc) : M RoundObj :=
  let* o := load l in
  match o with ORound r => retM r | _ => failM BadHeap end.
Definition loadMatches (l : loc) : M (list loc) :=
  let* o := load l in
  match o with OMatches ms => retM ms | _ => failM BadHeap end.
Definition loadMatch (l : loc) : M Match :=
  let* o := load l in
  match o with OMatch m => retM m | _ => failM BadHeap end.
Definition loadSlots (l : loc) : M (list Slot) :=
  let* o := load l in
  match o with OSlots xs => retM xs | _ => failM BadHeap end.
Definition loadHistory (l : loc) : M (list HistoryEntry) :=
  let* o := load l in
  match o with OHistory hs => retM hs | _ => failM BadHeap end.

Fixpoint forEach {A B} (f : A -> M B) (l : list A) : M (list B) :=
  match l with
  | [] => retM []
  | x :: l' =>
      let* y := f x in
      let* ys := forEach f l' in
      retM (y :: ys)
  end.

(** *** [JSON.stringify]: the value a snapshot holds *)

Definition decodeSlots (h : Heap) (l : loc) : option (list Slot) :=
  match h !! l with Some (OSlots xs) => Some xs | _ => None end.

Definition decodeMatch (h : Heap) (l : loc) : option Match :=
  match h !! l with Some (OMatch m) => Some m | _ => None end.

Definition decodeMatches (h : Heap) (l : loc) : option (list Match) :=
  match h !! l with
  | Some (OMatches ms) => mapM (decodeMatch h) ms
  | _ => None
  end.

Definition decodeRound (h : Heap) (l : loc) : option Round :=
  match h !! l with
  | Some (ORound (ODone e)) => RDone <$> decodeSlots h e
  | Some (ORound (OThree e top q f)) =>
      ents ← decodeSlots h e;
      qm ← decodeMatch h q;
      fm ← match f with
           | Some fl => Some <$> decodeMatch h fl
           | None => Some None
           end;
      Some (RThree ents top qm fm)
  | Some (ORound (ONormal e bye ms)) =>
      ents ← decodeSlots h e;
      mv ← decodeMatches h ms;
      Some (RNormal ents bye mv)
  | _ => None
  end.

Definition decodeRounds (h : Heap) (l : loc) : option (list Round) :=
  match h !! l with
  | Some (ORounds rs) => mapM (decodeRound h) rs
  | _ => None
  end.

Definition decodeHistory (h : Heap) (l : loc) : option (list HistoryEntry) :=
  match h !! l with Some (OHistory hs) => Some hs | _ => None end.

Definition decodeTournament (h : Heap) (l : loc) : option Tournament :=
  match h !! l with
  | Some (OTournament o) =>
      rs ← decodeRounds h (o_rounds o);
      hs ← decodeHistory h (o_history o);
      Some (mkTournament (o_roundIndex o) rs (o_cursor o) (o_champion o) hs)
  | _ => None
  end.

Definition stringify (l : loc) : M Tournament :=
  fun h =>
    match decodeTournament h l with
    | Some t => Ok (t, h)
    | None => Fail BadHeap
    end.

(** *** [JSON.parse]: a value laid out as new objects *)

Definition parseMatch (m : Match) : M loc := alloc (OMatch m).

Definition parseRound (r : Round) : M loc :=
  match r with
  | RDone ents =>
      let* e := alloc (OSlots ents) in
      alloc (ORound (ODone e))
  | RThree ents top q f =>
      let* e := alloc (OSlots ents) in
      let* ql := parseMatch q in
      let* fl := match f with
                 | Some fm => let* l := parseMatch fm in retM (Some l)
                 | None => retM None
                 end in
      alloc (ORound (OThree e top ql fl))
  | RNormal ents bye ms =>
      let* e := alloc (OSlots ents) in
      let* mls := forEach parseMatch ms in
      let* ml := alloc (OMatches mls) in
      alloc (ORound (ONormal e bye ml))
  end.

Definition parseTournament (t : Tournament) : M loc :=
  let* rls := forEach parseRound (rounds t) in
  let* rl := alloc (ORounds rls) in
  let* hl := alloc (OHistory (history t)) in
  alloc (OTournament
           (mkTournamentObj (roundIndex t) rl (cursor t) (champion t) hl)).

Definition deepClone (x : loc) : M loc :=
  let* v := stringify x in
  parseTournament v.

(** *** Assignments to the fields of the tournament object *)

Definition setCursor (t : loc) (c : option Cursor) : M unit :=
  let* o := loadTournament t in
  store t (OTournament
             (mkTournamentObj (o_roundIndex o) (o_rounds o) c (o_champion o)
                (o_history o))).

Definition setChampion (t : loc) (w : Slot) : M unit :=
  let* o := loadTournament t in
  store t (OTournament
             (mkTournamentObj (o_roundIndex o) (o_rounds o) (o_cursor o) w
                (o_history o))).

Definition setRoundIndex (t : loc) (i : nat) : M unit :=
  let* o := loadTournament t in
  store t (OTournament
             (mkTournamentObj i (o_rounds o) (o_cursor o) (o_champion o)
                (o_history o))).

(** [t.history.push(e)] and [t.rounds.push(r)]: the array object is
    extended in place. *)
Definition pushHistory (t : loc) (e : HistoryEntry) : M unit :=
  let* o := loadTournament t in
  let* hs := loadHistory (o_history o) in
  store (o_history o) (OHistory (hs ++ [e])).

Definition pushRound (t : loc) (r : loc) : M unit :=
  let* o := loadTournament t in
  let* rs := loadRounds (o_rounds o) in
  store (o_rounds o) (ORounds (rs ++ [r])).

Definition setWinner (m : loc) (w : Slot) : M unit :=
  let* v := loadMatch m in
  store m (OMatch (set_winner w v)).

(** [round.final = f] on a three round. *)
Definition setFinal (round : loc) (f : loc) : M unit :=
  let* r := loadRound round in
  match r with
  | OThree e top q _ => store round (ORound (OThree e top q (Some f)))
  | _ => failM BadHeap
  end.

(** *** The engine *)

(** [[...list].sort(cmp)]: a copy of the array, sorted in place. *)
Definition sortByPopularityDesc (list : loc) : M loc :=
  let* xs := loadSlots list in
  let* copy := alloc (OSlots xs) in
  store copy (OSlots (sortBy comparePopularity xs)) ;;
  retM copy.

(** The pairing loop of [makeRound], pushing onto the [matches] array. *)
Fixpoint pairLoop (matches : loc) (pool : list Slot) (idxs : list nat) : M unit :=
  match idxs with
  | [] => retM tt
  | i :: idxs' =>
      let* m := alloc (OMatch (pairAt pool i)) in
      let* ms := loadMatches matches in
      store matches (OMatches (ms ++ [m])) ;;
      pairLoop matches pool idxs'
  end.

Definition makeRound (entrants : loc) : M loc :=
  let* xs := loadSlots entrants in
  let* alive := alloc (OSlots (List.filter truthy xs)) in
  let* al := loadSlots alive in
  if length al <=? 1 then alloc (ORound (ODone alive))
  else if length al =? 3 then
    let* sorted := sortByPopularityDesc alive in
    let* s := loadSlots sorted in
    let* q := alloc (OMatch (mkMatch (at_ s 1) (at_ s 2) None None)) in
    alloc (ORound (OThree sorted (at_ s 0) q None))
  else
    let* sorted := sortByPopularityDesc alive in
    let* s := loadSlots sorted in
    let* byePool :=
      (if length s mod 2 =? 1
       then let* p := alloc (OSlots (drop 1 s)) in retM (at_ s 0, p)
       else retM (None, sorted)) in
    let* pool := loadSlots (snd byePool) in
    let* matches := alloc (OMatches []) in
    pairLoop matches pool (seq 0 ((length pool + 1) / 2)) ;;
    alloc (ORound (ONormal sorted (fst byePool) matches)).

Definition deriveCursor (tournament : loc) : M (option Cursor) :=
  let* t := loadTournament tournament in
  let* rs := loadRounds (o_rounds t) in
  match rs !! o_roundIndex t with
  | None => retM None
  | Some rl =>
      let* r := loadRound rl in
      match r with
      | OThree _ _ q f =>
          let* qm := loadMatch q in
          if negb (truthy (m_winner qm))
          then retM (Some (CSpecial (o_roundIndex t) three))
          else match f with
               | Some fl =>
                   let* fm := loadMatch fl in
                   if negb (truthy (m_winner fm))
                   then retM (Some (CSpecial (o_roundIndex t) final))
                   else retM None
               | None => retM None
               end
      | ONormal _ _ ml =>
          let* mls := loadMatches ml in
          let* ms := forEach loadMatch mls in
          match findIndex pending ms with
          | Some idx => retM (Some (CMatch (o_roundIndex t) idx))
          | None => retM None
          end
      | ODone _ => retM None
      end
  end.

(** [round.matches.map((m) => m.winner).filter(Boolean)], then
    [if (round.bye) winners.push(round.bye)]: two new arrays, the second
    extended in place. *)
Definition collectWinners (bye : Slot) (ms : list Match) : M loc :=
  let* mapped := alloc (OSlots (m_winner <$> ms)) in
  let* ws := loadSlots mapped in
  let* winners := alloc (OSlots (List.filter truthy ws)) in
  (if truthy bye
   then let* w := loadSlots winners in store winners (OSlots (w ++ [bye]))
   else retM tt) ;;
  retM winners.

Inductive LoopStep := Break | Continue.

Definition ffBody (t : loc) : M LoopStep :=
  let* c := deriveCursor t in
  setCursor t c ;;
  let* o := loadTournament t in
  let* rs := loadRounds (o_rounds o) in
  match rs !! o_roundIndex o with
  | None => retM Break
  | Some rl =>
      if bool_decide (is_Some (o_cursor o)) then retM Break
      else
        let* round := loadRound rl in
        match round with
        | ONormal _ bye ml =>
            let* mls := loadMatches ml in
            let* ms := forEach loadMatch mls in
            if negb (forallb decided ms) then retM Break
            else
              let* winners := collectWinners bye ms in
              let* ws := loadSlots winners in
              if length ws =? 1
              then setChampion t (at_ ws 0) ;; retM Break
              else
                let* next := makeRound winners in
                setRoundIndex t (o_roundIndex o + 1) ;;
                pushRound t next ;;
                retM Continue
        | OThree _ _ _ _ => retM Break
        | ODone e =>
            let* ents := loadSlots e in
            (if length ents =? 1
             then setChampion t (at_ ents 0)
             else retM tt) ;;
            retM Break
        end
  end.

Fixpoint ffLoop (fuel : nat) (t : loc) : M unit :=
  match fuel with
  | 0 => failM OutOfFuel
  | S fuel' =>
      let* o := loadTournament t in
      if truthy (o_champion o) then retM tt
      else
        let* s := ffBody t in
        match s with
        | Break => retM tt
        | Continue => ffLoop fuel' t
        end
  end.

(** [fastForwardIfNeeded] after its first line, on the clone [t]. *)
Definition fastForwardCloned (t : loc) : M loc :=
  let* o := loadTournament t in
  let* rs := loadRounds (o_rounds o) in
  ffLoop (S (length rs - o_roundIndex o)) t ;;
  let* c := deriveCursor t in
  setCursor t c ;;
  retM t.

Definition fastForwardIfNeeded (tournament : loc) : M loc :=
  let* t := deepClone tournament in
  fastForwardCloned t.

Definition buildTournament (tracks : loc) : M loc :=
  let* first := makeRound tracks in
  let* rounds := alloc (ORounds [first]) in
  let* history := alloc (OHistory []) in
  let* t := alloc (OTournament (mkTournamentObj 0 rounds None None history)) in
  let* c := deriveCursor t in
  setCursor t c ;;
  fastForwardIfNeeded t.

(** [applyPick] after its first line, on the clone [t]. *)
Definition applyPickCloned (t : loc) (pickedSide : Side) : M loc :=
  let* o := loadTournament t in
  match o_cursor o with
  | None => retM t
  | Some cur =>
    let* rs := loadRounds (o_rounds o) in
    match rs !! o_roundIndex o with
    | None => retM t
    | Some rl =>
      let* round := loadRound rl in
      match cur with
      | CSpecial _ three =>
          match round with
          | OThree e top ml _ =>
              let* m := loadMatch ml in
              match pickOf pickedSide m with
              | None => retM t
              | Some w =>
                  setWinner ml (Some w) ;;
                  pushHistory t (HStage (o_roundIndex o) three (eid w)) ;;
                  let* f := alloc (OMatch (mkMatch top (Some w) None None)) in
                  setFinal rl f ;;
                  let* c := deriveCursor t in
                  setCursor t c ;;
                  retM t
              end
          | _ => failM TypeError
          end
      | CSpecial _ final =>
          match round with
          | OThree _ _ _ (Some ml) =>
              let* m := loadMatch ml in
              match pickOf pickedSide m with
              | None => retM t
              | Some w =>
                  setWinner ml (Some w) ;;
                  pushHistory t (HStage (o_roundIndex o) final (eid w)) ;;
                  setChampion t (Some w) ;;
                  setCursor t None ;;
                  retM t
              end
          | _ => failM TypeError
          end
      | CMatch _ idx =>
          match round with
          | ONormal _ bye mal =>
              let* mls := loadMatches mal in
              match mls !! idx with
              | None => failM TypeError
              | Some ml =>
                  let* m := loadMatch ml in
                  match pickOf pickedSide m with
                  | None => retM t
                  | Some w =>
                      setWinner ml (Some w) ;;
                      pushHistory t (HMatch (o_roundIndex o) idx (eid w)) ;;
                      let* ms := forEach loadMatch mls in
                      if negb (forallb decided ms)
                      then
                        let* c := deriveCursor t in
                        setCursor t c ;;
                        retM t
                      else
                        let* winners := collectWinners bye ms in
                        let* ws := loadSlots winners in
                        if length ws =? 1
                        then
                          setChampion t (at_ ws 0) ;;
                          setCursor t None ;;
                          retM t
                        else
                          let* next := makeRound winners in
                          setRoundIndex t (o_roundIndex o + 1) ;;
                          pushRound t next ;;
                          let* c := deriveCursor t in
                          setCursor t c ;;
                          fastForwardIfNeeded t
                  end
              end
          | _ => failM TypeError
          end
      end
    end
  end.

Definition applyPick (tournament : loc) (pickedSide : Side) : M loc :=
  let* t := deepClone tournament in
  applyPickCloned t pickedSide.

(** *** What a run may touch

    [wp m F Q]: started on a store that consists of the part [F] and any
    other objects [R], the computation [m] leaves [R] alone; it ends in a
    store [F' ∪ R] with [Q] holding of its result and [F'], or it fails and
    [Q] holds of the failure. *)
Definition wp {A} (m : M A) (F : Heap) (Q : Result A -> Heap -> Prop) : Prop :=
  forall R : Heap, F ##ₘ R ->
    match m (F ∪ R) with
    | Ok (a, h') => exists F', h' = F' ∪ R /\ F' ##ₘ R /\ Q (Ok a) F'
    | Fail e => Q (Fail e) ∅
    end.

(** *** Snapshots with their addresses *)

Record MatchN := mkMatchN { mn_loc : loc; mn_val : Match }.

Inductive RoundN :=
| NDone (l e : loc) (ents : list Slot)
| NThree (l e : loc) (ents : list Slot) (top : Slot) (q : MatchN) (f : option MatchN)
| NNormal (l e : loc) (ents : list Slot) (bye : Slot) (ml : loc) (ms : list MatchN).

Record TournamentN := mkTournamentN {
  tn_loc : loc;
  tn_roundIndex : nat;
  tn_rl : loc;
  tn_rounds : list RoundN;
  tn_cursor : option Cursor;
  tn_champion : Slot;
  tn_hl : loc;
  tn_history : list HistoryEntry
}.

Definition rn_loc (rn : RoundN) : loc :=
  match rn with
  | NDone l _ _ => l
  | NThree l _ _ _ _ _ => l
  | NNormal l _ _ _ _ _ => l
  end.

Definition robj (rn : RoundN) : RoundObj :=
  match rn with
  | NDone _ e _ => ODone e
  | NThree _ e _ top q f => OThree e top (mn_loc q) (mn_loc <$> f)
  | NNormal _ e _ bye ml _ => ONormal e bye ml
  end.

Definition eraseR (rn : RoundN) : Round :=
  match rn with
  | NDone _ _ ents => RDone ents
  | NThree _ _ ents top q f => RThree ents top (mn_val q) (mn_val <$> f)
  | NNormal _ _ ents bye _ ms => RNormal ents bye (mn_val <$> ms)
  end.

Definition tobj (T : TournamentN) : TournamentObj :=
  mkTournamentObj (tn_roundIndex T) (tn_rl T) (tn_cursor T) (tn_champion T)
    (tn_hl T).

Definition erase (T : TournamentN) : Tournament :=
  mkTournament (tn_roundIndex T) (eraseR <$> tn_rounds T) (tn_cursor T)
    (tn_champion T) (tn_history T).

(** The objects a snapshot consists of, each with its address. *)
Definition nodeM (mn : MatchN) : loc * Obj := (mn_loc mn, OMatch (mn_val mn)).

Definition nodesR (rn : RoundN) : list (loc * Obj) :=
  match rn with
  | NDone l e ents => [(l, ORound (ODone e)); (e, OSlots ents)]
  | NThree l e ents top q f =>
      (l, ORound (OThree e top (mn_loc q) (mn_loc <$> f)))
      :: (e, OSlots ents) :: nodeM q
      :: match f with Some fm => [nodeM fm] | None => [] end
  | NNormal l e ents bye ml ms =>
      (l, ORound (ONormal e bye ml)) :: (e, OSlots ents)
      :: (ml, OMatches (mn_loc <$> ms)) :: (nodeM <$> ms)
  end.

Definition nodesT (T : TournamentN) : list (loc * Obj) :=
  (tn_loc T, OTournament (tobj T))
  :: (tn_rl T, ORounds (rn_loc <$> tn_rounds T))
  :: (tn_hl T, OHistory (tn_history T))
  :: (tn_rounds T ≫= nodesR).

(** The objects [N] are in the store part [F], each at an address of its
    own. *)
Definition treeN (F : Heap) (N : list (loc * Obj)) : Prop :=
  NoDup N.*1 /\ forall l o, (l, o) ∈ N -> F !! l = Some o.

End Store.

(** [F'] is [F] with the new objects [N] added, each at an address that was
    free in [F]. *)
Definition extends (F F' : Store.Heap) (N : list (Store.loc * Store.Obj)) : Prop :=
  F ⊆ F' /\ Store.treeN F' N /\ Forall (fun n => F !! n.1 = None) N.

(** Updates of a snapshot that keep its addresses. *)
Definition tn_with_fields (i : nat) (c : option Cursor) (ch : Slot)
    (T : Store.TournamentN) : Store.TournamentN :=
  Store.mkTournamentN (Store.tn_loc T) i (Store.tn_rl T) (Store.tn_rounds T)
    c ch (Store.tn_hl T) (Store.tn_history T).

Definition tn_set_history (hs : list HistoryEntry) (T : Store.TournamentN)
  : Store.TournamentN :=
  Store.mkTournamentN (Store.tn_loc T) (Store.tn_roundIndex T) (Store.tn_rl T)
    (Store.tn_rounds T) (Store.tn_cursor T) (Store.tn_champion T)
    (Store.tn_hl T) hs.

Definition tn_set_rounds (rs : list Store.RoundN) (T : Store.TournamentN)
  : Store.TournamentN :=
  Store.mkTournamentN (Store.tn_loc T) (Store.tn_roundIndex T) (Store.tn_rl T)
    rs (Store.tn_cursor T) (Store.tn_champion T) (Store.tn_hl T)
    (Store.tn_history T).

(** What [applyPick] of the model does once a winner [w] has been picked in
    match [idx] of a normal round: the rest of its normal branch. *)
Definition pickedInMatch (t : Tournament) (ents : list Slot) (bye : Slot)
    (ms : list Match) (idx : nat) (m : Match) (w : Entrant) : Result Tournament :=
  let ms' := <[idx := set_winner (Some w) m]> ms in
  let t1 := push_history (HMatch (roundIndex t) idx (eid w)) t in
  let t2 :=
    set_rounds (<[roundIndex t := RNormal ents bye ms']> (rounds t1)) t1 in
  if negb (forallb decided ms')
  then Ok (set_cursor (deriveCursor t2) t2)
  else
    let winners := collectWinners bye ms' in
    if length winners =? 1
    then Ok (set_cursor None (set_champion (at_ winners 0) t2))
    else
      let next := makeRound winners in
      let t3 :=
        set_rounds (rounds t2 ++ [next])
          (set_roundIndex (roundIndex t2 + 1) t2) in
      fastForwardIfNeeded (set_cursor (deriveCursor t3) t3).

(** A transition [fh] of the store model does what the transition [f] of
    the value model does, and no more: run on any store [h] with a snapshot
    of value [t] at [l], it fails as [f t] fails, or it ends in a store [h']
    that still has every object of [h] as it was, with the value [f t] in a
    snapshot at a new address.  The outcome is a function of the value [t]
    alone. *)
Definition refinesT (fh : Store.loc -> Store.M Store.loc)
    (f : Tournament -> Result Tournament) : Prop :=
  forall (h : Store.Heap) (l : Store.loc) (t : Tournament),
    Store.decodeTournament h l = Some t ->
    match f t with
    | Ok t' =>
        exists l' h',
          fh l h = Ok (l', h') /\ h ⊆ h' /\ h !! l' = None /\
          Store.decodeTournament h' l' = Some t'
    | Fail e => fh l h = Fail e
    end.

(** A store that holds the array of the three sample entrants. *)
Definition heap0 : Store.Heap := {[ 7 := Store.OSlots trio ]}.


(** * The screen logic around the engine *)

(** [progressLabel].  The argument may be [null]; the last branch reads
    [r.matches.length], which a three round does not have (a [TypeError]),
    while a done round carries [matches: []]. *)
Definition progressLabel (tournament : option Tournament) : Result string :=
  match tournament with
  | None => Ok ""%string
  | Some t =>
      if truthy (champion t) then Ok "Finished"%string
      else
        let roundNum := roundIndex t + 1 in
        match rounds t !! roundIndex t with
        | None => Ok ("Round " +:+ pretty roundNum)%string
        | Some r =>
            match cursor t with
            | None => Ok ("Round " +:+ pretty roundNum)%string
            | Some (CSpecial _ three) =>
                Ok ("Round " +:+ pretty roundNum
                      +:+ " • Qualifier (pick 1 of 2)")%string
            | Some (CSpecial _ final) =>
                Ok "Final • Choose your champion"%string
            | Some (CMatch _ idx) =>
                let label (n : nat) :=
                  ("Round " +:+ pretty roundNum +:+ " • Match "
                     +:+ pretty (idx + 1) +:+ "/" +:+ pretty n)%string in
                match r with
                | RNormal _ _ ms => Ok (label (length ms))
                | RDone _ => Ok (label 0)
                | RThree _ _ _ _ => Fail TypeError
                end
            end
        end
  end.

(** The [currentStage] memo of [App]: what the duel screen shows. *)
Inductive StageKind := KThree | KFinal | KNormal.

Record Stage := mkStage {
  kind : StageKind;
  stage_a : Slot;
  stage_b : Slot;
  stage_top : Slot;
  stage_round : Round
}.

(** [r.match], [r.final], [r.top] and [r.bye] of a round object; a round
    of another type does not have the property. *)
Definition matchOfRound (r : Round) : option Match :=
  match r with
  | RThree _ _ q _ => Some q
  | _ => None
  end.

Definition finalOfRound (r : Round) : option Match :=
  match r with
  | RThree _ _ _ f => f
  | _ => None
  end.

Definition topOfRound (r : Round) : Slot :=
  match r with
  | RThree _ top _ _ => top
  | _ => None
  end.

Definition byeOfRound (r : Round) : Slot :=
  match r with
  | RNormal _ bye _ => bye
  | _ => None
  end.

(** [m?.a] and [m?.b]. *)
Definition optA (m : option Match) : Slot := m ≫= m_a.
Definition optB (m : option Match) : Slot := m ≫= m_b.

Definition currentStage (tournament : option Tournament) : Result (option Stage) :=
  match tournament with
  | None => Ok None
  | Some t =>
      if truthy (champion t) then Ok None
      else
        match rounds t !! roundIndex t, cursor t with
        | Some r, Some cur =>
            match cur with
            | CSpecial _ three =>
                Ok (Some (mkStage KThree (optA (matchOfRound r))
                            (optB (matchOfRound r)) (topOfRound r) r))
            | CSpecial _ final =>
                Ok (Some (mkStage KFinal (optA (finalOfRound r))
                            (optB (finalOfRound r)) None r))
            | CMatch _ idx =>
                match r with
                | RThree _ _ _ _ => Fail TypeError
                | RNormal _ _ ms =>
                    let m := ms !! idx in
                    Ok (Some (mkStage KNormal (optA m) (optB m) (byeOfRound r) r))
                | RDone _ =>
                    Ok (Some (mkStage KNormal None None None r))
                end
            end
        | _, _ => Ok None
        end
  end.

(** [normalizePair]: the more popular of the two goes on top. *)
Record Pair := mkPair {
  pair_top : Slot;
  pair_bottom : Slot;
  swapped : bool
}.

Definition normalizePair (a b : Slot) : Pair :=
  if negb (truthy a) || negb (truthy b) then mkPair a b false
  else
    let ap := popularityOr0 a in
    let bp := popularityOr0 b in
    if (bp <=? ap)%Z then mkPair a b false else mkPair b a true.

(** The [displayed] memo: the two cards and the side each one stands for. *)
Record Displayed := mkDisplayed {
  d_top : Slot;
  d_bottom : Slot;
  topPickSide : Side;
  bottomPickSide : Side
}.

Definition displayed (currentStage : option Stage) : option Displayed :=
  match currentStage with
  | None => None
  | Some st =>
      if negb (truthy (stage_a st)) || negb (truthy (stage_b st)) then None
      else
        let p := normalizePair (stage_a st) (stage_b st) in
        Some (mkDisplayed (pair_top p) (pair_bottom p)
                (if swapped p then PickB else PickA)
                (if swapped p then PickA else PickB))
  end.

(** Which of the three cards the tournament area renders:
    [tournament.champion ? ... : currentStage && displayed ? ... : ...]. *)
Inductive Screen :=
| ChampionCard (c : Entrant)
| DuelCards (st : Stage) (d : Displayed)
| PreparingCard.

Definition screenOf (t : Tournament) : Result Screen :=
  match champion t with
  | Some c => Ok (ChampionCard c)
  | None =>
      bindR (currentStage (Some t)) (fun cs =>
        match cs, displayed cs with
        | Some st, Some d => Ok (DuelCards st d)
        | _, _ => Ok PreparingCard
        end)
  end.

(** ** Notions for the whole bracket *)

(** A normal round in which every match has its winner. *)
Definition settledRound (r : Round) : Prop :=
  match r with
  | RNormal _ _ ms => forallb decided ms = true
  | _ => False
  end.

(** What a pick at cursor [cur] writes into the active round. *)
Definition recordWinner (cur : Cursor) (w : Entrant) (r : Round) : Round :=
  match cur, r with
  | CSpecial _ three, RThree ents top q _ =>
      RThree ents top (set_winner (Some w) q)
        (Some (mkMatch top (Some w) None None))
  | CSpecial _ final, RThree ents top q (Some fm) =>
      RThree ents top q (Some (set_winner (Some w) fm))
  | CMatch _ idx, RNormal ents bye ms =>
      match ms !! idx with
      | Some m => RNormal ents bye (<[idx := set_winner (Some w) m]> ms)
      | None => r
      end
  | _, _ => r
  end.

(** The history entry a pick at cursor [cur] of round [round] pushes. *)
Definition entryOf (round : nat) (cur : Cursor) (w : Entrant) : HistoryEntry :=
  match cur with
  | CSpecial _ sp => HStage round sp (eid w)
  | CMatch _ idx => HMatch round idx (eid w)
  end.

Definition winnerIdOf (h : HistoryEntry) : string :=
  match h with
  | HStage _ _ w => w
  | HMatch _ _ w => w
  end.

Definition roundOfEntry (h : HistoryEntry) : nat :=
  match h with
  | HStage r _ _ => r
  | HMatch r _ _ => r
  end.

(** The books of a bracket started from [n] present entrants: every
    decision taken is one history entry, the rounds before the active one
    are settled normal rounds, round [i] holds [ceil (n / 2 ^ i)] entrants
    (two or more, if two or more started), and every history entry names a
    round built so far. *)
Definition Ledger (n : nat) (t : Tournament) : Prop :=
  length (history t) = sum_list (decidedCount <$> rounds t) /\
  Forall settledRound (take (roundIndex t) (rounds t)) /\
  (forall i r, rounds t !! i = Some r ->
     entrantCount r = (n + 2 ^ i - 1) / 2 ^ i) /\
  Forall (fun h => roundOfEntry h <= roundIndex t) (history t) /\
  (2 <= n -> Forall (fun r => 2 <= entrantCount r) (rounds t)).

(** * The helpers of [App.jsx] *)

(** ** Text as code units

    Where a helper looks at single characters (trimming, regular
    expressions, Base64), a JavaScript string is the list of its UTF-16
    code units. *)
Definition units (s : string) : list N :=
  Ascii.N_of_ascii <$> String.list_ascii_of_string s.
Arguments units : simpl never.

(** The [WhiteSpace] and [LineTerminator] code points of ECMAScript, which
    [String.prototype.trim] strips. *)
Definition isWhite (c : N) : bool :=
  bool_decide (c ∈ [9; 10; 11; 12; 13; 32; 160; 5760; 8232; 8233; 8239;
                    8287; 12288; 65279]%N)
  || ((8192 <=? c) && (c <=? 8202))%N.

(** The character class [[a-zA-Z0-9]]. *)
Definition isAlnum (c : N) : bool :=
  (((48 <=? c) && (c <=? 57)) || ((65 <=? c) && (c <=? 90))
   || ((97 <=? c) && (c <=? 122)))%N.

Fixpoint trimStart (s : list N) : list N :=
  match s with
  | c :: s' => if isWhite c then trimStart s' else s
  | [] => []
  end.

(** Dropping the longest run of elements with [p] at the end of a list. *)
Fixpoint dropEndWhile {A} (p : A -> bool) (s : list A) : list A :=
  match s with
  | [] => []
  | c :: s' =>
      match dropEndWhile p s' with
      | [] => if p c then [] else [c]
      | r => c :: r
      end
  end.

Definition trimEnd (s : list N) : list N := dropEndWhile isWhite s.

Definition trim (s : list N) : list N := trimEnd (trimStart s).

(** [s] starts with the literal [p]: what is left of [s] behind it. *)
Fixpoint stripPrefix (p s : list N) : option (list N) :=
  match p, s with
  | [], _ => Some s
  | a :: p', b :: s' => if (a =? b)%N then stripPrefix p' s' else None
  | _ :: _, [] => None
  end.

(** The longest run of [[a-zA-Z0-9]] at the head of [s]. *)
Fixpoint alnumRun (s : list N) : list N :=
  match s with
  | c :: s' => if isAlnum c then c :: alnumRun s' else []
  | [] => []
  end.

Definition nonEmpty {A} (l : list A) : bool :=
  match l with
  | [] => false
  | _ => true
  end.

(** [/^([a-zA-Z0-9]+)$/]: the whole text is one non-empty run. *)
Definition matchId (s : list N) : option (list N) :=
  if nonEmpty s && forallb isAlnum s then Some s else None.

(** [/^spotify:playlist:([a-zA-Z0-9]+)$/]. *)
Definition matchUri (s : list N) : option (list N) :=
  stripPrefix (units "spotify:playlist:") s ≫= matchId.

(** [/spotify\.com\/playlist\/([a-zA-Z0-9]+)/], not anchored: the match
    that starts leftmost wins, and at a start position the pattern matches
    exactly when the literal is there with at least one character of the
    class behind it; the group takes the whole run. *)
Definition matchUrlHere (s : list N) : option (list N) :=
  rest ← stripPrefix (units "spotify.com/playlist/") s;
  let run := alnumRun rest in
  if nonEmpty run then Some run else None.

Fixpoint searchUrl (s : list N) : option (list N) :=
  match matchUrlHere s with
  | Some run => Some run
  | None =>
      match s with
      | [] => None
      | _ :: s' => searchUrl s'
      end
  end.

(** [parseSpotifyPlaylistId]; [input] is the text of the input box. *)
Definition parseSpotifyPlaylistId (input : list N) : option (list N) :=
  if negb (nonEmpty input) then None
  else
    let trimmed := trim input in
    match matchUri trimmed with
    | Some playlistId => Some playlistId
    | None =>
        match searchUrl trimmed with
        | Some playlistId => Some playlistId
        | None => matchId trimmed
        end
    end.

(** [xs] occurs in [s] as a run of consecutive code units. *)
Definition occursIn (xs s : list N) : Prop :=
  exists before after, s = before ++ xs ++ after.

(** ** [clamp] on integers *)
Definition clamp (n a b : Z) : Z := Z.max a (Z.min b (Z.min b n)).

(** ** [formatMs]

    [ms] is an integer number of milliseconds or missing.  [Math.floor] of
    a quotient is [Z.div], the remainder operator [%] takes the sign of
    the dividend ([Z.rem]), and [String(n)] is the decimal text of [n]
    (for integers below 10^21 in size). *)
Definition padStart2 (s : string) : string :=
  match String.length s with
  | 0 => "00"
  | 1 => "0" +:+ s
  | _ => s
  end.

Definition formatMs (ms : option Z) : string :=
  match ms with
  | None => "—"
  | Some ms =>
      let total := (ms / 1000)%Z in
      let m := (total / 60)%Z in
      let s := Z.rem total 60 in
      pretty m +:+ ":" +:+ padStart2 (pretty s)
  end.

(** ** [getImage] *)

(** An image object of the Web API; the engine of this function only reads
    [url].  A missing or empty [url] is falsy. *)
Record Image := mkImage { url : option string }.

Inductive Size := SizeSm | SizeMd | SizeLg.

Definition truthyText (s : option string) : bool :=
  match s with
  | Some s => negb (String.eqb s "")
  | None => false
  end.

(** [images[i]?.url]: an entry that is [null] reads as [undefined]. *)
Definition urlAt (images : list (option Image)) (i : nat) : option string :=
  mjoin (images !! i) ≫= url.

(** [images[0].url]: a [TypeError] if the first entry is [null]. *)
Definition firstUrl (images : list (option Image)) : Result (option string) :=
  match images !! 0 with
  | Some (Some img) => Ok (url img)
  | _ => Fail TypeError
  end.

(** [x || images[0].url]. *)
Definition orFirstUrl (x : option string) (images : list (option Image))
  : Result (option string) :=
  if truthyText x then Ok x else firstUrl images.

Definition getImage (images : option (list (option Image))) (size : Size)
  : Result (option string) :=
  match images with
  | None => Ok None
  | Some [] => Ok None
  | Some images =>
      match size with
      | SizeSm =>
          orFirstUrl (urlAt images (length images - 1)) images
      | SizeLg =>
          if truthyText (urlAt images 0) then Ok (urlAt images 0)
          else match images !! (length images - 1) with
               | Some (Some img) => Ok (url img)
               | _ => Fail TypeError
               end
      | SizeMd =>
          orFirstUrl (urlAt images (length images / 2)) images
      end
  end.

(** ** [randomString] and [base64UrlEncode] *)

(** [chars[k]]: the code unit at index [k], [None] past the end. *)
Definition charAt (chars : list N) (k : N) : option N := chars !! N.to_nat k.

Definition randomChars : list N :=
  units "ABCDEFGHIJKLMNOPQRSTUVWXYZabcdefghijklmnopqrstuvwxyz0123456789-._~".

(** [randomString(length)], as a function of the bytes that
    [crypto.getRandomValues] wrote into the array of that length.  An
    index past the end of [chars] would append the text "undefined". *)
Definition randomString (rnd : list N) : list N :=
  rnd ≫= fun b =>
    match charAt randomChars (b mod N.of_nat (length randomChars)) with
    | Some c => [c]
    | None => units "undefined"
    end.

(** [btoa] on a binary string (code units below 256): Base64 of RFC 4648
    with padding. *)
Definition base64Chars : list N :=
  units "ABCDEFGHIJKLMNOPQRSTUVWXYZabcdefghijklmnopqrstuvwxyz0123456789+/".

Definition sextet (k : N) : N := default 0%N (charAt base64Chars k).

Fixpoint btoa (bytes : list N) : list N :=
  match bytes with
  | [] => []
  | [a] =>
      [sextet (N.shiftr a 2); sextet (N.shiftl (N.land a 3) 4); 61; 61]%N
  | [a; b] =>
      [sextet (N.shiftr a 2);
       sextet (N.lor (N.shiftl (N.land a 3) 4) (N.shiftr b 4));
       sextet (N.shiftl (N.land b 15) 2); 61]%N
  | a :: b :: c :: rest =>
      [sextet (N.shiftr a 2);
       sextet (N.lor (N.shiftl (N.land a 3) 4) (N.shiftr b 4));
       sextet (N.lor (N.shiftl (N.land b 15) 2) (N.shiftr c 6));
       sextet (N.land c 63)]%N ++ btoa rest
  end.

(** [s.replace(/x/g, y)] for single code units. *)
Definition replaceAll (x y : N) (s : list N) : list N :=
  (fun c => if (c =? x)%N then y else c) <$> s.

(** [s.replace(/=+$/g, "")]: the run of ["="] at the end is dropped. *)
Definition dropTrailingEquals (s : list N) : list N :=
  dropEndWhile (fun c => (c =? 61)%N) s.

(** [base64UrlEncode(arrayBuffer)] on the bytes of the buffer. *)
Definition base64UrlEncode (bytes : list N) : list N :=
  dropTrailingEquals (replaceAll 47 95 (replaceAll 43 45 (btoa bytes))).

(** The characters of Base64url without padding. *)
Definition isUrlSafe (c : N) : bool :=
  isAlnum c || (c =? 45)%N || (c =? 95)%N.

(** The "unreserved" characters of a URI, the alphabet of a PKCE code
    verifier. *)
Definition isUnreserved (c : N) : bool :=
  isAlnum c || (c =? 45)%N || (c =? 46)%N || (c =? 95)%N || (c =? 126)%N.

(** The byte values, and how many of them [randomString] maps to the
    alphabet position [k]. *)
Definition allBytes : list N := N.of_nat <$> seq 0 256.

Definition bytesMappedTo (k : N) : nat :=
  length (List.filter (fun b => (b mod 66 =? k)%N) allBytes).

(** The characters of Base64 proper. *)
Definition isBase64 (c : N) : bool :=
  isAlnum c || (c =? 43)%N || (c =? 47)%N.

(** * Loading a playlist: [fetchPlaylistTracks] *)

(** What a request can end in: the value, or what is thrown.  Besides the
    [TypeError] of a read on [null], a request throws the error of
    [spotifyFetch]; [LoadOutOfFuel] marks a paging loop cut short by the
    model and is proved never to occur. *)
Inductive LoadFailure :=
| LoadTypeError
| ApiError (message : string)
| LoadOutOfFuel.

Inductive Load (A : Type) :=
| Loaded (x : A)
| Thrown (e : LoadFailure).
Arguments Loaded {A} x.
Arguments Thrown {A} e.

Definition bindL {A B} (r : Load A) (k : A -> Load B) : Load B :=
  match r with
  | Loaded x => k x
  | Thrown e => Thrown e
  end.

Definition liftResult {A} (r : Result A) : Load A :=
  match r with
  | Ok x => Loaded x
  | Fail _ => Thrown LoadTypeError
  end.

(** The JSON of the Web API, as far as the loader reads it.
    [tr_album_images] is [tr.album?.images] and [tr_external_url] is
    [tr.external_urls?.spotify]. *)
Record Artist := mkArtist { artist_name : option string }.

Record RawTrack := mkRawTrack {
  tr_id : option string;
  tr_uri : option string;
  tr_name : option string;
  tr_artists : option (list (option Artist));
  tr_album_images : option (list (option Image));
  tr_duration_ms : option Z;
  tr_popularity : option Z;
  tr_external_url : option string;
  tr_is_local : bool
}.

Record RawItem := mkRawItem {
  it_track : option RawTrack;
  it_is_local : bool
}.

Record Page := mkPage {
  page_items : option (list (option RawItem));
  page_next : option string
}.

Record PlaylistMeta := mkPlaylistMeta {
  pl_name : option string;
  pl_images : option (list (option Image));
  pl_owner : option string
}.

(** The track object the loader builds. *)
Record Track := mkTrack {
  t_id : string;
  t_uri : string;
  t_name : option string;
  t_artists : string;
  t_albumImage : option string;
  t_duration_ms : option Z;
  t_popularity : Z;
  t_external_url : option string
}.

(** [(tr.artists || []).map((a) => a.name)]: reading [name] of a [null]
    entry throws. *)
Fixpoint artistNames (artists : list (option Artist)) : Load (list (option string)) :=
  match artists with
  | [] => Loaded []
  | Some a :: rest =>
      bindL (artistNames rest) (fun names => Loaded (artist_name a :: names))
  | None :: _ => Thrown LoadTypeError
  end.

(** [names.join(", ")]: a missing name joins as the empty text. *)
Definition joinNames (names : list (option string)) : string :=
  String.concat ", " (default ""%string <$> names).

(** One pass of the [for ... of] loop over the items of a page: [None] is
    [continue], [Some t] the object pushed. *)
Definition trackOf (it : option RawItem) : Load (option Track) :=
  match it ≫= it_track with
  | None => Loaded None
  | Some tr =>
      if tr_is_local tr || from_option it_is_local false it then Loaded None
      else if negb (truthyText (tr_id tr)) then Loaded None
      else
        let id := default ""%string (tr_id tr) in
        bindL (artistNames (default [] (tr_artists tr))) (fun names =>
        bindL (liftResult (getImage (tr_album_images tr) SizeLg)) (fun albumImage =>
        Loaded (Some (mkTrack id
                        (if truthyText (tr_uri tr)
                         then default ""%string (tr_uri tr)
                         else "spotify:track:" +:+ id)
                        (tr_name tr)
                        (joinNames names)
                        albumImage
                        (tr_duration_ms tr)
                        (default 0%Z (tr_popularity tr))
                        (tr_external_url tr)))))
  end.

(** The loop over [page.items || []], pushing onto [items]. *)
Fixpoint pushItems (its : list (option RawItem)) (items : list Track)
  : Load (list Track) :=
  match its with
  | [] => Loaded items
  | it :: rest =>
      bindL (trackOf it) (fun t =>
        pushItems rest (match t with
                        | Some t => items ++ [t]
                        | None => items
                        end))
  end.

Definition limit : nat := 100.

(** The [while (true)] loop: [fetchPage offset] is the answer of the
    request for the page at [offset]. *)
Fixpoint pagesLoop (fuel : nat) (fetchPage : nat -> Load Page)
    (offset : nat) (items : list Track) : Load (list Track) :=
  match fuel with
  | 0 => Thrown LoadOutOfFuel
  | S fuel' =>
      bindL (fetchPage offset) (fun page =>
      bindL (pushItems (default [] (page_items page)) items) (fun items =>
        if negb (truthyText (page_next page)) then Loaded items
        else
          let offset := offset + limit in
          if 2000 <? offset then Loaded items
          else pagesLoop fuel' fetchPage offset items))
  end.

(** The second loop: the first track of every id is kept. *)
Fixpoint dedupLoop (seen : gset string) (dedup : list Track)
    (items : list Track) : list Track :=
  match items with
  | [] => dedup
  | t :: rest =>
      if decide (t_id t ∈ seen) then dedupLoop seen dedup rest
      else dedupLoop ({[t_id t]} ∪ seen) (dedup ++ [t]) rest
  end.

(** Offsets 0, 100, ..., 2000 are the only ones the loop can reach. *)
Definition pagesFuel : nat := 21.

Definition fetchPlaylistTracks (fetchPlaylist : Load PlaylistMeta)
    (fetchPage : nat -> Load Page) : Load (PlaylistMeta * list Track) :=
  bindL fetchPlaylist (fun playlist =>
  bindL (pagesLoop pagesFuel fetchPage 0 []) (fun items =>
    Loaded (playlist, dedupLoop ∅ [] items))).

(** The items of the pages at offsets [offset], [offset + 100], ... up to
    and including the first page without [next], at most [n] pages. *)
Fixpoint itemsUpTo (n : nat) (fetchPage : nat -> Load Page) (offset : nat)
  : list (option RawItem) :=
  match n with
  | 0 => []
  | S n' =>
      match fetchPage offset with
      | Loaded page =>
          default [] (page_items page)
          ++ (if truthyText (page_next page)
              then itemsUpTo n' fetchPage (offset + limit)
              else [])
      | Thrown _ => []
      end
  end.

(** The tracks that the items of a list give, in order. *)
Definition tracksOf (its : list (option RawItem)) : list Track :=
  omap (fun it => match trackOf it with
                  | Loaded t => t
                  | Thrown _ => None
                  end) its.

(** The raw track behind a loaded one. *)
Definition loadedFrom (it : option RawItem) (t : Track) : Prop :=
  exists item tr,
    it = Some item /\ it_track item = Some tr /\
    tr_is_local tr = false /\ it_is_local item = false /\
    tr_id tr = Some (t_id t) /\
    t_name t = tr_name tr /\
    t_duration_ms t = tr_duration_ms tr /\
    t_popularity t = default 0%Z (tr_popularity tr) /\
    t_external_url t = tr_external_url tr.

(** The engine's view of a loaded track. *)
Definition entrantOf (t : Track) : Entrant :=
  mkEntrant (t_id t) (default ""%string (t_name t)) (Some (t_popularity t))
    (t_uri t).

(** ** Sample answers *)

Definition rawTrack (id : string) (pop : option Z) (isLocal : bool) : RawTrack :=
  mkRawTrack (Some id) None (Some id) None None None pop None isLocal.

Definition samplePage : Page :=
  mkPage
    (Some [Some (mkRawItem (Some (rawTrack "a" (Some 7%Z) false)) false);
           None;
           Some (mkRawItem (Some (rawTrack "b" None true)) false);
           Some (mkRawItem (Some (rawTrack "a" (Some 9%Z) false)) false);
           Some (mkRawItem (Some (rawTrack "c" None false)) false)])
    None.

Definition sampleMeta : PlaylistMeta := mkPlaylistMeta (Some "mix"%string) None None.

Definition sampleFetch (offset : nat) : Load Page :=
  if offset =? 0 then Loaded samplePage else Thrown (ApiError "no such page").

(** * Sessions: [localStorage], tokens and the handlers of [App] *)

(** [localStorage]: texts under text keys. *)
Abbreviation Storage := (gmap string string).

Definition APP_SAVE_KEY : string := "spotify_duel_save_v1".
Definition LS_token : string := "sp_token".
Definition LS_expiry : string := "sp_expiry".
Definition LS_refresh : string := "sp_refresh".
Definition LS_verifier : string := "sp_pkce_verifier".

(** [loadState]: [{ status, error }]; the error is kept as the thrown
    value whose message the screen shows. *)
Inductive LoadStatus :=
| LoadIdle
| LoadLoading
| LoadReady
| LoadFailed (e : LoadFailure).

(** [saveState]: [{ status, error, lastSavedAt }]. *)
Inductive SaveStatus :=
| SaveIdle
| SaveSaved (lastSavedAt : Z)
| SaveRestored (lastSavedAt : option Z)
| SaveFailed (message : string).

(** What [handleSave] hands to [saveToLocalStorage], and what is read back:
    [JSON.parse] may give an object that lacks any of the properties. *)
Record Saved := mkSaved {
  sv_playlistInput : option (list N);
  sv_playlistMeta : option PlaylistMeta;
  sv_tracks : option (list Track);
  sv_tournament : option Tournament;
  sv_loadState : option LoadStatus;
  sv_savedAt : option Z;
  sv_version : option Z
}.

(** The part of the state of [App] that the handlers below touch. *)
Record AppState := mkAppState {
  app_token : option string;
  app_playlistInput : list N;
  app_loadState : LoadStatus;
  app_playlistMeta : option PlaylistMeta;
  app_tracks : list Track;
  app_tournament : option Tournament;
  app_saveState : SaveStatus
}.

Section Session.

(** [JSON.stringify] on the saved object and [JSON.parse] on a stored text
    ([None]: it throws, or the text is ["null"]); [numberOf] is [Number]
    on a stored text, [None] standing for [NaN]. *)
Context (stringify : Saved -> string) (jsonParse : string -> option Saved).
Context (numberOf : string -> option Z).

(** [safeJsonParse]. *)
Definition safeJsonParse (s : string) : option Saved := jsonParse s.

(** [saveToLocalStorage(payload)] at time [now]: [savedAt] and [version]
    are written over whatever the payload says. *)
Definition saveToLocalStorage (payload : Saved) (now : Z) (ls : Storage) : Storage :=
  <[APP_SAVE_KEY :=
      stringify (mkSaved (sv_playlistInput payload) (sv_playlistMeta payload)
                   (sv_tracks payload) (sv_tournament payload)
                   (sv_loadState payload) (Some now) (Some 1%Z))]> ls.

Definition loadFromLocalStorage (ls : Storage) : option Saved :=
  match ls !! APP_SAVE_KEY with
  | None => None
  | Some raw => if String.eqb raw "" then None else safeJsonParse raw
  end.

Definition clearLocalStorageSave (ls : Storage) : Storage :=
  delete APP_SAVE_KEY ls.

(** [getStoredAccessToken] at time [now]: [Date.now() > NaN] is false. *)
Definition getStoredAccessToken (now : Z) (ls : Storage) : option string :=
  let tok := ls !! LS_token in
  let exp :=
    numberOf (if truthyText (ls !! LS_expiry)
              then default ""%string (ls !! LS_expiry) else "0"%string) in
  if negb (truthyText tok) then None
  else match exp with
       | Some exp => if (exp <? now)%Z then None else tok
       | None => tok
       end.

(** [storeToken({ access_token, expires_in, refresh_token })] at time
    [now]. *)
Definition storeToken (access_token : string) (expires_in : Z)
    (refresh_token : option string) (now : Z) (ls : Storage) : Storage :=
  let ls := <[LS_token := access_token]> ls in
  let ls := <[LS_expiry := pretty (now + (expires_in - 15) * 1000)%Z]> ls in
  if truthyText refresh_token
  then <[LS_refresh := default ""%string refresh_token]> ls
  else ls.

(** [resetAll]. *)
Definition resetAll (s : AppState) : AppState :=
  mkAppState (app_token s) (app_playlistInput s) LoadIdle None [] None
    (app_saveState s).

(** [handleSave]; [now] is the clock read by [saveToLocalStorage] and
    [now'] the one read for [lastSavedAt].  [quota] is the message of the
    error that [localStorage.setItem] throws, if it throws. *)
Definition handleSave (quota : option string) (now now' : Z) (s : AppState)
    (ls : Storage) : AppState * Storage :=
  let withSave x :=
    mkAppState (app_token s) (app_playlistInput s) (app_loadState s)
      (app_playlistMeta s) (app_tracks s) (app_tournament s) x in
  match app_tournament s, app_tracks s with
  | Some t, _ :: _ =>
      match quota with
      | Some message => (withSave (SaveFailed message), ls)
      | None =>
          (withSave (SaveSaved now'),
           saveToLocalStorage
             (mkSaved (Some (app_playlistInput s)) (app_playlistMeta s)
                (Some (app_tracks s)) (app_tournament s) (Some LoadReady)
                None None)
             now ls)
      end
  | _, _ => (withSave (SaveFailed "Nothing to save yet."), ls)
  end.

(** [handleResetStorage]. *)
Definition handleResetStorage (s : AppState) (ls : Storage) : AppState * Storage :=
  (resetAll (mkAppState (app_token s) (app_playlistInput s) (app_loadState s)
               (app_playlistMeta s) (app_tracks s) (app_tournament s) SaveIdle),
   clearLocalStorageSave ls).

(** The auto-restore effect that runs once when [App] mounts.
    [saved.savedAt || null] reads the time 0 as missing. *)
Definition restoreSession (s : AppState) (ls : Storage) : AppState :=
  match loadFromLocalStorage ls with
  | None => s
  | Some saved =>
      match sv_tournament saved, sv_tracks saved, sv_playlistMeta saved with
      | Some t, Some trs, Some meta =>
          mkAppState (app_token s)
            (default [] (sv_playlistInput saved))
            LoadReady (Some meta) trs (Some t)
            (SaveRestored (match sv_savedAt saved with
                           | Some 0%Z => None
                           | x => x
                           end))
      | _, _, _ => s
      end
  end.

End Session.

(** ** [handleLoadPlaylist] *)

(** The answers of the Spotify services: the two requests of
    [fetchPlaylistTracks] for a playlist id and a token, and the token
    request of [refreshAccessTokenIfPossible] for a refresh token
    ([Loaded None]: the response is not [ok]). *)
Record TokenResponse := mkTokenResponse {
  access_token : string;
  expires_in : Z;
  refresh_token : option string
}.

Record Spotify := mkSpotify {
  api_playlist : list N -> string -> Load PlaylistMeta;
  api_page : list N -> string -> nat -> Load Page;
  api_token : string -> Load (option TokenResponse)
}.

(** [refreshAccessTokenIfPossible] at time [now]. *)
Definition refreshAccessTokenIfPossible (api : Spotify) (now : Z) (ls : Storage)
  : Load (option string) * Storage :=
  if negb (truthyText (ls !! LS_refresh)) then (Loaded None, ls)
  else
    match api_token api (default ""%string (ls !! LS_refresh)) with
    | Thrown e => (Thrown e, ls)
    | Loaded None => (Loaded None, ls)
    | Loaded (Some data) =>
        (Loaded (Some (access_token data)),
         storeToken (access_token data) (expires_in data) (refresh_token data)
           now ls)
    end.

Definition set_loadState (x : LoadStatus) (s : AppState) : AppState :=
  mkAppState (app_token s) (app_playlistInput s) x (app_playlistMeta s)
    (app_tracks s) (app_tournament s) (app_saveState s).

Definition set_token (tok : string) (s : AppState) : AppState :=
  mkAppState (Some tok) (app_playlistInput s) (app_loadState s)
    (app_playlistMeta s) (app_tracks s) (app_tournament s) (app_saveState s).

(** The entrants a list of loaded tracks is. *)
Definition entrantsOf (trs : list Track) : list Slot :=
  (fun t => Some (entrantOf t)) <$> trs.

(** The steps both attempts share: fetch, refuse an empty list, store the
    playlist, the tracks and the tournament built from them.  The result
    is the state reached and what was thrown on the way, if anything. *)
Definition loadInto (api : Spotify) (playlistId : list N) (token : string)
    (s : AppState) : AppState * option LoadFailure :=
  match fetchPlaylistTracks (api_playlist api playlistId token)
          (api_page api playlistId token) with
  | Thrown e => (s, Some e)
  | Loaded (playlist, []) =>
      (s, Some (ApiError "No playable tracks found (empty or restricted playlist)."))
  | Loaded (playlist, trs) =>
      let s1 := mkAppState (app_token s) (app_playlistInput s) (app_loadState s)
                  (Some playlist) trs (app_tournament s) (app_saveState s) in
      match buildTournament (entrantsOf trs) with
      | Fail _ => (s1, Some LoadTypeError)
      | Ok t =>
          (mkAppState (app_token s1) (app_playlistInput s1) LoadReady
             (app_playlistMeta s1) (app_tracks s1) (Some t) (app_saveState s1),
           None)
      end
  end.

Definition handleLoadPlaylist (api : Spotify) (now : Z) (s : AppState)
    (ls : Storage) : AppState * Storage :=
  match parseSpotifyPlaylistId (app_playlistInput s) with
  | None =>
      (set_loadState
         (LoadFailed (ApiError "That playlist link/ID doesn’t look valid.")) s,
       ls)
  | Some playlistId =>
      let s1 := set_loadState LoadLoading s in
      let '(s2, thrown) :=
        if negb (truthyText (app_token s))
        then (s1, Some (ApiError "Not authenticated"))
        else loadInto api playlistId (default ""%string (app_token s)) s1 in
      match thrown with
      | None => (s2, ls)
      | Some e =>
          match refreshAccessTokenIfPossible api now ls with
          | (Loaded (Some newTok), ls') =>
              if negb (truthyText (Some newTok))
              then (set_loadState (LoadFailed e) s2, ls')
              else
                let '(s3, thrown2) :=
                  loadInto api playlistId newTok (set_token newTok s2) in
                match thrown2 with
                | None => (s3, ls')
                | Some _ => (set_loadState (LoadFailed e) s3, ls')
                end
          | (_, ls') => (set_loadState (LoadFailed e) s2, ls')
          end
      end
  end.

(** ** Decimal texts

    [Number] on the texts that [String] writes for integers: an optional
    minus sign and decimal digits (the empty text reads as 0).  Used as
    the instance of [numberOf] on which the token properties are run. *)
Definition digitOf (c : Ascii.ascii) : option N :=
  let n := Ascii.N_of_ascii c in
  if ((48 <=? n) && (n <=? 57))%N then Some (n - 48)%N else None.

Fixpoint digitsValue (s : string) (acc : N) : option N :=
  match s with
  | EmptyString => Some acc
  | String c s' => d ← digitOf c; digitsValue s' (10 * acc + d)%N
  end.

Definition decimalNumber (s : string) : option Z :=
  match s with
  | String c s' =>
      if Ascii.eqb c (Ascii.ascii_of_N 45)
      then match s' with
           | EmptyString => None
           | _ => (fun n => (- Z.of_N n)%Z) <$> digitsValue s' 0
           end
      else Z.of_N <$> digitsValue s 0
  | EmptyString => Some 0%Z
  end.

(** ** Sample session *)

Definition sampleTracks : list Track :=
  [mkTrack "a" "spotify:track:a" (Some "a"%string) "" None None 7 None;
   mkTrack "c" "spotify:track:c" (Some "c"%string) "" None None 0 None].

Definition sampleBracket : Tournament :=
  mkTournament 0 [RDone []] None None [].

Definition sampleState : AppState :=
  mkAppState (Some "tok"%string) (units "abc") LoadReady (Some sampleMeta)
    sampleTracks (Some sampleBracket) SaveIdle.

Definition sampleSaved : Saved :=
  mkSaved (Some (units "abc")) (Some sampleMeta) (Some sampleTracks)
    (Some sampleBracket) (Some LoadReady) (Some 42%Z) (Some 1%Z).

Definition freshState : AppState :=
  mkAppState None [] LoadIdle None [] None SaveIdle.

Definition sampleApi : Spotify :=
  mkSpotify (fun _ _ => Loaded sampleMeta) (fun _ _ => sampleFetch)
    (fun _ => Loaded None).
(** * Ranking *)

Section SortFacts.
Context {A : Type} (cmp : A -> A -> Z).

Lemma insertBy_perm x l : insertBy cmp x l ≡ₚ x :: l.
Proof.
  induction l as [|y l IH]; simpl; [done|].
  destruct (0 <? cmp x y)%Z; [|done].
  rewrite IH. apply perm_swap.
Qed.

Lemma sortBy_perm l : sortBy cmp l ≡ₚ l.
Proof.
  induction l as [|x l IH]; simpl; [done|].
  by rewrite insertBy_perm, IH.
Qed.

Lemma sortBy_length l : length (sortBy cmp l) = length l.
Proof. apply Permutation_length, sortBy_perm. Qed.

Lemma sortBy_Forall (P : A -> Prop) l : Forall P l -> Forall P (sortBy cmp l).
Proof. intros H. by rewrite sortBy_perm. Qed.

(** Entries that the comparator cannot tell apart from [x] keep their
    order: inserting [x] puts it in front of the first entry it does not
    have to follow. *)
Lemma insertBy_filter (q : A -> bool) x l :
  (forall y, q x = true -> q y = true -> (0 <? cmp x y)%Z = false) ->
  List.filter q (insertBy cmp x l) = List.filter q (x :: l).
Proof.
  intros Hq. induction l as [|y l IH]; [done|].
  simpl insertBy. destruct (0 <? cmp x y)%Z eqn:E; [|done].
  simpl in *. destruct (q y) eqn:Ey.
  - destruct (q x) eqn:Ex.
    + rewrite (Hq y) in E; done.
    + by rewrite IH.
  - exact IH.
Qed.
End SortFacts.

Lemma insertBy_sorted x l :
  StronglySorted popDesc l ->
  StronglySorted popDesc (insertBy comparePopularity x l).
Proof.
  induction 1 as [|y l Hs IH Hy]; simpl.
  - repeat constructor.
  - unfold comparePopularity at 1.
    destruct (0 <? popularityOr0 y - popularityOr0 x)%Z eqn:E.
    + apply Z.ltb_lt in E. constructor; [done|].
      rewrite insertBy_perm. constructor; [unfold popDesc; lia | done].
    + apply Z.ltb_ge in E. constructor; [by constructor|].
      constructor; [unfold popDesc; lia|].
      eapply Forall_impl; [exact Hy|]. unfold popDesc. intros; lia.
Qed.

Lemma sortByPopularityDesc_sorted l :
  StronglySorted popDesc (sortByPopularityDesc l).
Proof.
  induction l as [|x l IH]; simpl; [constructor|].
  by apply insertBy_sorted.
Qed.

Lemma sortByPopularityDesc_perm l : sortByPopularityDesc l ≡ₚ l.
Proof. apply sortBy_perm. Qed.

Lemma sortByPopularityDesc_length l :
  length (sortByPopularityDesc l) = length l.
Proof. apply sortBy_length. Qed.

Lemma sortByPopularityDesc_stable p l :
  List.filter (hasPopularity p) (sortByPopularityDesc l)
  = List.filter (hasPopularity p) l.
Proof.
  induction l as [|x l IH]; [done|].
  simpl sortByPopularityDesc. fold (sortByPopularityDesc l).
  rewrite insertBy_filter.
  - simpl. by rewrite IH.
  - intros y Hx Hy. unfold hasPopularity in *. unfold comparePopularity.
    apply Z.eqb_eq in Hx, Hy. apply Z.ltb_ge. lia.
Qed.

(** Two rankings of the same entries agree: a list ordered by popularity
    whose entries of each popularity come in a given order is determined.
    So the choice of the stable sorting algorithm does not matter. *)
Lemma stable_ranking_unique (l1 l2 : list Slot) :
  StronglySorted popDesc l1 ->
  StronglySorted popDesc l2 ->
  (forall p, List.filter (hasPopularity p) l1 = List.filter (hasPopularity p) l2) ->
  l1 = l2.
Proof.
  intros H1. revert l2.
  induction H1 as [|x l1 Hs1 IH Hx]; intros l2 H2 Hf.
  - destruct l2 as [|y l2]; [done|].
    specialize (Hf (popularityOr0 y)). simpl in Hf.
    unfold hasPopularity at 1 in Hf. by rewrite Z.eqb_refl in Hf.
  - destruct H2 as [|y l2 Hs2 Hy].
    + specialize (Hf (popularityOr0 x)). simpl in Hf.
      unfold hasPopularity at 1 in Hf. by rewrite Z.eqb_refl in Hf.
    + assert (Hxy : popularityOr0 x = popularityOr0 y).
      { assert (In x (y :: l2)) as Hin1.
        { pose proof (Hf (popularityOr0 x)) as E.
          assert (In x (List.filter (hasPopularity (popularityOr0 x)) (x :: l1))) as Hi.
          { apply filter_In. split; [by left|]. apply Z.eqb_refl. }
          rewrite E in Hi. by apply filter_In in Hi as [? _]. }
        assert (In y (x :: l1)) as Hin2.
        { pose proof (Hf (popularityOr0 y)) as E.
          assert (In y (List.filter (hasPopularity (popularityOr0 y)) (y :: l2))) as Hi.
          { apply filter_In. split; [by left|]. apply Z.eqb_refl. }
          rewrite <- E in Hi. by apply filter_In in Hi as [? _]. }
        rewrite Forall_forall in Hx, Hy. unfold popDesc in *.
        destruct Hin1 as [->|Hin1]; [done|].
        destruct Hin2 as [->|Hin2]; [done|].
        apply list_elem_of_In in Hin1, Hin2.
        specialize (Hx _ Hin2). specialize (Hy _ Hin1). lia. }
      assert (x = y) as ->.
      { specialize (Hf (popularityOr0 x)). simpl in Hf.
        assert (hasPopularity (popularityOr0 x) x = true) as Ex
          by apply Z.eqb_refl.
        assert (hasPopularity (popularityOr0 x) y = true) as Ey
          by (rewrite Hxy; apply Z.eqb_refl).
        rewrite Ex, Ey in Hf. congruence. }
      f_equal. apply IH; [done|]. intros p. specialize (Hf p). simpl in Hf.
      destruct (hasPopularity p y); congruence.
Qed.

(** * Round construction *)

Lemma truthy_is_Some (s : Slot) : truthy s = true <-> is_Some s.
Proof. destruct s; simpl; split; intros H; try done; by inversion H. Qed.

Lemma alive_present l : Forall is_Some (alive l).
Proof.
  apply Forall_forall. intros x Hx. apply list_elem_of_In in Hx.
  apply filter_In in Hx as [_ Hx]. by apply truthy_is_Some.
Qed.

Lemma alive_id l : Forall is_Some l -> alive l = l.
Proof.
  induction 1 as [|x l Hx _ IH]; [done|].
  unfold alive in *. simpl. apply truthy_is_Some in Hx. by rewrite Hx, IH.
Qed.

Lemma at_present l i : Forall is_Some l -> i < length l -> is_Some (at_ l i).
Proof.
  intros Hl Hi. unfold at_.
  destruct (l !! i) as [x|] eqn:Hx.
  - simpl. rewrite Forall_forall in Hl. apply Hl.
    by eapply list_elem_of_lookup_2.
  - apply lookup_ge_None in Hx. lia.
Qed.

Lemma at_0_cons x l : at_ (x :: l) 0 = x.
Proof. done. Qed.

Lemma pairings_length pool : length (pairings pool) = (length pool + 1) / 2.
Proof. unfold pairings. by rewrite length_fmap, length_seq. Qed.

Lemma pairings_lookup pool i :
  i < (length pool + 1) / 2 -> pairings pool !! i = Some (pairAt pool i).
Proof.
  intros Hi. unfold pairings. rewrite list_lookup_fmap.
  by rewrite lookup_seq_lt.
Qed.

Lemma pairings_elem pool m :
  m ∈ pairings pool -> exists i, i < (length pool + 1) / 2 /\ m = pairAt pool i.
Proof.
  unfold pairings. intros H. apply list_elem_of_fmap in H as (i & -> & Hi).
  apply elem_of_seq in Hi. exists i. split; [lia | done].
Qed.

Lemma makeRound_done l :
  length (alive l) <= 1 -> makeRound l = RDone (alive l).
Proof.
  intros H. unfold makeRound. fold (alive l).
  by rewrite (proj2 (Nat.leb_le _ _) H).
Qed.

Lemma makeRound_three l :
  length (alive l) = 3 ->
  makeRound l =
    let sorted := sortByPopularityDesc (alive l) in
    RThree sorted (at_ sorted 0)
      (mkMatch (at_ sorted 1) (at_ sorted 2) None None) None.
Proof.
  intros H. unfold makeRound. fold (alive l). by rewrite H.
Qed.

Lemma makeRound_normal l :
  2 <= length (alive l) -> length (alive l) <> 3 ->
  makeRound l =
    let sorted := sortByPopularityDesc (alive l) in
    if length sorted mod 2 =? 1
    then RNormal sorted (at_ sorted 0) (pairings (drop 1 sorted))
    else RNormal sorted None (pairings sorted).
Proof.
  intros H2 H3. unfold makeRound. fold (alive l).
  rewrite (proj2 (Nat.leb_gt _ _)) by lia.
  by rewrite (proj2 (Nat.eqb_neq _ _) H3).
Qed.

Lemma playable_fresh x y i :
  is_Some x -> is_Some y -> playable (mkMatch x y None i).
Proof. intros. repeat split; simpl; auto. Qed.

Lemma pairings_fresh pool :
  Forall is_Some pool ->
  Forall (fun m => playable m /\ m_winner m = None) (pairings pool).
Proof.
  intros Hp. apply Forall_forall. intros m Hm.
  apply pairings_elem in Hm as (i & Hi & ->).
  assert (length pool <> 0).
  { intros E. rewrite E in Hi. simpl in Hi. lia. }
  assert ((length pool + 1) / 2 <= length pool).
  { apply Nat.Div0.div_le_upper_bound. lia. }
  split; [|done]. apply playable_fresh; apply at_present; auto; lia.
Qed.

Lemma filter_decided_fresh ms :
  Forall (fun m => m_winner m = None) ms -> List.filter decided ms = [].
Proof.
  induction 1 as [|m ms Hm _ IH]; [done|].
  simpl. unfold decided. by rewrite Hm.
Qed.

Lemma forallb_decided_fresh ms :
  ms <> [] -> Forall (fun m => m_winner m = None) ms -> forallb decided ms = false.
Proof.
  intros Hne H. destruct H as [|m ms Hm _]; [done|].
  simpl. unfold decided. by rewrite Hm.
Qed.

Lemma nonempty_length {A} (l : list A) : 0 < length l -> l <> [].
Proof. destruct l; simpl; [lia | done]. Qed.

Lemma half_odd n : n mod 2 = 1 -> 2 * ((n - 1 + 1) / 2) + 1 = n.
Proof.
  intros H. replace (n - 1 + 1) with n.
  - pose proof (Nat.div_mod_eq n 2). lia.
  - destruct n; [done | lia].
Qed.

Lemma half_even n : n mod 2 <> 1 -> 2 * ((n + 1) / 2) = n.
Proof.
  intros H.
  pose proof (Nat.div_mod_eq n 2). pose proof (Nat.mod_upper_bound n 2).
  assert (E : n mod 2 = 0) by lia.
  assert (n + 1 = 1 + (n / 2) * 2) as -> by lia.
  rewrite Nat.div_add by done. change (1 / 2) with 0. lia.
Qed.

(** A round built from two or more present entrants is a three or a normal
    round with nothing decided and every entrant placed. *)
Lemma makeRound_fresh ws :
  Forall is_Some ws -> 2 <= length ws ->
  roundOK None (makeRound ws) /\
  entrantCount (makeRound ws) = length ws /\
  decidedCount (makeRound ws) = 0.
Proof.
  intros Hws Hlen.
  pose proof (alive_id ws Hws) as Ha.
  assert (Hs : Forall is_Some (sortByPopularityDesc ws)) by by apply sortBy_Forall.
  pose proof (sortByPopularityDesc_length ws) as Hl.
  destruct (decide (length ws = 3)) as [E3|N3].
  - rewrite makeRound_three by (by rewrite Ha). rewrite Ha. simpl.
    repeat split; try done; try (apply at_present; [done|lia]); auto.
  - rewrite makeRound_normal by (rewrite Ha; done). rewrite Ha. cbv zeta.
    destruct (length (sortByPopularityDesc ws) mod 2 =? 1) eqn:Eodd.
    + apply Nat.eqb_eq in Eodd. rewrite Hl in Eodd.
      set (pool := drop 1 (sortByPopularityDesc ws)).
      assert (Hpool : Forall is_Some pool) by by apply Forall_drop.
      assert (Hpl : length pool = length ws - 1).
      { unfold pool. rewrite length_drop. lia. }
      pose proof (pairings_fresh pool Hpool) as Hfresh.
      pose proof (pairings_length pool) as Hplen.
      rewrite Hpl in Hplen.
      pose proof (half_odd _ Eodd) as Hcnt. rewrite <- Hplen in Hcnt.
      assert (Hne : pairings pool <> []) by (apply nonempty_length; lia).
      assert (Hbye : is_Some (at_ (sortByPopularityDesc ws) 0)).
      { apply at_present; [done|lia]. }
      unfold roundOK, entrantCount, decidedCount. repeat split.
      * done.
      * eapply Forall_impl; [exact Hfresh|]. by intros ? [? _].
      * left. split; [|done]. apply forallb_decided_fresh; [done|].
        eapply Forall_impl; [exact Hfresh|]. by intros ? [_ ?].
      * apply truthy_is_Some in Hbye. rewrite Hbye. lia.
      * rewrite filter_decided_fresh; [done|].
        eapply Forall_impl; [exact Hfresh|]. by intros ? [_ ?].
    + apply Nat.eqb_neq in Eodd. rewrite Hl in Eodd.
      set (pool := sortByPopularityDesc ws).
      pose proof (pairings_fresh pool Hs) as Hfresh.
      pose proof (pairings_length pool) as Hplen.
      fold pool in Hl. rewrite Hl in Hplen.
      pose proof (half_even _ Eodd) as Hcnt. rewrite <- Hplen in Hcnt.
      assert (Hne : pairings pool <> []) by (apply nonempty_length; lia).
      unfold roundOK, entrantCount, decidedCount. repeat split.
      * done.
      * eapply Forall_impl; [exact Hfresh|]. by intros ? [? _].
      * left. split; [|done]. apply forallb_decided_fresh; [done|].
        eapply Forall_impl; [exact Hfresh|]. by intros ? [_ ?].
      * cbn [truthy]. lia.
      * rewrite filter_decided_fresh; [done|].
        eapply Forall_impl; [exact Hfresh|]. by intros ? [_ ?].
Qed.

(** * Cursor derivation *)

Lemma findIndex_Some {A} (p : A -> bool) l i :
  findIndex p l = Some i ->
  exists x, l !! i = Some x /\ p x = true /\
            forall j y, j < i -> l !! j = Some y -> p y = false.
Proof.
  revert i. induction l as [|x l IH]; intros i H; [done|].
  simpl in H. destruct (p x) eqn:Ex.
  - inversion H; subst. exists x. repeat split; [done|]. intros; lia.
  - destruct (findIndex p l) as [k|] eqn:Ek; [|done].
    simpl in H. inversion H; subst.
    destruct (IH k eq_refl) as (y & Hy & Hpy & Hlt).
    exists y. repeat split; [done..|].
    intros [|j] z Hj Hz; simpl in Hz.
    + by inversion Hz; subst.
    + eapply Hlt; [|done]. lia.
Qed.

Lemma findIndex_None {A} (p : A -> bool) l :
  findIndex p l = None <-> Forall (fun x => p x = false) l.
Proof.
  induction l as [|x l IH]; simpl.
  - split; [constructor | done].
  - destruct (p x) eqn:Ex.
    + split; [done|]. intros H. inversion H; congruence.
    + destruct (findIndex p l) eqn:E; simpl.
      * split; [done|]. intros H. inversion H; subst.
        by apply IH in H3.
      * split; [|done]. intros _. constructor; [done|]. by apply IH.
Qed.

Lemma pending_playable m : playable m -> pending m = negb (decided m).
Proof.
  intros (Ha & Hb & _). unfold pending, decided.
  apply truthy_is_Some in Ha, Hb. rewrite Ha, Hb.
  by destruct (truthy (m_winner m)).
Qed.

Lemma findIndex_pending_None ms :
  Forall playable ms ->
  findIndex pending ms = None <-> forallb decided ms = true.
Proof.
  intros Hp. rewrite findIndex_None, forallb_forall, Forall_forall.
  rewrite Forall_forall in Hp.
  split; intros H m Hm.
  - apply list_elem_of_In in Hm. specialize (H m Hm).
    rewrite pending_playable in H by auto. by destruct (decided m).
  - rewrite pending_playable by auto.
    apply list_elem_of_In in Hm. by rewrite (H m Hm).
Qed.

Lemma findIndex_pending_Some ms :
  Forall playable ms -> forallb decided ms = false ->
  exists i m, findIndex pending ms = Some i /\ ms !! i = Some m /\
              playable m /\ m_winner m = None.
Proof.
  intros Hp Hd.
  destruct (findIndex pending ms) as [i|] eqn:E.
  - destruct (findIndex_Some _ _ _ E) as (m & Hm & Hpm & _).
    exists i, m. split; [done|]. split; [done|]. split.
    + rewrite Forall_forall in Hp. apply Hp. by eapply list_elem_of_lookup_2.
    + unfold pending in Hpm. by destruct (m_winner m).
  - apply findIndex_pending_None in E; [congruence | done].
Qed.

(** * Fast-forward *)

Lemma set_cursor_id t : set_cursor (cursor t) t = t.
Proof. by destruct t. Qed.

Lemma alive_idemp l : alive (alive l) = alive l.
Proof. apply alive_id, alive_present. Qed.

Lemma makeRound_alive l : makeRound l = makeRound (alive l).
Proof. unfold makeRound. by rewrite alive_idemp. Qed.

Lemma makeRound_stops l : stops (makeRound l).
Proof.
  rewrite makeRound_alive.
  destruct (decide (length (alive l) <= 1)) as [H|H].
  - rewrite makeRound_done by (by rewrite alive_idemp).
    done.
  - destruct (makeRound_fresh (alive l)) as (Hok & _); [apply alive_present | lia |].
    destruct (makeRound (alive l)) as [| |ents bye ms]; try done.
    simpl in *. destruct Hok as (_ & _ & [[? _]|(_ & Hch & _)]); [done|].
    by inversion Hch.
Qed.

Lemma ffBody_Continue t t' :
  ffBody t = Continue t' ->
  exists ents bye ms,
    rounds t !! roundIndex t = Some (RNormal ents bye ms) /\
    forallb decided ms = true /\
    deriveCursor t = None /\
    length (collectWinners bye ms) <> 1 /\
    t' = set_rounds (rounds t ++ [makeRound (collectWinners bye ms)])
           (set_roundIndex (roundIndex t + 1) (set_cursor None t)).
Proof.
  unfold ffBody. simpl.
  destruct (rounds t !! roundIndex t) as [r|] eqn:Er; [|done].
  destruct (deriveCursor t) as [c|] eqn:Ec.
  { rewrite bool_decide_true by eauto. done. }
  rewrite bool_decide_false by (by intros [? ?]).
  destruct r as [ents|? ? ? ?|ents bye ms].
  - by destruct (length ents =? 1).
  - done.
  - destruct (forallb decided ms) eqn:Ed; simpl; [|done].
    destruct (length (collectWinners bye ms) =? 1) eqn:El; [done|].
    intros H. inversion H. exists ents, bye, ms.
    repeat split; try done. by apply Nat.eqb_neq.
Qed.

Lemma ffLoop_total j t :
  (forall i r, roundIndex t + j <= i -> rounds t !! i = Some r -> stops r) ->
  is_Some (ffLoop (S j) t).
Proof.
  revert t. induction j as [|j IH]; intros t Hst.
  - simpl. destruct (truthy (champion t)); [eauto|].
    destruct (ffBody t) as [t'|t'] eqn:Eb; [eauto|].
    apply ffBody_Continue in Eb as (ents & bye & ms & Hr & Hd & _).
    assert (Hs : stops (RNormal ents bye ms)) by (eapply Hst; [|done]; lia).
    simpl in Hs. congruence.
  - cbn [ffLoop]. destruct (truthy (champion t)); [eauto|].
    destruct (ffBody t) as [t'|t'] eqn:Eb; [eauto|].
    apply ffBody_Continue in Eb as (ents & bye & ms & Hr & Hd & _ & _ & ->).
    apply IH. simpl. intros i r Hi Hlk.
    apply lookup_app_Some in Hlk as [Hlk|[_ Hlk]].
    + eapply Hst; [|done]. lia.
    + apply list_lookup_singleton_Some in Hlk as [_ <-]. apply makeRound_stops.
Qed.

(** The loop of [fastForwardIfNeeded] ends on every tournament: the fuel
    [ffFuel] is never used up. *)
Lemma fastForwardIfNeeded_total t : exists t', fastForwardIfNeeded t = Ok t'.
Proof.
  unfold fastForwardIfNeeded, deepClone, ffFuel.
  destruct (ffLoop_total (length (rounds t) - roundIndex t) t) as [t' Ht'].
  - intros i r Hi Hlk. apply lookup_lt_Some in Hlk. lia.
  - rewrite Ht'. eauto.
Qed.

(** Nothing to fast-forward: the stored cursor is the derived one and the
    loop stops in its first pass. *)
Lemma fastForwardIfNeeded_settled t :
  cursor t = deriveCursor t ->
  (is_Some (champion t) \/ is_Some (deriveCursor t) \/
   rounds t !! roundIndex t = None \/
   (exists ents, rounds t !! roundIndex t = Some (RDone ents) /\ length ents <> 1) \/
   (exists ents top q f, rounds t !! roundIndex t = Some (RThree ents top q f))) ->
  fastForwardIfNeeded t = Ok t.
Proof.
  intros Hc H. unfold fastForwardIfNeeded, deepClone, ffFuel. cbn [ffLoop].
  destruct (truthy (champion t)) eqn:Ech.
  { by rewrite <- Hc, set_cursor_id. }
  assert (ffBody t = Break t) as ->.
  { unfold ffBody. rewrite <- Hc, set_cursor_id.
    destruct H as [H|[H|[H|[H|H]]]].
    - apply truthy_is_Some in H. congruence.
    - destruct (rounds t !! roundIndex t); [|done].
      rewrite Hc. by rewrite bool_decide_true.
    - by rewrite H.
    - destruct H as (ents & -> & Hl). destruct (bool_decide _); [done|].
      by rewrite (proj2 (Nat.eqb_neq _ _) Hl).
    - destruct H as (ents & top & q & f & ->). by destruct (bool_decide _). }
  by rewrite <- Hc, set_cursor_id.
Qed.

(** * The invariant *)

Lemma active_lookup (past : list Round) r : (past ++ [r]) !! length past = Some r.
Proof. by apply list_lookup_middle. Qed.

Lemma active_insert (past : list Round) r r' :
  <[length past := r']> (past ++ [r]) = past ++ [r'].
Proof.
  rewrite insert_app_r_alt by lia. by rewrite Nat.sub_diag.
Qed.

Lemma forallb_decided_filter ms :
  forallb decided ms = true -> List.filter decided ms = ms.
Proof.
  induction ms as [|m ms IH]; [done|]. simpl.
  intros [Hm Hms]%andb_prop. by rewrite Hm, IH.
Qed.

Lemma filter_decided_le ms : length (List.filter decided ms) <= length ms.
Proof.
  induction ms as [|m ms IH]; [done|]. simpl.
  destruct (decided m); simpl; lia.
Qed.

Lemma forallb_decided_lt ms :
  forallb decided ms = false -> length (List.filter decided ms) < length ms.
Proof.
  induction ms as [|m ms IH]; [done|]. simpl.
  destruct (decided m); simpl.
  - intros H. specialize (IH H). lia.
  - intros _. pose proof (filter_decided_le ms). lia.
Qed.

Lemma filter_decided_insert ms i m w :
  ms !! i = Some m -> m_winner m = None ->
  length (List.filter decided (<[i := set_winner (Some w) m]> ms))
  = S (length (List.filter decided ms)).
Proof.
  revert i. induction ms as [|x ms IH]; intros [|i] Hi Hw; try done.
  - simpl in Hi. inversion Hi; subst. simpl.
    unfold decided at 2. by rewrite Hw.
  - simpl in Hi. simpl. destruct (decided x); simpl; by rewrite (IH i).
Qed.

Lemma collectWinners_decided bye ms :
  forallb decided ms = true ->
  length (collectWinners bye ms) = length ms + (if truthy bye then 1 else 0)
  /\ Forall is_Some (collectWinners bye ms).
Proof.
  intros Hd. unfold collectWinners.
  assert (E : List.filter truthy (m_winner <$> ms) = m_winner <$> ms).
  { induction ms as [|m ms IH]; [done|].
    apply andb_prop in Hd as [Hm Hms]. unfold decided in Hm.
    rewrite fmap_cons. cbn [List.filter]. by rewrite Hm, IH. }
  assert (F : Forall is_Some (List.filter truthy (m_winner <$> ms))).
  { apply alive_present. }
  rewrite E in *. destruct (truthy bye) eqn:Eb.
  - rewrite length_app, length_fmap. split; [done|].
    apply Forall_app. split; [done|]. constructor; [|done].
    by apply truthy_is_Some.
  - rewrite length_fmap. split; [lia | done].
Qed.

Lemma playable_set_winner m s w :
  playable m -> pickOf s m = Some w -> playable (set_winner (Some w) m).
Proof.
  intros (Ha & Hb & _) Hp. repeat split; [done..|]. simpl.
  destruct s; simpl in Hp; rewrite Hp; auto.
Qed.

Lemma pickOf_playable m s : playable m -> is_Some (pickOf s m).
Proof. intros (Ha & Hb & _). by destruct s. Qed.

(** In a round of the invariant the champion is set exactly when one
    entrant is left. *)
Lemma roundOK_champion ch r :
  roundOK ch r -> (is_Some ch <-> entrantCount r = S (decidedCount r)).
Proof.
  destruct r as [ents|ents top q f|ents bye ms]; simpl.
  - intros (Hp & Hl & ->). destruct ents as [|x [|y ents]]; simpl in *.
    + split; [by intros [? ?] | done].
    + inversion Hp; subst. unfold at_. simpl. split; [done | auto].
    + lia.
  - intros (_ & _ & Hf). destruct f as [fm|]; simpl.
    + destruct Hf as (Hq & _ & _ & _ & ->).
      apply truthy_is_Some in Hq. rewrite Hq.
      destruct (m_winner fm); simpl; split; try done; try lia; eauto.
    + destruct Hf as (-> & ->). simpl. split; [by intros [? ?] | lia].
  - intros (Hne & _ & [[Hd ->]|(Hd & Hch & Hw)]).
    + pose proof (forallb_decided_lt ms Hd).
      split; [by intros [? ?] | lia].
    + split; [intros _ | done].
      destruct (collectWinners_decided bye ms Hd) as [Hl _].
      rewrite Hw in Hl. simpl in Hl.
      rewrite (forallb_decided_filter ms Hd).
      destruct ms; [done|]. simpl in *. destruct (truthy bye); lia.
Qed.

Lemma roundOK_bound ch r :
  roundOK ch r -> 0 < entrantCount r -> S (decidedCount r) <= entrantCount r.
Proof.
  destruct r as [ents|ents top q f|ents bye ms]; simpl.
  - lia.
  - intros _ _. destruct (truthy (m_winner q)), (truthy (from_option m_winner None f)); lia.
  - intros (Hne & _) _. pose proof (filter_decided_le ms).
    destruct ms; [done|]. simpl in *. lia.
Qed.

Lemma decidedCount_le r : decidedCount r <= entrantCount r.
Proof.
  destruct r as [ents|ents top q f|ents bye ms]; simpl.
  - lia.
  - destruct (truthy (m_winner q)), (truthy (from_option m_winner None f)); lia.
  - pose proof (filter_decided_le ms). lia.
Qed.

Lemma Inv_active n t :
  Inv n t -> exists r, rounds t !! roundIndex t = Some r /\ roundOK (champion t) r.
Proof.
  intros (_ & past & r & Hr & Hi & Hok & _). exists r.
  rewrite Hr, Hi. split; [apply active_lookup | done].
Qed.

(** With a champion the derived cursor is gone; without one, and with
    somebody in the round, it is there. *)
Lemma roundOK_cursor t r :
  rounds t !! roundIndex t = Some r -> roundOK (champion t) r ->
  (is_Some (champion t) -> deriveCursor t = None) /\
  (champion t = None -> 0 < entrantCount r -> is_Some (deriveCursor t)).
Proof.
  intros Hr Hok. unfold deriveCursor. rewrite Hr.
  destruct r as [ents|ents top q f|ents bye ms]; simpl in *.
  - split; [done|]. intros Hch Hpos. destruct Hok as (Hp & Hl & Hat).
    destruct ents as [|x [|y ents]]; simpl in *; try lia.
    inversion Hp; subst. unfold at_ in Hat. simpl in Hat.
    rewrite Hch in Hat. rewrite <- Hat in *. by destruct H1.
  - destruct Hok as (_ & _ & Hf). destruct f as [fm|].
    + destruct Hf as (Hq & _ & _ & _ & Hch).
      apply truthy_is_Some in Hq. rewrite Hq. simpl. rewrite <- Hch.
      split.
      * intros H. apply truthy_is_Some in H. by rewrite H.
      * intros ->. simpl. eauto.
    + destruct Hf as (-> & ->). simpl. split; [by intros [? ?] | eauto].
  - destruct Hok as (_ & Hpl & [[Hd Hch]|(Hd & Hch & _)]).
    + destruct (findIndex_pending_Some ms Hpl Hd) as (i & m & -> & _).
      split; [|eauto]. rewrite Hch. by intros [? ?].
    + apply findIndex_pending_None in Hd; [|done]. rewrite Hd.
      split; [done|]. intros E. rewrite E in Hch. by destruct Hch.
Qed.

Lemma Inv_fastForward n t : Inv n t -> fastForwardIfNeeded t = Ok t.
Proof.
  intros HI. pose proof HI as (Hc & past & r & Hr & Hi & Hok & Hcnt & Hpos).
  assert (Hlk : rounds t !! roundIndex t = Some r).
  { rewrite Hr, Hi. apply active_lookup. }
  destruct (roundOK_cursor t r Hlk Hok) as [_ H2].
  apply fastForwardIfNeeded_settled; [done|].
  destruct (champion t) as [c|] eqn:Ech; [left; eauto|].
  destruct (decide (0 < entrantCount r)) as [Hp|Hp].
  - right; left. by apply H2.
  - right; right; right; left.
    destruct r as [ents| |]; simpl in Hp.
    + exists ents. split; [done | lia].
    + lia.
    + simpl in Hok. destruct Hok as (Hne & _). destruct matches; [done|].
      simpl in Hp. lia.
Qed.

Lemma Inv_intro n idx rs cur ch hist past r :
  rs = past ++ [r] -> idx = length past ->
  roundOK ch r ->
  length hist + entrantCount r = n + decidedCount r ->
  (0 < n -> 0 < entrantCount r) ->
  cur = deriveCursor (mkTournament idx rs cur ch hist) ->
  Inv n (mkTournament idx rs cur ch hist).
Proof. intros. split; [done|]. exists past, r. simpl. auto. Qed.

Lemma applyPick_no_cursor t s : cursor t = None -> applyPick t s = Ok t.
Proof. intros Hc. unfold applyPick, deepClone. by rewrite Hc. Qed.

(** A pick on a tournament of the invariant never fails.  It changes
    nothing when no cursor is stored, and otherwise it is recorded in the
    history: the slot it names is never empty. *)
Lemma Inv_applyPick n t s :
  Inv n t ->
  exists t', applyPick t s = Ok t' /\ Inv n t' /\
    ((cursor t = None /\ t' = t) \/
     (is_Some (cursor t) /\ champion t = None /\
      length (history t') = S (length (history t)))).
Proof.
  intros HI. pose proof HI as (Hc & past & r & Hr & Hi & Hok & Hcnt & Hpos).
  destruct t as [idx rs cur ch hist]. simpl in *. subst rs idx.
  unfold deriveCursor in Hc. simpl in Hc. rewrite active_lookup in Hc.
  unfold applyPick, deepClone. simpl. rewrite active_lookup.
  destruct r as [ents|ents top q f|ents bye ms]; simpl in Hok, Hc.
  - (* done round *)
    subst cur. exists (mkTournament (length past) (past ++ [RDone ents]) None ch hist).
    split; [done|]. split; [done|]. by left.
  - (* three round *)
    destruct Hok as (Htop & Hq & Hf). destruct f as [fm|].
    + destruct Hf as (Hqw & Ha & Hb & Hw & Hch).
      pose proof Hqw as Hqt. apply truthy_is_Some in Hqt.
      rewrite Hqt in Hc. simpl in Hc.
      destruct (m_winner fm) as [wf|] eqn:Ewf; simpl in Hc; subst cur.
      * eexists. split; [done|]. split; [done|]. by left.
      * subst ch.
        assert (Hpf : is_Some (pickOf s fm)).
        { destruct s; simpl; [by rewrite Ha | by rewrite Hb]. }
        destruct Hpf as [w Hw']. rewrite Hw'.
        eexists. split; [done|]. rewrite active_insert. simpl. split.
        -- eapply Inv_intro; [done|done| | | |].
           ++ simpl. do 5 (split; [done|]). split; [|done].
              destruct s; simpl in Hw'; rewrite <- Hw'; auto.
           ++ simpl in *. rewrite Hqt, Ewf in Hcnt. simpl in Hcnt.
              rewrite Hqt. rewrite length_app. simpl. lia.
           ++ simpl. lia.
           ++ unfold deriveCursor. simpl. rewrite active_lookup.
              by rewrite Hqt.
        -- right. repeat split; [eauto|]. rewrite length_app. simpl. lia.
    + destruct Hf as (Hqw & Hch). rewrite Hqw in Hc. simpl in Hc. subst cur ch.
      destruct (pickOf_playable q s Hq) as [w Hw]. rewrite Hw.
      eexists. split; [done|]. rewrite active_insert. simpl. split.
      * eapply Inv_intro; [done|done| | | |].
        -- simpl. split; [done|]. split; [by eapply playable_set_winner|].
           split; [eauto|]. do 2 (split; [done|]). split; [|done]. by left.
        -- simpl in *. rewrite Hqw in Hcnt. simpl in Hcnt.
           rewrite length_app. simpl. lia.
        -- simpl. lia.
        -- done.
      * right. repeat split; [eauto|]. rewrite length_app. simpl. lia.
  - (* normal round *)
    destruct Hok as (Hne & Hpl & [[Hd Hch]|(Hd & Hch & Hw)]).
    + subst ch.
      destruct (findIndex_pending_Some ms Hpl Hd) as (i & m & Hfi & Hm & Hpm & Hwm).
      rewrite Hfi in Hc. subst cur. rewrite Hm.
      destruct (pickOf_playable m s Hpm) as [w Hw]. rewrite Hw.
      set (ms' := <[i := set_winner (Some w) m]> ms).
      assert (Hpl' : Forall playable ms').
      { apply Forall_insert; [done|]. by eapply playable_set_winner. }
      assert (Hne' : ms' <> []).
      { apply nonempty_length. unfold ms'. rewrite length_insert.
        destruct ms; [done | simpl; lia]. }
      assert (Hlen' : length ms' = length ms) by apply length_insert.
      assert (Hlpos : 0 < length ms').
      { destruct ms'; [done | simpl; lia]. }
      pose proof (filter_decided_insert ms i m w Hm Hwm) as Hdc. fold ms' in Hdc.
      rewrite active_insert. simpl in Hcnt.
      destruct (forallb decided ms') eqn:Hd'; simpl.
      * destruct (collectWinners_decided bye ms' Hd') as [Hwl Hwp].
        pose proof (forallb_decided_filter ms' Hd') as Hfl.
        rewrite Hfl in Hdc.
        destruct (length (collectWinners bye ms') =? 1) eqn:E1.
        -- apply Nat.eqb_eq in E1.
           eexists. split; [done|]. split.
           ++ destruct (collectWinners bye ms') as [|c [|]] eqn:Ecw; try done.
              inversion Hwp; subst.
              eapply Inv_intro; [done|done| | | |].
              ** simpl. do 2 (split; [done|]). right.
                 rewrite Ecw. by rewrite at_0_cons.
              ** simpl. rewrite length_app, Hfl. simpl. lia.
              ** simpl. lia.
              ** unfold deriveCursor. simpl. rewrite active_lookup.
                 by rewrite (proj2 (findIndex_pending_None ms' Hpl') Hd').
           ++ right. repeat split; [eauto|]. simpl. rewrite length_app. simpl. lia.
        -- apply Nat.eqb_neq in E1.
           assert (Hw2 : 2 <= length (collectWinners bye ms')).
           { rewrite Hwl in *. destruct ms'; [done|]. simpl in *. lia. }
           destruct (makeRound_fresh _ Hwp Hw2) as (Hfok & Hfe & Hfd).
           unfold set_cursor, set_rounds, set_roundIndex, push_history.
           cbn [roundIndex rounds cursor champion history].
           match goal with
           | |- exists t', fastForwardIfNeeded ?X = Ok t' /\ _ =>
               assert (HX : Inv n X)
           end.
           { eapply (Inv_intro _ _ _ _ _ _
                       (past ++ [RNormal ents bye ms'])
                       (makeRound (collectWinners bye ms'))).
             - done.
             - rewrite length_app. simpl. done.
             - done.
             - rewrite Hfe, Hfd, Hwl. rewrite length_app. simpl. lia.
             - rewrite Hfe. lia.
             - done. }
           eexists. split; [by eapply Inv_fastForward|]. split; [done|].
           right. repeat split; [eauto|]. simpl. rewrite length_app. simpl. lia.
      * eexists. split; [done|]. split.
        -- eapply Inv_intro; [done|done| | | |].
           ++ simpl. do 2 (split; [done|]). by left.
           ++ simpl. rewrite length_app. simpl. lia.
           ++ intros _. cbn [entrantCount]. lia.
           ++ done.
        -- right. repeat split; [eauto|]. simpl. rewrite length_app. simpl. lia.
    + apply findIndex_pending_None in Hd; [|done]. rewrite Hd in Hc. subst cur.
      eexists. split; [done|]. split; [done|]. by left.
Qed.

Lemma buildTournament_Inv tracks :
  exists t0, buildTournament tracks = Ok t0 /\
    Inv (length (alive tracks)) t0 /\
    history t0 = [] /\ rounds t0 = [makeRound tracks] /\ roundIndex t0 = 0.
Proof.
  destruct (decide (length (alive tracks) <= 1)) as [Hle|Hgt].
  - unfold buildTournament. rewrite makeRound_done by done.
    pose proof (alive_present tracks) as Hp.
    destruct (alive tracks) as [|x [|y l]] eqn:Ea; simpl in Hle; try lia.
    + eexists. split; [reflexivity|]. split; [|done].
      eapply (Inv_intro _ _ _ _ _ _ [] (RDone [])); try done.
    + inversion Hp as [|? ? [e ->] _]; subst.
      eexists. split; [reflexivity|]. split; [|done].
      eapply (Inv_intro _ _ _ _ _ _ [] (RDone [Some e])); try done.
  - destruct (makeRound_fresh (alive tracks)) as (Hok & He & Hd);
      [apply alive_present | lia |].
    rewrite <- makeRound_alive in Hok, He, Hd.
    unfold buildTournament.
    match goal with
    | |- exists t0, fastForwardIfNeeded ?X = Ok t0 /\ _ => assert (HX : Inv (length (alive tracks)) X)
    end.
    { unfold set_cursor. cbn [roundIndex rounds cursor champion history].
      eapply (Inv_intro _ _ _ _ _ _ [] (makeRound tracks)); try done.
      - simpl. lia.
      - lia. }
    eexists. split; [by eapply Inv_fastForward|]. by split.
Qed.

Lemma Reachable_Inv t : Reachable t -> exists n, Inv n t.
Proof.
  induction 1 as [tracks t Hb|t o t' _ [n IH] Hs].
  - destruct (buildTournament_Inv tracks) as (t0 & Hb0 & HI & _).
    exists (length (alive tracks)). congruence.
  - exists n. destruct o as [s|]; simpl in Hs.
    + destruct (Inv_applyPick n t s IH) as (t'' & Ha & HI & _). congruence.
    + rewrite (Inv_fastForward n t IH) in Hs. congruence.
Qed.

(** The history counts the entrants removed so far: it never exceeds
    [n - 1], and reaches it exactly when the champion is set. *)
Lemma Inv_history n t :
  Inv n t ->
  length (history t) <= n - 1 /\
  (is_Some (champion t) <-> length (history t) + 1 = n).
Proof.
  intros (_ & past & r & _ & _ & Hok & Hcnt & Hpos).
  pose proof (roundOK_champion _ _ Hok) as Hch.
  pose proof (roundOK_bound _ _ Hok) as Hb.
  destruct (decide (0 < entrantCount r)) as [Hp|Hp].
  - specialize (Hb Hp). split; [lia|]. rewrite Hch. lia.
  - assert (n = 0) as -> by lia.
    pose proof (decidedCount_le r).
    assert (entrantCount r = 0) as E by lia. split; [lia|]. rewrite Hch. lia.
Qed.

Lemma Inv_cursor n t :
  Inv n t ->
  (is_Some (champion t) -> cursor t = None) /\
  (champion t = None -> 0 < n -> is_Some (cursor t)).
Proof.
  intros (Hc & past & r & Hr & Hi & Hok & Hcnt & Hpos).
  assert (Hlk : rounds t !! roundIndex t = Some r).
  { rewrite Hr, Hi. apply active_lookup. }
  destruct (roundOK_cursor t r Hlk Hok) as [H1 H2]. rewrite Hc.
  split; [done|]. intros ? ?. apply H2; auto.
Qed.

Lemma play_cons s picks t :
  play (s :: picks) t = bindR (applyPick t s) (play picks).
Proof. done. Qed.

Lemma play_Inv n picks t :
  Inv n t ->
  exists t', play picks t = Ok t' /\ Inv n t' /\
    length (history t') = Nat.min (length (history t) + length picks) (n - 1).
Proof.
  revert t. induction picks as [|s picks IH]; intros t HI.
  - exists t. split; [done|]. split; [done|].
    destruct (Inv_history n t HI) as [Hh _]. simpl. lia.
  - rewrite play_cons.
    destruct (Inv_applyPick n t s HI) as (t1 & Ha & HI1 & Hcase).
    rewrite Ha. simpl.
    destruct (IH t1 HI1) as (t' & Hp & HI' & Hlen).
    exists t'. split; [done|]. split; [done|]. rewrite Hlen.
    destruct (Inv_history n t HI) as [Hh Hch].
    destruct (Inv_cursor n t HI) as [_ Hcur].
    destruct Hcase as [[Hnone ->]|(Hsome & Hno & Hl)].
    + assert (length (history t) = n - 1).
      { destruct (champion t) as [c|] eqn:Ec.
        - assert (length (history t) + 1 = n) by (apply Hch; eauto). lia.
        - destruct (decide (0 < n)) as [Hn|Hn]; [|lia].
          destruct (Hcur eq_refl Hn) as [c Hc]. congruence. }
      cbn [length]. lia.
    + rewrite Hl. cbn [length]. lia.
Qed.

(** * Provenance of the slots *)

Section Provenance.
Context (P : Slot -> Prop) (P_None : P None).

Lemma at_of l i : Forall P l -> P (at_ l i).
Proof.
  intros Hl. unfold at_. destruct (l !! i) as [x|] eqn:E; [|exact P_None].
  simpl. by eapply Forall_lookup_1 in E.
Qed.

Lemma alive_of l : Forall P l -> Forall P (alive l).
Proof.
  unfold alive. induction 1 as [|x l Hx _ IH]; simpl; [constructor|].
  destruct (truthy x); [by constructor | done].
Qed.

Lemma pairings_of pool : Forall P pool -> Forall (matchOf P) (pairings pool).
Proof.
  intros Hp. unfold pairings. apply Forall_fmap, Forall_forall. intros i _.
  repeat split; simpl; (apply at_of, Hp || exact P_None).
Qed.

Lemma makeRound_of l : Forall P l -> roundOf P (makeRound l).
Proof.
  intros Hl. apply alive_of in Hl. unfold makeRound.
  assert (Hs : Forall P (sortByPopularityDesc (alive l)))
    by by apply sortBy_Forall.
  destruct (length (alive l) <=? 1); [done|].
  destruct (length (alive l) =? 3).
  { cbn [roundOf from_option]. repeat split; simpl; (by apply at_of) || done. }
  destruct (length (sortByPopularityDesc (alive l)) mod 2 =? 1); cbn [roundOf].
  - split; [by apply at_of|]. apply pairings_of. by apply Forall_drop.
  - split; [done|]. by apply pairings_of.
Qed.

Lemma collectWinners_of bye ms :
  P bye -> Forall (matchOf P) ms -> Forall P (collectWinners bye ms).
Proof.
  intros Hb Hms. unfold collectWinners.
  assert (Hw : Forall P (List.filter truthy (m_winner <$> ms))).
  { induction Hms as [|m ms (_ & _ & Hm) _ IH]; simpl; [constructor|].
    destruct (truthy (m_winner m)); [by constructor | done]. }
  destruct (truthy bye); [|done]. apply Forall_app. split; [done|].
  by constructor.
Qed.

Lemma tournamentOf_cursor c t : tournamentOf P t -> tournamentOf P (set_cursor c t).
Proof. done. Qed.

Lemma tournamentOf_active t r :
  tournamentOf P t -> rounds t !! roundIndex t = Some r -> roundOf P r.
Proof. intros [_ Hr] Hlk. by eapply Forall_lookup_1 in Hlk. Qed.

Lemma ffBody_of t :
  tournamentOf P t ->
  match ffBody t with
  | Break t' | Continue t' => tournamentOf P t'
  end.
Proof.
  intros Ht. unfold ffBody.
  set (t1 := set_cursor (deriveCursor t) t).
  assert (H1 : tournamentOf P t1) by done.
  destruct (rounds t1 !! roundIndex t1) as [r|] eqn:Hlk; [|done].
  destruct (bool_decide _); [done|].
  pose proof (tournamentOf_active _ _ H1 Hlk) as Hr.
  destruct H1 as [Hc Hrs].
  destruct r as [ents|ents top q f|ents bye ms]; [|done|].
  - destruct (length ents =? 1); [|done]. split; [|done]. simpl. by apply at_of.
  - destruct Hr as [Hb Hms].
    destruct (negb _); [done|].
    pose proof (collectWinners_of _ _ Hb Hms) as Hw.
    destruct (length _ =? 1).
    + split; [|done]. simpl. by apply at_of.
    + split; [done|]. simpl. apply Forall_app. split; [done|].
      constructor; [|constructor]. by apply makeRound_of.
Qed.

Lemma ffLoop_of fuel t t' :
  tournamentOf P t -> ffLoop fuel t = Some t' -> tournamentOf P t'.
Proof.
  revert t. induction fuel as [|fuel IH]; intros t Ht; simpl; [done|].
  destruct (truthy (champion t)); [by intros [= <-]|].
  pose proof (ffBody_of t Ht) as Hb.
  destruct (ffBody t) as [t1|t1]; [by intros [= <-]|]. by apply IH.
Qed.

Lemma fastForwardIfNeeded_of t t' :
  tournamentOf P t -> fastForwardIfNeeded t = Ok t' -> tournamentOf P t'.
Proof.
  intros Ht. unfold fastForwardIfNeeded, deepClone. cbv zeta.
  destruct (ffLoop _ t) as [t1|] eqn:E; [|done]. intros [= <-].
  apply tournamentOf_cursor. by eapply ffLoop_of.
Qed.

Lemma buildTournament_of tracks t :
  Forall P tracks -> buildTournament tracks = Ok t -> tournamentOf P t.
Proof.
  intros Hl. unfold buildTournament. cbv zeta.
  apply fastForwardIfNeeded_of, tournamentOf_cursor.
  split; [exact P_None|]. constructor; [|constructor]. by apply makeRound_of.
Qed.

Lemma pickOf_of s m : matchOf P m -> P (pickOf s m).
Proof. intros (Ha & Hb & _). by destruct s. Qed.

Lemma applyPick_of t s t' :
  tournamentOf P t -> applyPick t s = Ok t' -> tournamentOf P t'.
Proof.
  intros Ht. unfold applyPick, deepClone. cbv zeta.
  destruct (cursor t) as [cur|]; [|by intros [= <-]].
  destruct (rounds t !! roundIndex t) as [r|] eqn:Hlk; [|by intros [= <-]].
  pose proof (tournamentOf_active _ _ Ht Hlk) as Hr.
  destruct Ht as [Hc Hrs].
  destruct cur as [? [|]|? idx].
  - destruct r as [|ents top q f|]; [done| |done].
    destruct Hr as (Htop & Hq & _).
    pose proof (pickOf_of s q Hq) as Hw.
    destruct (pickOf s q) as [w|]; [|by intros [= <-]]. intros [= <-].
    apply tournamentOf_cursor. split; [done|]. simpl.
    apply Forall_insert; [done|]. destruct Hq as (? & ? & ?).
    repeat split; simpl; done || exact P_None.
  - destruct r as [|ents top q [fm|]|]; [done| |done|done].
    destruct Hr as (Htop & Hq & Hf). simpl in Hf.
    pose proof (pickOf_of s fm Hf) as Hw.
    destruct (pickOf s fm) as [w|]; [|by intros [= <-]]. intros [= <-].
    split; [done|]. simpl. apply Forall_insert; [done|].
    destruct Hf as (? & ? & ?). destruct Hq as (? & ? & ?).
    repeat split; done.
  - destruct r as [| |ents bye ms]; [done|done|].
    destruct Hr as [Hb Hms].
    destruct (ms !! idx) as [m|] eqn:Hm; [|done].
    pose proof (Forall_lookup_1 _ _ _ _ Hms Hm) as Hmo.
    pose proof (pickOf_of s m Hmo) as Hw.
    destruct (pickOf s m) as [w|]; [|by intros [= <-]].
    assert (Hms' : Forall (matchOf P) (<[idx := set_winner (Some w) m]> ms)).
    { apply Forall_insert; [done|]. destruct Hmo as (? & ? & ?).
      repeat split; done. }
    assert (Hrs' : Forall (roundOf P)
              (<[roundIndex t :=
                   RNormal ents bye (<[idx := set_winner (Some w) m]> ms)]>
                 (rounds t))).
    { apply Forall_insert; [done|]. by split. }
    destruct (negb _).
    { intros [= <-]. apply tournamentOf_cursor. by split. }
    pose proof (collectWinners_of _ _ Hb Hms') as Hcw.
    destruct (length _ =? 1).
    { intros [= <-]. split; [|done]. simpl. by apply at_of. }
    apply fastForwardIfNeeded_of, tournamentOf_cursor.
    split; [done|]. simpl. apply Forall_app. split; [done|].
    constructor; [|constructor]. by apply makeRound_of.
Qed.

Lemma play_of picks t t' :
  tournamentOf P t -> play picks t = Ok t' -> tournamentOf P t'.
Proof.
  revert t. induction picks as [|s picks IH]; intros t Ht.
  - by intros [= <-].
  - rewrite play_cons. destruct (applyPick t s) as [t1|] eqn:E; [|done].
    simpl. apply IH. by eapply applyPick_of.
Qed.

End Provenance.

Lemma oneOf_entrants (entrants : list Entrant) :
  Forall (oneOf entrants) (Some <$> entrants).
Proof.
  apply Forall_fmap, Forall_forall. intros e He e' [= <-]. exact He.
Qed.

(** * Round construction: the normal round *)

Lemma sorted_head_max (x : Slot) (l : list Slot) :
  StronglySorted popDesc (x :: l) ->
  Forall (fun y => (popularityOr0 y <= popularityOr0 x)%Z) (x :: l).
Proof.
  intros H. inversion H; subst. constructor; [lia | done].
Qed.

(** C2. For a survivor list with at least two present entrants and not
    exactly three, [makeRound] returns a normal round whose [entrants] are
    the present survivors ranked by popularity, highest first (a stable
    reordering of them).  With an odd count the first of the ranking is the
    bye, no survivor is more popular, and the pool is the rest; otherwise
    there is no bye and the pool is the whole ranking.  The round has
    [ceil (length pool / 2)] matches, match [i] pairs [pool[i]] with
    [pool[length pool - 1 - i]], and no match has a winner.  In particular
    five entrants of popularity 90, 80, 70, 60, 50 give the bye to the 90
    and the matches 80 v 50 and 70 v 60. *)
Theorem makeRound_normal_round (survivors : list Slot) :
  2 <= length (alive survivors) ->
  length (alive survivors) <> 3 ->
  exists sorted bye pool ms,
    makeRound survivors = RNormal sorted bye ms /\
    sorted = sortByPopularityDesc (alive survivors) /\
    sorted ≡ₚ alive survivors /\
    StronglySorted popDesc sorted /\
    (forall p, List.filter (hasPopularity p) sorted
               = List.filter (hasPopularity p) (alive survivors)) /\
    (if Nat.odd (length (alive survivors))
     then is_Some bye /\ sorted = bye :: pool /\
          Forall (fun x => (popularityOr0 x <= popularityOr0 bye)%Z) (alive survivors)
     else bye = None /\ pool = sorted) /\
    length ms = (length pool + 1) / 2 /\
    2 * length ms = length pool /\
    (forall i, i < length pool / 2 ->
       exists m, ms !! i = Some m /\
         m_a m = at_ pool i /\ m_b m = at_ pool (length pool - 1 - i) /\
         is_Some (m_a m) /\ is_Some (m_b m)) /\
    Forall (fun m => m_winner m = None) ms /\
    (forall e90 e80 e70 e60 e50,
       survivors = Some <$> [e90; e80; e70; e60; e50] ->
       popularity e90 = Some 90%Z -> popularity e80 = Some 80%Z ->
       popularity e70 = Some 70%Z -> popularity e60 = Some 60%Z ->
       popularity e50 = Some 50%Z ->
       bye = Some e90 /\
       (fun m => (m_a m, m_b m)) <$> ms
       = [(Some e80, Some e50); (Some e70, Some e60)]).
Proof.
  intros H2 H3.
  set (sorted := sortByPopularityDesc (alive survivors)).
  pose proof (sortByPopularityDesc_perm (alive survivors)) as Hperm.
  pose proof (sortByPopularityDesc_sorted (alive survivors)) as Hsorted.
  pose proof (sortByPopularityDesc_length (alive survivors)) as Hlen.
  assert (Hpres : Forall is_Some sorted).
  { apply sortBy_Forall, alive_present. }
  fold sorted in Hperm, Hsorted, Hlen.
  pose proof (makeRound_normal survivors H2 H3) as Hmk. cbv zeta in Hmk.
  fold sorted in Hmk.
  assert (Hfive : forall e90 e80 e70 e60 e50,
    survivors = Some <$> [e90; e80; e70; e60; e50] ->
    popularity e90 = Some 90%Z -> popularity e80 = Some 80%Z ->
    popularity e70 = Some 70%Z -> popularity e60 = Some 60%Z ->
    popularity e50 = Some 50%Z ->
    makeRound survivors =
      RNormal (Some <$> [e90; e80; e70; e60; e50]) (Some e90)
        (pairings (Some <$> [e80; e70; e60; e50]))).
  { intros e90 e80 e70 e60 e50 -> P90 P80 P70 P60 P50.
    unfold makeRound, sortByPopularityDesc, alive. simpl.
    unfold comparePopularity, popularityOr0. simpl.
    rewrite ?P90, ?P80, ?P70, ?P60, ?P50. simpl.
    rewrite ?P90, ?P80, ?P70, ?P60, ?P50. simpl.
    rewrite ?P90, ?P80, ?P70, ?P60, ?P50. simpl.
    rewrite ?P90, ?P80, ?P70, ?P60, ?P50. simpl.
    reflexivity. }
  assert (Hodd : Nat.odd (length (alive survivors)) = (length sorted mod 2 =? 1)).
  { rewrite Hlen. rewrite <- Nat.bit0_mod, Nat.bit0_odd.
    by destruct (Nat.odd _). }
  rewrite Hodd. destruct (length sorted mod 2 =? 1) eqn:Eodd.
  - (* odd: the top of the ranking sits out *)
    apply Nat.eqb_eq in Eodd.
    set (pool := drop 1 sorted) in *.
    set (b := at_ sorted 0) in *.
    assert (Hcons : sorted = b :: pool).
    { unfold b, pool. destruct sorted; [simpl in Hlen; lia | done]. }
    assert (Hpool : Forall is_Some pool) by by apply Forall_drop.
    assert (Hpl : length pool = length sorted - 1).
    { unfold pool. by rewrite length_drop. }
    pose proof (half_odd _ Eodd) as Hcnt. rewrite <- Hpl in Hcnt.
    assert (Hcnt' : 2 * ((length pool + 1) / 2) = length pool) by lia.
    exists sorted, b, pool, (pairings pool).
    split; [done|]. split; [done|]. split; [done|]. split; [done|].
    split; [intros p; apply sortByPopularityDesc_stable|].
    split.
    { split; [apply at_present; [done|lia]|]. split; [done|].
      rewrite <- Hperm. rewrite Hcons. apply sorted_head_max.
      by rewrite <- Hcons. }
    split; [apply pairings_length|].
    split; [by rewrite pairings_length|].
    split.
    { intros i Hi.
      assert (i < (length pool + 1) / 2).
      { pose proof (Nat.div_mod_eq (length pool) 2). lia. }
      assert (length pool / 2 <= length pool).
      { apply Nat.Div0.div_le_upper_bound. lia. }
      exists (pairAt pool i). split; [by apply pairings_lookup|].
      split; [done|]. split; [done|]. simpl.
      split; apply at_present; auto; lia. }
    split.
    { eapply Forall_impl; [apply pairings_fresh; done|]. by intros ? [_ ?]. }
    intros e90 e80 e70 e60 e50 Hs P90 P80 P70 P60 P50.
    rewrite (Hfive _ _ _ _ _ Hs P90 P80 P70 P60 P50) in Hmk.
    clearbody b pool. injection Hmk as _ <- <-. done.
  - (* even: everybody is paired *)
    apply Nat.eqb_neq in Eodd.
    pose proof (half_even _ Eodd) as Hcnt.
    exists sorted, None, sorted, (pairings sorted).
    split; [done|]. split; [done|]. split; [done|]. split; [done|].
    split; [intros p; apply sortByPopularityDesc_stable|].
    split; [done|].
    split; [apply pairings_length|].
    split; [by rewrite pairings_length|].
    split.
    { intros i Hi.
      assert (i < (length sorted + 1) / 2).
      { pose proof (Nat.div_mod_eq (length sorted) 2). lia. }
      assert (length sorted / 2 <= length sorted).
      { apply Nat.Div0.div_le_upper_bound. lia. }
      exists (pairAt sorted i). split; [by apply pairings_lookup|].
      split; [done|]. split; [done|]. simpl.
      split; apply at_present; auto; lia. }
    split.
    { eapply Forall_impl; [apply pairings_fresh; done|]. by intros ? [_ ?]. }
    intros e90 e80 e70 e60 e50 Hs P90 P80 P70 P60 P50.
    rewrite (Hfive _ _ _ _ _ Hs P90 P80 P70 P60 P50) in Hmk. done.
Qed.

Lemma makeRound_normal_round_witness :
  2 <= length (alive five) /\ length (alive five) <> 3 /\
  exists sorted bye pool ms,
    makeRound five = RNormal sorted bye ms /\
    bye = Some (track "t90" 90) /\
    pool = Some <$> [track "t80" 80; track "t70" 70; track "t60" 60; track "t50" 50] /\
    (fun m => (m_a m, m_b m)) <$> ms
    = [(Some (track "t80" 80), Some (track "t50" 50));
       (Some (track "t70" 70), Some (track "t60" 60))].
Proof.
  assert (H2 : 2 <= length (alive five)) by (vm_compute; lia).
  assert (H3 : length (alive five) <> 3) by (vm_compute; lia).
  split; [exact H2|]. split; [exact H3|].
  destruct (makeRound_normal_round five H2 H3)
    as (sorted & bye & pool & ms & Hmk & Hs & _ & _ & _ & Hodd & _ & _ & _ & _ & Hfive).
  destruct (Hfive _ _ _ _ _ eq_refl eq_refl eq_refl eq_refl eq_refl eq_refl)
    as [Hb Hms].
  exists sorted, bye, pool, ms.
  split; [exact Hmk|]. split; [exact Hb|]. split; [|exact Hms].
  change (Nat.odd (length (alive five))) with true in Hodd.
  destruct Hodd as (_ & Hc & _). rewrite Hs, Hb in Hc.
  vm_compute in Hc. by injection Hc as <-.
Defined.

Example makeRound_four :
  makeRound (Some <$> [track "a" 90; track "b" 70; track "c" 50; track "d" 30])
  = RNormal (Some <$> [track "a" 90; track "b" 70; track "c" 50; track "d" 30]) None
      [mkMatch (Some (track "a" 90)) (Some (track "d" 30)) None (Some "m-a-d-0"%string);
       mkMatch (Some (track "b" 70)) (Some (track "c" 50)) None (Some "m-b-c-1"%string)].
Proof. vm_compute. reflexivity. Qed.

Example makeRound_five_shuffled :
  makeRound (Some <$> [track "t60" 60; track "t90" 90; track "t50" 50;
                       track "t80" 80; track "t70" 70])
  = makeRound five.
Proof. vm_compute. reflexivity. Qed.

(** * The three-entrant stage *)

Lemma three_slots (l : list Slot) :
  Forall is_Some l -> length l = 3 ->
  exists x y z, l = [Some x; Some y; Some z].
Proof.
  intros Hp Hl. destruct l as [|a [|b [|c [|d l]]]]; simpl in Hl; try lia.
  inversion Hp as [|? ? [x ->] Hp1]; subst.
  inversion Hp1 as [|? ? [y ->] Hp2]; subst.
  inversion Hp2 as [|? ? [z ->] _]; subst. eauto.
Qed.

(** C3. For a survivor list with exactly three present entrants,
    [makeRound] returns a three round: [top] is the most popular of them,
    the qualifier pairs the other two with no winner, and there is no final.
    On a tournament whose active round is that round and whose cursor is the
    qualifier cursor, a pick sets the qualifier's winner and creates the
    final between [top] and that winner, still undecided; the champion is
    not set by that pick, the cursor moves to the final, and the next pick
    makes the final's winner the champion. *)
Theorem three_round_two_picks (t : Tournament) (survivors : list Slot) (s1 s2 : Side) :
  length (alive survivors) = 3 ->
  rounds t !! roundIndex t = Some (makeRound survivors) ->
  cursor t = Some (CSpecial (roundIndex t) three) ->
  champion t = None ->
  exists top x y w1 w2 t1 t2,
    let sorted := sortByPopularityDesc (alive survivors) in
    sorted = [Some top; Some x; Some y] /\
    sorted ≡ₚ alive survivors /\
    (popularityOr0 (Some y) <= popularityOr0 (Some x) <= popularityOr0 (Some top))%Z /\
    makeRound survivors
    = RThree sorted (Some top) (mkMatch (Some x) (Some y) None None) None /\
    w1 = match s1 with PickA => x | PickB => y end /\
    applyPick t s1 = Ok t1 /\
    roundIndex t1 = roundIndex t /\
    rounds t1 !! roundIndex t1
    = Some (RThree sorted (Some top)
              (mkMatch (Some x) (Some y) (Some w1) None)
              (Some (mkMatch (Some top) (Some w1) None None))) /\
    champion t1 = None /\
    cursor t1 = Some (CSpecial (roundIndex t) final) /\
    history t1 = history t ++ [HStage (roundIndex t) three (eid w1)] /\
    w2 = match s2 with PickA => top | PickB => w1 end /\
    applyPick t1 s2 = Ok t2 /\
    champion t2 = Some w2 /\
    cursor t2 = None /\
    rounds t2 !! roundIndex t2
    = Some (RThree sorted (Some top)
              (mkMatch (Some x) (Some y) (Some w1) None)
              (Some (mkMatch (Some top) (Some w1) (Some w2) None))) /\
    history t2 = history t1 ++ [HStage (roundIndex t) final (eid w2)].
Proof.
  intros H3 Hr Hc Hch.
  pose proof (sortByPopularityDesc_perm (alive survivors)) as Hperm.
  pose proof (sortByPopularityDesc_sorted (alive survivors)) as Hsorted.
  pose proof (sortByPopularityDesc_length (alive survivors)) as Hlen.
  destruct (three_slots (sortByPopularityDesc (alive survivors)))
    as (top & x & y & Es).
  { apply sortBy_Forall, alive_present. }
  { congruence. }
  rewrite makeRound_three in Hr by done. cbv zeta in Hr.
  rewrite Es in Hr, Hperm, Hsorted. unfold at_ in Hr. simpl in Hr.
  assert (Hlt : roundIndex t < length (rounds t)) by by eapply lookup_lt_Some.
  set (w1 := match s1 with PickA => x | PickB => y end).
  set (w2 := match s2 with PickA => top | PickB => w1 end).
  set (q1 := mkMatch (Some x) (Some y) (Some w1) None).
  set (r1 := RThree [Some top; Some x; Some y] (Some top) q1
               (Some (mkMatch (Some top) (Some w1) None None))).
  set (t1 := mkTournament (roundIndex t) (<[roundIndex t := r1]> (rounds t))
               (Some (CSpecial (roundIndex t) final)) None
               (history t ++ [HStage (roundIndex t) three (eid w1)])).
  set (r2 := RThree [Some top; Some x; Some y] (Some top) q1
               (Some (mkMatch (Some top) (Some w1) (Some w2) None))).
  set (t2 := mkTournament (roundIndex t) (<[roundIndex t := r2]> (rounds t))
               None (Some w2)
               (history t1 ++ [HStage (roundIndex t) final (eid w2)])).
  assert (Ha1 : applyPick t s1 = Ok t1).
  { unfold applyPick, deepClone. rewrite Hc, Hr.
    assert (pickOf s1 (mkMatch (Some x) (Some y) None None) = Some w1) as ->
      by by destruct s1.
    unfold t1. f_equal. unfold set_cursor, set_rounds, push_history, deriveCursor.
    cbn [roundIndex rounds cursor champion history].
    rewrite list_lookup_insert_eq by done. simpl. by rewrite Hch. }
  assert (Ha2 : applyPick t1 s2 = Ok t2).
  { unfold applyPick, deepClone, t1.
    cbn [roundIndex rounds cursor champion history].
    rewrite list_lookup_insert_eq by done. unfold r1.
    assert (pickOf s2 (mkMatch (Some top) (Some w1) None None) = Some w2) as ->
      by by destruct s2.
    unfold t2, t1. f_equal.
    unfold set_cursor, set_champion, set_rounds, push_history.
    cbn [roundIndex rounds cursor champion history].
    by rewrite list_insert_insert_eq. }
  exists top, x, y, w1, w2, t1, t2. cbv zeta. rewrite makeRound_three by done.
  cbv zeta. rewrite Es. unfold at_. simpl.
  split; [done|]. split; [done|]. split.
  { inversion Hsorted as [|? ? Hs1 Hf1]; subst.
    inversion Hs1 as [|? ? Hs2 Hf2]; subst.
    inversion Hf1 as [|? ? Hx _]; subst. inversion Hf2 as [|? ? Hy _]; subst.
    unfold popDesc, popularityOr0 in *. lia. }
  split; [done|]. split; [done|]. split; [done|]. split; [done|].
  split; [by rewrite list_lookup_insert_eq|].
  split; [done|]. split; [done|]. split; [done|]. split; [done|].
  split; [done|]. split; [done|]. split; [done|].
  split; [by rewrite list_lookup_insert_eq|]. done.
Qed.

Lemma three_round_two_picks_witness :
  exists t0 t1 t2,
    buildTournament trio = Ok t0 /\
    applyPick t0 PickA = Ok t1 /\
    rounds t1 !! 0
    = Some (RThree trio (Some (track "t90" 90))
              (mkMatch (Some (track "t60" 60)) (Some (track "t40" 40))
                 (Some (track "t60" 60)) None)
              (Some (mkMatch (Some (track "t90" 90)) (Some (track "t60" 60)) None None))) /\
    champion t1 = None /\
    applyPick t1 PickB = Ok t2 /\
    champion t2 = Some (track "t60" 60).
Proof.
  assert (Hb : buildTournament trio
               = Ok (mkTournament 0 [makeRound trio] (Some (CSpecial 0 three)) None []))
    by (vm_compute; reflexivity).
  destruct (three_round_two_picks
              (mkTournament 0 [makeRound trio] (Some (CSpecial 0 three)) None [])
              trio PickA PickB)
    as (top & x & y & w1 & w2 & t1 & t2 & Hs & _ & _ & _ & Hw1 & Ha1 & Hi1 & Hr1
        & Hc1 & _ & _ & Hw2 & Ha2 & Hc2 & _);
    [vm_compute; reflexivity | reflexivity | reflexivity | reflexivity |].
  vm_compute in Hs. injection Hs as <- <- <-.
  subst w1 w2. rewrite Hi1 in Hr1. simpl in Hr1.
  exists (mkTournament 0 [makeRound trio] (Some (CSpecial 0 three)) None []), t1, t2.
  split; [exact Hb|]. split; [exact Ha1|]. split; [exact Hr1|].
  split; [exact Hc1|]. split; [exact Ha2|]. exact Hc2.
Defined.

(** * Picks that change nothing *)

(** C5. A pick on a tournament without a stored cursor, or on one whose
    cursor denotes a match in which the picked side is empty, raises no
    error and returns the tournament as it was: same rounds, round index,
    cursor, champion and history. *)
Theorem applyPick_noop (t : Tournament) (s : Side) :
  cursor t = None \/
  (exists m, targetMatch t = Some m /\ pickOf s m = None) ->
  applyPick t s = Ok t.
Proof.
  intros [Hc|(m & Hm & Hp)].
  - by apply applyPick_no_cursor.
  - unfold applyPick, deepClone. unfold targetMatch in Hm.
    destruct (cursor t) as [[i [|]|i idx]|]; [| | |done];
      destruct (rounds t !! roundIndex t) as [[ents|ents top q f|ents bye ms]|];
      try done.
    + injection Hm as ->. by rewrite Hp.
    + rewrite Hm. by rewrite Hp.
    + rewrite Hm. by rewrite Hp.
Qed.

Lemma applyPick_noop_witness :
  applyPick (mkTournament 0 [RDone [Some (track "a" 1)]] None (Some (track "a" 1)) []) PickA
  = Ok (mkTournament 0 [RDone [Some (track "a" 1)]] None (Some (track "a" 1)) [])
  /\
  applyPick
    (mkTournament 0
       [RNormal [] None [mkMatch None (Some (track "b" 2)) None None]]
       (Some (CMatch 0 0)) None []) PickA
  = Ok (mkTournament 0
          [RNormal [] None [mkMatch None (Some (track "b" 2)) None None]]
          (Some (CMatch 0 0)) None []).
Proof.
  split.
  - apply applyPick_noop. left. reflexivity.
  - apply applyPick_noop. right.
    exists (mkMatch None (Some (track "b" 2)) None None).
    split; reflexivity.
Defined.

(** * Ranking *)

(** C7.  Ranking as [makeRound] does it, [filter(Boolean)] followed by
    [sortByPopularityDesc]: the result holds no absent entry and exactly the
    present entries of the input, highest popularity first, and entries of
    equal popularity keep the order they have in the input; there is one
    such list only, so the result does not depend on the sorting algorithm.
    It is defined on every list, the empty one included, and it is the
    [entrants] list of the three or normal round that [makeRound] builds. *)
Theorem sortByPopularityDesc_rank (l : list Slot) :
  let ranked := sortByPopularityDesc (alive l) in
  Forall is_Some ranked /\
  (forall x, x ∈ ranked <-> x ∈ l /\ is_Some x) /\
  ranked ≡ₚ List.filter truthy l /\
  length ranked = length (List.filter truthy l) /\
  StronglySorted popDesc ranked /\
  (forall p, List.filter (hasPopularity p) ranked
             = List.filter (hasPopularity p) (List.filter truthy l)) /\
  (forall l', StronglySorted popDesc l' ->
     (forall p, List.filter (hasPopularity p) l'
                = List.filter (hasPopularity p) (List.filter truthy l)) ->
     l' = ranked) /\
  sortByPopularityDesc (alive []) = [] /\
  (forall ents top q f, makeRound l = RThree ents top q f -> ents = ranked) /\
  (forall ents bye ms, makeRound l = RNormal ents bye ms -> ents = ranked).
Proof.
  intros ranked. unfold ranked.
  split; [apply sortBy_Forall, alive_present|].
  split.
  { intros x. rewrite (sortByPopularityDesc_perm (alive l)). unfold alive.
    rewrite list_elem_of_In, filter_In, <- list_elem_of_In.
    by rewrite truthy_is_Some. }
  split; [apply sortByPopularityDesc_perm|].
  split; [apply sortByPopularityDesc_length|].
  split; [apply sortByPopularityDesc_sorted|].
  split; [intros p; apply sortByPopularityDesc_stable|].
  split.
  { intros l' Hs Hf. apply stable_ranking_unique; [done|..].
    - apply sortByPopularityDesc_sorted.
    - intros p. by rewrite Hf, sortByPopularityDesc_stable. }
  split; [done|].
  unfold makeRound. cbv zeta.
  destruct (length (alive l) <=? 1); [by split|].
  destruct (length (alive l) =? 3).
  { split; [by intros ? ? ? ? [= <- _ _ _] | done]. }
  destruct (length (sortByPopularityDesc (alive l)) mod 2 =? 1);
    (split; [done | by intros ? ? ? [= <- _ _]]).
Qed.

Example sortByPopularityDesc_rank_ties :
  sortByPopularityDesc
    (alive [Some (track "x" 5); None; Some (track "y" 9); Some (track "z" 5)])
  = [Some (track "y" 9); Some (track "x" 5); Some (track "z" 5)].
Proof. vm_compute. reflexivity. Qed.

(** * Progress totals *)

Lemma countRound_spec total done r :
  countRound (total, done) r = (total + roundSlots r, done + roundDecided r).
Proof.
  destruct r as [ents|ents top q f|ents bye ms]; simpl.
  - f_equal; lia.
  - destruct f as [fm|]; simpl; f_equal; lia.
  - done.
Qed.

Lemma fold_countRound rs total done :
  fold_left countRound rs (total, done)
  = (total + sum_list (roundSlots <$> rs), done + sum_list (roundDecided <$> rs)).
Proof.
  revert total done. induction rs as [|r rs IH]; intros total done.
  - simpl. f_equal; lia.
  - cbn [fold_left]. rewrite countRound_spec, IH, !fmap_cons.
    simpl. f_equal; lia.
Qed.




(** * The champion is final *)

Lemma roundOK_survivors ch r w :
  roundOK ch r -> (survivorsOf r = Some [w] <-> is_Some ch /\ ch = w).
Proof.
  destruct r as [ents|ents top q f|ents bye ms]; simpl.
  - intros (Hp & Hl & ->). destruct ents as [|x [|y ents]]; simpl in *; try lia.
    + unfold at_. simpl. split; [done | by intros [[? ?] _]].
    + inversion Hp; subst. rewrite at_0_cons.
      split; [by intros [= ->] | by intros [_ ->]].
  - intros (_ & _ & Hf). destruct f as [fm|].
    + destruct Hf as (_ & _ & _ & _ & ->).
      destruct (m_winner fm) as [c|]; simpl.
      * split; [intros [= <-]; eauto | by intros [_ <-]].
      * split; [done | by intros [[? ?] _]].
    + destruct Hf as (_ & ->). split; [done | by intros [[? ?] _]].
  - intros (_ & _ & [[Hd ->]|(Hd & Hch & Hw)]); rewrite Hd.
    + split; [done | by intros [[? ?] _]].
    + rewrite Hw. split; [by intros [= <-] | by intros [_ <-]].
Qed.

(** C4. On every tournament the engine produces: once the champion is set
    the stored cursor is null, a pick of either side returns the
    tournament unchanged and so does settling; and the champion is set
    exactly when the active round is over with a single survivor, who is
    that champion. *)
Theorem champion_terminal (t : Tournament) :
  Reachable t ->
  (is_Some (champion t) ->
     cursor t = None /\
     (forall s, applyPick t s = Ok t) /\
     fastForwardIfNeeded t = Ok t) /\
  (is_Some (champion t) <-> exists w, soleSurvivor t w) /\
  (forall w, soleSurvivor t w -> champion t = w).
Proof.
  intros Hreach. destruct (Reachable_Inv t Hreach) as [n HI].
  destruct (Inv_cursor n t HI) as [Hcur _].
  destruct (Inv_active n t HI) as (r & Hr & Hok).
  split; [|split].
  - intros Hch. specialize (Hcur Hch). split; [done|]. split.
    + intros s. by apply applyPick_no_cursor.
    + by eapply Inv_fastForward.
  - split.
    + intros Hch. exists (champion t), r. split; [done|].
      by apply (roundOK_survivors _ _ _ Hok).
    + intros (w & r' & Hr' & Hs). rewrite Hr in Hr'. injection Hr' as <-.
      by apply (roundOK_survivors _ _ _ Hok) in Hs as [? _].
  - intros w (r' & Hr' & Hs). rewrite Hr in Hr'. injection Hr' as <-.
    by apply (roundOK_survivors _ _ _ Hok) in Hs as [_ ?].
Qed.

(** * The stored cursor *)

Lemma Inv_target n t c :
  Inv n t -> cursor t = Some c ->
  exists m, targetMatch t = Some m /\ pending m = true /\ playable m /\
    c = match c with
        | CSpecial _ sp => CSpecial (roundIndex t) sp
        | CMatch _ idx => CMatch (roundIndex t) idx
        end.
Proof.
  intros (Hc & past & r & Hr & Hi & Hok & _) Hcur.
  assert (Hlk : rounds t !! roundIndex t = Some r).
  { rewrite Hr, Hi. apply active_lookup. }
  unfold targetMatch. rewrite Hcur, Hlk. rewrite Hcur in Hc.
  unfold deriveCursor in Hc. rewrite Hlk in Hc.
  destruct r as [ents|ents top q f|ents bye ms]; simpl in Hok; [done| |].
  - destruct Hok as (Htop & Hq & Hf).
    destruct (truthy (m_winner q)) eqn:Eq; simpl in Hc.
    + destruct f as [fm|]; [|done].
      destruct (truthy (m_winner fm)) eqn:Ef; simpl in Hc; [done|].
      injection Hc as ->. exists fm.
      destruct Hf as (Hqw & Ha & Hb & Hw & _).
      assert (Hpf : playable fm).
      { split; [by rewrite Ha|]. split; [by rewrite Hb | done]. }
      split; [done|]. split; [|done].
      rewrite pending_playable by done. unfold decided. by rewrite Ef.
    + injection Hc as ->. exists q. split; [done|]. split; [|done].
      rewrite pending_playable by done. unfold decided. by rewrite Eq.
  - destruct Hok as (_ & Hpl & _).
    destruct (findIndex pending ms) as [i|] eqn:Ei; [|done].
    injection Hc as ->.
    destruct (findIndex_Some _ _ _ Ei) as (m & Hm & Hp & _).
    exists m. split; [done|]. split; [done|]. split; [|done].
    rewrite Forall_forall in Hpl. apply Hpl. by eapply list_elem_of_lookup_2.
Qed.

(** C10. On every tournament the engine produces the stored cursor is the
    derived one; when it is set, it names the active round and denotes a
    match of that round (a match of a normal round within bounds, the
    qualifier, or the created final) that is pending with both slots
    filled, so that a pick of either side finds an entrant, is applied
    without error and is recorded in the history: the branch of
    [applyPick] that rejects an empty slot is never taken. *)
Theorem cursor_points_at_pending (t : Tournament) :
  Reachable t ->
  cursor t = deriveCursor t /\
  forall c, cursor t = Some c ->
    exists m,
      targetMatch t = Some m /\
      c = match c with
          | CSpecial _ sp => CSpecial (roundIndex t) sp
          | CMatch _ idx => CMatch (roundIndex t) idx
          end /\
      is_Some (m_a m) /\ is_Some (m_b m) /\ m_winner m = None /\
      pending m = true /\
      forall s, is_Some (pickOf s m) /\
        exists t', applyPick t s = Ok t' /\
          length (history t') = S (length (history t)).
Proof.
  intros Hreach. destruct (Reachable_Inv t Hreach) as [n HI].
  split; [apply HI|]. intros c Hc.
  destruct (Inv_target n t c HI Hc) as (m & Hm & Hp & Hpl & Hround).
  exists m. split; [done|]. split; [done|].
  split; [apply Hpl|]. split; [apply Hpl|]. split.
  { unfold pending in Hp. by destruct (m_winner m). }
  split; [done|]. intros s. split; [by apply pickOf_playable|].
  destruct (Inv_applyPick n t s HI) as (t' & Ha & _ & [[Hn _]|(_ & _ & Hl)]).
  - congruence.
  - eauto.
Qed.

Lemma champion_terminal_witness :
  exists t,
    buildTournament [Some (track "a" 1)] = Ok t /\
    is_Some (champion t) /\
    cursor t = None /\
    applyPick t PickA = Ok t /\ applyPick t PickB = Ok t /\
    fastForwardIfNeeded t = Ok t /\
    soleSurvivor t (champion t).
Proof.
  set (t := mkTournament 0 [RDone [Some (track "a" 1)]] None (Some (track "a" 1)) []).
  assert (Hb : buildTournament [Some (track "a" 1)] = Ok t) by reflexivity.
  assert (Hr : Reachable t) by (eapply reach_build; exact Hb).
  destruct (champion_terminal t Hr) as (H1 & H2 & H3).
  assert (Hch : is_Some (champion t)) by (simpl; eauto).
  destruct (H1 Hch) as (Hc & Hp & Hf).
  exists t. split; [exact Hb|]. split; [exact Hch|]. split; [exact Hc|].
  split; [apply Hp|]. split; [apply Hp|]. split; [exact Hf|].
  exists (RDone [Some (track "a" 1)]). split; reflexivity.
Defined.

Lemma cursor_points_at_pending_witness :
  exists t m,
    buildTournament five = Ok t /\
    cursor t = Some (CMatch 0 0) /\
    targetMatch t = Some m /\
    m_a m = Some (track "t80" 80) /\ m_b m = Some (track "t50" 50) /\
    m_winner m = None /\
    exists t', applyPick t PickB = Ok t' /\ length (history t') = 1.
Proof.
  destruct (buildTournament five) as [t|] eqn:Hb; [|by vm_compute in Hb].
  assert (Hr : Reachable t) by (eapply reach_build; exact Hb).
  destruct (cursor_points_at_pending t Hr) as (Hd & Hc).
  vm_compute in Hb. injection Hb as <-.
  destruct (Hc (CMatch 0 0) eq_refl) as (m & Hm & _ & _ & _ & Hw & _ & Hs).
  destruct (Hs PickB) as (_ & t' & Ha & Hl).
  vm_compute in Hm. injection Hm as <-.
  eexists _, _. split; [reflexivity|]. split; [reflexivity|].
  split; [reflexivity|]. split; [reflexivity|]. split; [reflexivity|].
  split; [reflexivity|]. exists t'. split; [exact Ha | exact Hl].
Defined.

(** * One entrant, no entrant *)

(** C8. A tournament built from one entrant comes out settled with that
    entrant as champion and an empty history, and settling it again changes
    nothing.  A tournament built from no entrant has the single round
    [RDone []] and no champion, and every sequence of picks and settlings
    leaves it exactly so, without error. *)
Theorem single_and_empty_start :
  (forall e : Entrant,
     buildTournament [Some e]
     = Ok (mkTournament 0 [RDone [Some e]] None (Some e) []) /\
     fastForwardIfNeeded (mkTournament 0 [RDone [Some e]] None (Some e) [])
     = Ok (mkTournament 0 [RDone [Some e]] None (Some e) [])) /\
  buildTournament [] = Ok (mkTournament 0 [RDone []] None None []) /\
  (forall ops : list Op,
     run ops (mkTournament 0 [RDone []] None None [])
     = Ok (mkTournament 0 [RDone []] None None [])).
Proof.
  split; [|split].
  - intros e. split; reflexivity.
  - reflexivity.
  - induction ops as [|[s|] ops IH]; [done| |]; simpl; exact IH.
Qed.

(** * Termination *)

Lemma alive_Some (entrants : list Entrant) :
  alive (Some <$> entrants) = Some <$> entrants.
Proof.
  apply alive_id, Forall_forall. intros x Hx.
  apply list_elem_of_fmap in Hx as (e & -> & _). eauto.
Qed.

(** C1. From the tournament built from a non-empty entrant list, any
    sequence of picks is applied without error; each pick is one decision
    until [length entrants - 1] decisions have been taken, at which point
    and not before the champion is set, to one of the entrants, and from
    then on picks change nothing.  So the number of decisions applied is at most
    [length entrants - 1], and with it at most that plus one per
    three-entrant stage. *)
Theorem tournament_terminates (entrants : list Entrant) :
  entrants <> [] ->
  exists t0,
    buildTournament (Some <$> entrants) = Ok t0 /\
    history t0 = [] /\
    forall picks : list Side,
      exists t,
        play picks t0 = Ok t /\
        length (history t) = Nat.min (length picks) (length entrants - 1) /\
        (is_Some (champion t) <-> length entrants - 1 <= length picks) /\
        oneOf entrants (champion t) /\
        length (history t) <= length entrants - 1 + threeStages t /\
        (is_Some (champion t) ->
           forall more, play (picks ++ more) t0 = Ok t).
Proof.
  intros Hne.
  destruct (buildTournament_Inv (Some <$> entrants)) as (t0 & Hb & HI & Hh & _).
  rewrite alive_Some, length_fmap in HI.
  assert (Hpos : 0 < length entrants) by (destruct entrants; [done | simpl; lia]).
  exists t0. split; [done|]. split; [done|]. intros picks.
  destruct (play_Inv _ picks t0 HI) as (t & Hp & HIt & Hl).
  rewrite Hh in Hl. simpl in Hl.
  destruct (Inv_history _ t HIt) as [Hle Hch].
  exists t. split; [done|]. split; [done|]. split; [|split; [|split]].
  - rewrite Hch. lia.
  - assert (HP : oneOf entrants None) by (intros ? [=]).
    eapply (play_of _ HP picks t0 t); [|exact Hp].
    eapply buildTournament_of; [exact HP | apply oneOf_entrants | exact Hb].
  - lia.
  - intros Hc more. unfold play in *. rewrite fmap_app.
    clear Hl Hle Hch.
    assert (Hrun : forall ops1 ops2 a b,
              run ops1 a = Ok b -> run (ops1 ++ ops2) a = run ops2 b).
    { induction ops1 as [|o ops1 IH]; intros ops2 a b Hab; simpl in *.
      - by injection Hab as ->.
      - destruct (step a o) as [a'|]; simpl in *; [by apply IH | done]. }
    rewrite (Hrun _ _ _ _ Hp).
    destruct (Inv_cursor _ t HIt) as [Hcur _]. specialize (Hcur Hc).
    induction more as [|s more IHm]; [done|]. simpl.
    rewrite (applyPick_no_cursor t s) by done. exact IHm.
Qed.

Lemma tournament_terminates_witness :
  exists t0 t,
    buildTournament five = Ok t0 /\
    play [PickA; PickB; PickA; PickB] t0 = Ok t /\
    length (history t) = 4 /\
    is_Some (champion t).
Proof.
  destruct (tournament_terminates
              [track "t90" 90; track "t80" 80; track "t70" 70;
               track "t60" 60; track "t50" 50])
    as (t0 & Hb & _ & Hp); [discriminate|].
  destruct (Hp [PickA; PickB; PickA; PickB]) as (t & Hplay & Hl & Hch & _).
  exists t0, t. split; [exact Hb|]. split; [exact Hplay|].
  split; [exact Hl|]. apply Hch. simpl. lia.
Defined.

Example play_five :
  bindR (buildTournament five) (play [PickA; PickB; PickA; PickB])
  = Ok (mkTournament 1
          [RNormal five (Some (track "t90" 90))
             [mkMatch (Some (track "t80" 80)) (Some (track "t50" 50))
                (Some (track "t80" 80)) (Some "m-t80-t50-0"%string);
              mkMatch (Some (track "t70" 70)) (Some (track "t60" 60))
                (Some (track "t60" 60)) (Some "m-t70-t60-1"%string)];
           RThree (Some <$> [track "t90" 90; track "t80" 80; track "t60" 60])
             (Some (track "t90" 90))
             (mkMatch (Some (track "t80" 80)) (Some (track "t60" 60))
                (Some (track "t80" 80)) None)
             (Some (mkMatch (Some (track "t90" 90)) (Some (track "t80" 80))
                      (Some (track "t80" 80)) None))]
          None (Some (track "t80" 80))
          [HMatch 0 0 "t80"; HMatch 0 1 "t60"; HStage 1 three "t80";
           HStage 1 final "t80"]).
Proof. vm_compute. reflexivity. Qed.

(** * The engine on the store *)

Section StoreRules.
Context {A : Type}.
Implicit Types (F R : Store.Heap) (Q : Result A -> Store.Heap -> Prop).

Lemma wp_ret (a : A) F Q : Q (Ok a) F -> Store.wp (Store.retM a) F Q.
Proof. intros HQ R HR. simpl. eauto. Qed.

Lemma wp_fail e F Q : Q (Fail e) ∅ -> Store.wp (Store.failM e) F Q.
Proof. intros HQ R HR. done. Qed.

Lemma wp_mono (m : Store.M A) F Q Q' :
  (forall r F', Q r F' -> Q' r F') -> Store.wp m F Q -> Store.wp m F Q'.
Proof.
  intros HQ Hm R HR. specialize (Hm R HR).
  destruct (m (F ∪ R)) as [[a h']|e]; [|auto].
  destruct Hm as (F' & ? & ? & ?). eauto.
Qed.

Lemma wp_bind {B} (m : Store.M B) (k : B -> Store.M A) F Q :
  Store.wp m F (fun r F' =>
    match r with
    | Ok b => Store.wp (k b) F' Q
    | Fail e => Q (Fail e) ∅
    end) ->
  Store.wp (Store.bindM m k) F Q.
Proof.
  intros Hm R HR. unfold Store.bindM. specialize (Hm R HR).
  destruct (m (F ∪ R)) as [[b h']|e]; [|done].
  destruct Hm as (F' & -> & HR' & Hk). exact (Hk R HR').
Qed.

End StoreRules.

Lemma wp_alloc o (F : Store.Heap) (Q : Result Store.loc -> Store.Heap -> Prop) :
  (forall l, F !! l = None -> Q (Ok l) (<[l := o]> F)) ->
  Store.wp (Store.alloc o) F Q.
Proof.
  intros HQ R HR. unfold Store.alloc.
  pose proof (is_fresh (dom (F ∪ R))) as Hf.
  set (l := fresh (dom (F ∪ R))) in *.
  apply not_elem_of_dom in Hf. apply lookup_union_None in Hf as [HF HRl].
  exists (<[l := o]> F). split; [by rewrite insert_union_l|].
  split; [by apply map_disjoint_insert_l_2 | by apply HQ].
Qed.

Lemma wp_load l o (F : Store.Heap) (Q : Result Store.Obj -> Store.Heap -> Prop) :
  F !! l = Some o -> Q (Ok o) F -> Store.wp (Store.load l) F Q.
Proof.
  intros Hl HQ R HR. unfold Store.load.
  rewrite (lookup_union_Some_l F R l o Hl). eauto.
Qed.

Lemma wp_store l o (F : Store.Heap) (Q : Result unit -> Store.Heap -> Prop) :
  is_Some (F !! l) -> Q (Ok tt) (<[l := o]> F) ->
  Store.wp (Store.store l o) F Q.
Proof.
  intros [o' Hl] HQ R HR. unfold Store.store.
  exists (<[l := o]> F). split; [by rewrite insert_union_l|].
  split; [|done]. apply map_disjoint_insert_l_2; [|done].
  by eapply map_disjoint_Some_l.
Qed.

(** Reading an object of a known kind. *)
Lemma wp_loadTournament l o (F : Store.Heap) Q :
  F !! l = Some (Store.OTournament o) -> Q (Ok o) F ->
  Store.wp (Store.loadTournament l) F Q.
Proof.
  intros Hl HQ. apply wp_bind. eapply wp_load; [done|]. by apply wp_ret.
Qed.

Lemma wp_loadRounds l rs (F : Store.Heap) Q :
  F !! l = Some (Store.ORounds rs) -> Q (Ok rs) F ->
  Store.wp (Store.loadRounds l) F Q.
Proof.
  intros Hl HQ. apply wp_bind. eapply wp_load; [done|]. by apply wp_ret.
Qed.

Lemma wp_loadRound l r (F : Store.Heap) Q :
  F !! l = Some (Store.ORound r) -> Q (Ok r) F ->
  Store.wp (Store.loadRound l) F Q.
Proof.
  intros Hl HQ. apply wp_bind. eapply wp_load; [done|]. by apply wp_ret.
Qed.

Lemma wp_loadMatches l ms (F : Store.Heap) Q :
  F !! l = Some (Store.OMatches ms) -> Q (Ok ms) F ->
  Store.wp (Store.loadMatches l) F Q.
Proof.
  intros Hl HQ. apply wp_bind. eapply wp_load; [done|]. by apply wp_ret.
Qed.

Lemma wp_loadMatch l m (F : Store.Heap) Q :
  F !! l = Some (Store.OMatch m) -> Q (Ok m) F ->
  Store.wp (Store.loadMatch l) F Q.
Proof.
  intros Hl HQ. apply wp_bind. eapply wp_load; [done|]. by apply wp_ret.
Qed.

Lemma wp_loadSlots l xs (F : Store.Heap) Q :
  F !! l = Some (Store.OSlots xs) -> Q (Ok xs) F ->
  Store.wp (Store.loadSlots l) F Q.
Proof.
  intros Hl HQ. apply wp_bind. eapply wp_load; [done|]. by apply wp_ret.
Qed.

Lemma wp_loadHistory l hs (F : Store.Heap) Q :
  F !! l = Some (Store.OHistory hs) -> Q (Ok hs) F ->
  Store.wp (Store.loadHistory l) F Q.
Proof.
  intros Hl HQ. apply wp_bind. eapply wp_load; [done|]. by apply wp_ret.
Qed.

(** ** Objects at addresses of their own *)

Lemma treeN_lookup F N l o : Store.treeN F N -> (l, o) ∈ N -> F !! l = Some o.
Proof. intros [_ H]. apply H. Qed.

Lemma treeN_nil F : Store.treeN F [].
Proof. split; [constructor | intros l o H; by apply elem_of_nil in H]. Qed.

Lemma treeN_perm F N N' : N ≡ₚ N' -> Store.treeN F N -> Store.treeN F N'.
Proof.
  intros HP [Hnd Hl]. split.
  - by rewrite <- HP.
  - intros l o Hin. apply Hl. by rewrite HP.
Qed.

Lemma treeN_app_l F N1 N2 : Store.treeN F (N1 ++ N2) -> Store.treeN F N1.
Proof.
  intros [Hnd Hl]. rewrite fmap_app in Hnd. apply NoDup_app in Hnd as (H1 & _ & _).
  split; [done|]. intros l o Hin. apply Hl, elem_of_app. by left.
Qed.

Lemma treeN_app_r F N1 N2 : Store.treeN F (N1 ++ N2) -> Store.treeN F N2.
Proof.
  intros [Hnd Hl]. rewrite fmap_app in Hnd. apply NoDup_app in Hnd as (_ & _ & H2).
  split; [done|]. intros l o Hin. apply Hl, elem_of_app. by right.
Qed.

Lemma treeN_fresh F N l : Store.treeN F N -> F !! l = None -> l ∉ N.*1.
Proof.
  intros [_ Hl] Hf Hin. apply list_elem_of_fmap in Hin as ([l' o] & -> & Hin).
  simpl in Hf. rewrite (Hl _ _ Hin) in Hf. done.
Qed.

Lemma treeN_cons_fresh F N l o :
  Store.treeN F N -> F !! l = None -> Store.treeN (<[l := o]> F) ((l, o) :: N).
Proof.
  intros HT Hf. pose proof (treeN_fresh _ _ _ HT Hf) as Hnin.
  destruct HT as [Hnd Hl]. split.
  - simpl. by constructor.
  - intros l' o' Hin. apply elem_of_cons in Hin as [[= -> ->]|Hin].
    + by rewrite lookup_insert_eq.
    + rewrite lookup_insert_ne; [by apply Hl|].
      intros ->. apply Hnin. apply list_elem_of_fmap. by exists (l', o').
Qed.

Lemma treeN_store F N l o o' :
  Store.treeN F ((l, o) :: N) -> Store.treeN (<[l := o']> F) ((l, o') :: N).
Proof.
  intros [Hnd Hl]. simpl in Hnd. apply NoDup_cons in Hnd as [Hnin Hnd]. split.
  - simpl. by constructor.
  - intros l' o'' Hin. apply elem_of_cons in Hin as [[= -> ->]|Hin].
    + by rewrite lookup_insert_eq.
    + rewrite lookup_insert_ne; [apply Hl; by right|].
      intros ->. apply Hnin. apply list_elem_of_fmap. by exists (l', o'').
Qed.

Lemma treeN_app_fresh F F' N1 N2 :
  Store.treeN F N1 -> extends F F' N2 -> Store.treeN F' (N1 ++ N2).
Proof.
  intros [Hnd1 Hl1] (Hsub & [Hnd2 Hl2] & Hfr). split.
  - rewrite fmap_app. apply NoDup_app. split; [done|]. split; [|done].
    intros l Hin1 Hin2.
    apply list_elem_of_fmap in Hin1 as ([l1 o1] & -> & Hin1).
    apply list_elem_of_fmap in Hin2 as ([l2 o2] & Heq & Hin2).
    simpl in Heq. subst l2.
    rewrite Forall_forall in Hfr. specialize (Hfr _ Hin2). simpl in Hfr.
    rewrite (Hl1 _ _ Hin1) in Hfr. done.
  - intros l o Hin. apply elem_of_app in Hin as [Hin|Hin].
    + eapply lookup_weaken; [|done]. by apply Hl1.
    + by apply Hl2.
Qed.

Lemma extends_refl F : extends F F [].
Proof. split; [done|]. split; [apply treeN_nil | constructor]. Qed.

Lemma extends_alloc F F' N l o :
  extends F F' N -> F' !! l = None -> extends F (<[l := o]> F') ((l, o) :: N).
Proof.
  intros (Hsub & HT & Hfr) Hf. split; [|split].
  - etrans; [done|]. by apply insert_subseteq.
  - by apply treeN_cons_fresh.
  - constructor; [|done]. simpl.
    destruct (F !! l) as [x|] eqn:E; [|done].
    by rewrite (lookup_weaken _ _ _ _ E Hsub) in Hf.
Qed.

Lemma extends_store F F' N l o o' :
  extends F F' ((l, o) :: N) -> extends F (<[l := o']> F') ((l, o') :: N).
Proof.
  intros (Hsub & HT & Hfr). inversion Hfr as [|? ? Hl Hfr']; subst. simpl in Hl.
  split; [|split].
  - by apply insert_subseteq_r.
  - by eapply treeN_store.
  - by constructor.
Qed.

Lemma extends_perm F F' N N' : N ≡ₚ N' -> extends F F' N -> extends F F' N'.
Proof.
  intros HP (Hsub & HT & Hfr). split; [done|]. split.
  - by eapply treeN_perm.
  - by rewrite <- HP.
Qed.

Lemma extends_app_r F F' N1 N2 : extends F F' (N1 ++ N2) -> extends F F' N2.
Proof.
  intros (Hsub & HT & Hfr). split; [done|]. split.
  - by eapply treeN_app_r.
  - by apply Forall_app in Hfr as [_ ?].
Qed.

Lemma extends_submseteq F F' N N' : N' ⊆+ N -> extends F F' N -> extends F F' N'.
Proof.
  intros HP HE. apply submseteq_Permutation in HP as [K HP].
  apply (extends_perm _ _ _ _ HP) in HE.
  apply (extends_perm _ _ _ _ (Permutation_app_comm N' K)) in HE.
  by eapply extends_app_r.
Qed.

Lemma extends_lookup F F' N l o : extends F F' N -> (l, o) ∈ N -> F' !! l = Some o.
Proof. intros (_ & HT & _). by apply treeN_lookup. Qed.

Lemma extends_trans F F1 F2 N1 N2 :
  extends F F1 N1 -> extends F1 F2 N2 -> extends F F2 (N1 ++ N2).
Proof.
  intros (Hsub1 & HT1 & Hfr1) H2. pose proof H2 as (Hsub2 & HT2 & Hfr2).
  split; [by etrans|]. split.
  - by eapply treeN_app_fresh.
  - apply Forall_app. split; [done|].
    eapply Forall_impl; [exact Hfr2|]. intros [l o] Hl. simpl in *.
    destruct (F !! l) as [x|] eqn:E; [|done].
    by rewrite (lookup_weaken _ _ _ _ E Hsub1) in Hl.
Qed.

(** ** Reading a value off the store *)

Lemma decodeSlots_mono (F h : Store.Heap) l xs :
  F ⊆ h -> Store.decodeSlots F l = Some xs -> Store.decodeSlots h l = Some xs.
Proof.
  intros Hsub. unfold Store.decodeSlots.
  destruct (F !! l) as [o|] eqn:E; [|done].
  by rewrite (lookup_weaken _ _ _ _ E Hsub).
Qed.

Lemma decodeMatch_mono (F h : Store.Heap) l m :
  F ⊆ h -> Store.decodeMatch F l = Some m -> Store.decodeMatch h l = Some m.
Proof.
  intros Hsub. unfold Store.decodeMatch.
  destruct (F !! l) as [o|] eqn:E; [|done].
  by rewrite (lookup_weaken _ _ _ _ E Hsub).
Qed.

Lemma decodeHistory_mono (F h : Store.Heap) l hs :
  F ⊆ h -> Store.decodeHistory F l = Some hs -> Store.decodeHistory h l = Some hs.
Proof.
  intros Hsub. unfold Store.decodeHistory.
  destruct (F !! l) as [o|] eqn:E; [|done].
  by rewrite (lookup_weaken _ _ _ _ E Hsub).
Qed.

Lemma decodeMatches_mono (F h : Store.Heap) l ms :
  F ⊆ h -> Store.decodeMatches F l = Some ms -> Store.decodeMatches h l = Some ms.
Proof.
  intros Hsub. unfold Store.decodeMatches.
  destruct (F !! l) as [o|] eqn:E; [|done].
  rewrite (lookup_weaken _ _ _ _ E Hsub). destruct o; try done.
  rewrite !mapM_Some. intros H. eapply Forall2_impl; [exact H|].
  intros ? ?. by apply decodeMatch_mono.
Qed.

Lemma decodeRound_mono (F h : Store.Heap) l r :
  F ⊆ h -> Store.decodeRound F l = Some r -> Store.decodeRound h l = Some r.
Proof.
  intros Hsub. unfold Store.decodeRound.
  destruct (F !! l) as [o|] eqn:E; [|done].
  rewrite (lookup_weaken _ _ _ _ E Hsub). destruct o as [| |ro| | | |]; try done.
  destruct ro as [e|e top q f|e bye ml].
  - destruct (Store.decodeSlots F e) as [xs|] eqn:Ee; [|done].
    by rewrite (decodeSlots_mono _ _ _ _ Hsub Ee).
  - destruct (Store.decodeSlots F e) as [xs|] eqn:Ee; [|done].
    rewrite (decodeSlots_mono _ _ _ _ Hsub Ee). simpl.
    destruct (Store.decodeMatch F q) as [qm|] eqn:Eq; [|done].
    rewrite (decodeMatch_mono _ _ _ _ Hsub Eq). simpl.
    destruct f as [fl|]; [|done].
    destruct (Store.decodeMatch F fl) as [fm|] eqn:Ef; [|done].
    by rewrite (decodeMatch_mono _ _ _ _ Hsub Ef).
  - destruct (Store.decodeSlots F e) as [xs|] eqn:Ee; [|done].
    rewrite (decodeSlots_mono _ _ _ _ Hsub Ee). simpl.
    destruct (Store.decodeMatches F ml) as [ms|] eqn:Em; [|done].
    by rewrite (decodeMatches_mono _ _ _ _ Hsub Em).
Qed.

Lemma decodeRounds_mono (F h : Store.Heap) l rs :
  F ⊆ h -> Store.decodeRounds F l = Some rs -> Store.decodeRounds h l = Some rs.
Proof.
  intros Hsub. unfold Store.decodeRounds.
  destruct (F !! l) as [o|] eqn:E; [|done].
  rewrite (lookup_weaken _ _ _ _ E Hsub). destruct o; try done.
  rewrite !mapM_Some. intros H. eapply Forall2_impl; [exact H|].
  intros ? ?. by apply decodeRound_mono.
Qed.

Lemma decodeTournament_mono (F h : Store.Heap) l t :
  F ⊆ h -> Store.decodeTournament F l = Some t ->
  Store.decodeTournament h l = Some t.
Proof.
  intros Hsub. unfold Store.decodeTournament.
  destruct (F !! l) as [o|] eqn:E; [|done].
  rewrite (lookup_weaken _ _ _ _ E Hsub). destruct o as [o| | | | | |]; try done.
  destruct (Store.decodeRounds F (Store.o_rounds o)) as [rs|] eqn:Er; [|done].
  rewrite (decodeRounds_mono _ _ _ _ Hsub Er). simpl.
  destruct (Store.decodeHistory F (Store.o_history o)) as [hs|] eqn:Eh; [|done].
  by rewrite (decodeHistory_mono _ _ _ _ Hsub Eh).
Qed.

Lemma wp_stringify l t (F : Store.Heap) Q :
  Store.decodeTournament F l = Some t -> Q (Ok t) F ->
  Store.wp (Store.stringify l) F Q.
Proof.
  intros Hd HQ R HR. unfold Store.stringify.
  rewrite (decodeTournament_mono F (F ∪ R) l t); [eauto | | done].
  by apply map_union_subseteq_l.
Qed.

(** The first entry of a list of objects that is at the address asked
    for. *)
Ltac node_here := first [ by left | right; node_here ].

(** The value of a snapshot whose objects are in the store. *)
Lemma decodeRound_nodes (F : Store.Heap) rn :
  (forall l o, (l, o) ∈ Store.nodesR rn -> F !! l = Some o) ->
  Store.decodeRound F (Store.rn_loc rn) = Some (Store.eraseR rn).
Proof.
  intros Hl.
  unfold Store.decodeRound, Store.decodeSlots, Store.decodeMatches, Store.decodeMatch.
  destruct rn as [l e ents|l e ents top q f|l e ents bye ml ms];
    cbn [Store.rn_loc Store.eraseR Store.nodesR] in *.
  - rewrite (Hl l _) by node_here. cbv beta iota.
    by rewrite (Hl e _) by node_here.
  - rewrite (Hl l _) by node_here. cbv beta iota.
    rewrite (Hl e _) by node_here.
    rewrite (Hl (Store.mn_loc q) (Store.OMatch (Store.mn_val q)))
      by (unfold Store.nodeM; node_here).
    destruct f as [fm|]; simpl in *; [|done].
    by rewrite (Hl (Store.mn_loc fm) (Store.OMatch (Store.mn_val fm)))
      by (unfold Store.nodeM; node_here).
  - rewrite (Hl l _) by node_here. cbv beta iota.
    rewrite (Hl e _) by node_here.
    rewrite (Hl ml _) by node_here. cbv beta iota.
    assert (mapM (fun l => match F !! l with
                           | Some (Store.OMatch m) => Some m
                           | _ => None
                           end) (Store.mn_loc <$> ms)
            = Some (Store.mn_val <$> ms)) as ->; [|done].
    apply mapM_Some. apply Forall2_fmap, Forall_Forall2_diag, Forall_forall.
    intros mn Hmn.
    rewrite (Hl (Store.mn_loc mn) (Store.OMatch (Store.mn_val mn))); [done|].
    do 3 right. apply list_elem_of_fmap. by exists mn.
Qed.

Lemma decodeTournament_nodes (F : Store.Heap) T :
  Store.treeN F (Store.nodesT T) ->
  Store.decodeTournament F (Store.tn_loc T) = Some (Store.erase T).
Proof.
  intros [_ Hl].
  unfold Store.decodeTournament, Store.decodeRounds, Store.decodeHistory,
    Store.nodesT in *.
  rewrite (Hl (Store.tn_loc T) _) by node_here.
  cbv beta iota. cbn [Store.tobj Store.o_rounds Store.o_history].
  rewrite (Hl (Store.tn_rl T) _) by node_here.
  rewrite (Hl (Store.tn_hl T) _) by node_here. cbv beta iota.
  assert (mapM (Store.decodeRound F) (Store.rn_loc <$> Store.tn_rounds T)
          = Some (Store.eraseR <$> Store.tn_rounds T)) as ->; [|done].
  apply mapM_Some. apply Forall2_fmap, Forall_Forall2_diag, Forall_forall.
  intros rn Hrn. apply decodeRound_nodes. intros l o Hin. apply Hl.
  do 3 right. apply list_elem_of_bind. by exists rn.
Qed.

(** ** Laying a value out in the store *)

Lemma wp_forEach_extends {A B} (f : A -> Store.M B)
    (P : A -> B -> list (Store.loc * Store.Obj) -> Prop) (xs : list A)
    (F : Store.Heap) (Q : Result (list B) -> Store.Heap -> Prop) :
  (forall x F1 Q1,
     (forall F2 b N, extends F1 F2 N -> P x b N -> Q1 (Ok b) F2) ->
     Store.wp (f x) F1 Q1) ->
  (forall F' bs Ns,
     extends F F' (concat Ns) -> Forall3 P xs bs Ns -> Q (Ok bs) F') ->
  Store.wp (Store.forEach f xs) F Q.
Proof.
  intros Hf. revert F Q. induction xs as [|x xs IH]; intros F Q HQ.
  - apply wp_ret. apply (HQ F [] []); [apply extends_refl | constructor].
  - cbn [Store.forEach]. apply wp_bind, Hf. intros F2 b N HE HP.
    apply wp_bind, IH. intros F' bs Ns HE' HPs.
    apply wp_ret. apply (HQ F' (b :: bs) (N :: Ns)).
    + simpl. by eapply extends_trans.
    + by constructor.
Qed.

Lemma wp_forEach_loadMatch ls ms (F : Store.Heap) Q :
  Forall2 (fun l m => F !! l = Some (Store.OMatch m)) ls ms ->
  Q (Ok ms) F ->
  Store.wp (Store.forEach Store.loadMatch ls) F Q.
Proof.
  intros H. revert Q. induction H as [|l m ls ms Hl _ IH]; intros Q HQ.
  - by apply wp_ret.
  - cbn [Store.forEach]. apply wp_bind. eapply wp_loadMatch; [done|].
    apply wp_bind, IH. by apply wp_ret.
Qed.

Lemma wp_parseMatches ms (F : Store.Heap) Q :
  (forall F' msN,
     extends F F' (Store.nodeM <$> msN) -> Store.mn_val <$> msN = ms ->
     Q (Ok (Store.mn_loc <$> msN)) F') ->
  Store.wp (Store.forEach Store.parseMatch ms) F Q.
Proof.
  intros HQ.
  apply (wp_forEach_extends _ (fun m l N => N = [(l, Store.OMatch m)])).
  - intros m F1 Q1 H1. apply wp_alloc. intros l Hl.
    apply (H1 _ l [(l, Store.OMatch m)]); [|done].
    apply extends_alloc; [apply extends_refl | done].
  - intros F' ls Ns HE H3.
    assert (exists msN, Store.mn_val <$> msN = ms /\ Store.mn_loc <$> msN = ls /\
                        Store.nodeM <$> msN = concat Ns) as (msN & E1 & E2 & E3).
    { clear HE HQ. induction H3 as [|m l N ms ls Ns -> _ (msN & E1 & E2 & E3)].
      - by exists [].
      - exists (Store.mkMatchN l m :: msN).
        rewrite !fmap_cons, E1, E2, E3. done. }
    subst ls. apply HQ; [by rewrite E3 | done].
Qed.

Lemma wp_parseRound r (F : Store.Heap) Q :
  (forall F' rn,
     extends F F' (Store.nodesR rn) -> Store.eraseR rn = r ->
     Q (Ok (Store.rn_loc rn)) F') ->
  Store.wp (Store.parseRound r) F Q.
Proof.
  intros HQ. destruct r as [ents|ents top q f|ents bye ms]; cbn [Store.parseRound].
  - apply wp_bind, wp_alloc. intros e He. apply wp_alloc. intros l Hl.
    apply (HQ _ (Store.NDone l e ents)); [|done]. simpl.
    by repeat (apply extends_alloc; [|done]); apply extends_refl.
  - apply wp_bind, wp_alloc. intros e He.
    apply wp_bind, wp_alloc. intros ql Hql.
    destruct f as [fm|].
    + apply wp_bind, wp_bind, wp_alloc. intros fl Hfl. apply wp_ret.
      apply wp_alloc. intros l Hl.
      apply (HQ _ (Store.NThree l e ents top (Store.mkMatchN ql q)
                     (Some (Store.mkMatchN fl fm)))); [|done].
      simpl. unfold Store.nodeM. simpl.
      eapply extends_perm;
        [|repeat (apply extends_alloc; [|done]); apply extends_refl].
      apply Permutation_cons; [done|]. exact (Permutation_rev [_; _; _]).
    + apply wp_bind, wp_ret. apply wp_alloc. intros l Hl.
      apply (HQ _ (Store.NThree l e ents top (Store.mkMatchN ql q) None)); [|done].
      simpl. unfold Store.nodeM. simpl.
      eapply extends_perm;
        [|repeat (apply extends_alloc; [|done]); apply extends_refl].
      apply Permutation_cons; [done|]. apply perm_swap.
  - apply wp_bind, wp_alloc. intros e He.
    apply wp_bind, wp_parseMatches. intros F1 msN HE1 Hms.
    apply wp_bind, wp_alloc. intros ml Hml. apply wp_alloc. intros l Hl.
    apply (HQ _ (Store.NNormal l e ents bye ml msN)); [|by rewrite <- Hms].
    simpl.
    assert (HE : extends F F1 ((e, Store.OSlots ents) :: (Store.nodeM <$> msN))).
    { eapply (extends_trans _ _ _ [_]); [|exact HE1].
      apply extends_alloc; [apply extends_refl | done]. }
    eapply extends_perm;
      [|repeat (apply extends_alloc; [|done]); exact HE].
    apply Permutation_cons; [done|]. apply perm_swap.
Qed.

Lemma wp_parseRounds rs (F : Store.Heap) Q :
  (forall F' rns,
     extends F F' (rns ≫= Store.nodesR) -> Store.eraseR <$> rns = rs ->
     Q (Ok (Store.rn_loc <$> rns)) F') ->
  Store.wp (Store.forEach Store.parseRound rs) F Q.
Proof.
  intros HQ.
  apply (wp_forEach_extends _
           (fun r l N => exists rn, Store.rn_loc rn = l /\ Store.eraseR rn = r /\
                                    N = Store.nodesR rn)).
  - intros r F1 Q1 H1. apply wp_parseRound. intros F2 rn HE Hr.
    apply (H1 _ _ (Store.nodesR rn)); [done|]. by exists rn.
  - intros F' ls Ns HE H3.
    assert (exists rns, Store.eraseR <$> rns = rs /\ Store.rn_loc <$> rns = ls /\
                        rns ≫= Store.nodesR = concat Ns) as (rns & E1 & E2 & E3).
    { clear HE HQ.
      induction H3 as [|r l N rs ls Ns (rn & <- & <- & ->) _ (rns & E1 & E2 & E3)].
      - by exists [].
      - exists (rn :: rns). rewrite !fmap_cons, E1, E2, bind_cons, E3. done. }
    subst ls. apply HQ; [by rewrite E3 | done].
Qed.

Lemma wp_parseTournament t (F : Store.Heap) Q :
  (forall F' T,
     extends F F' (Store.nodesT T) -> Store.erase T = t ->
     Q (Ok (Store.tn_loc T)) F') ->
  Store.wp (Store.parseTournament t) F Q.
Proof.
  intros HQ. unfold Store.parseTournament.
  apply wp_bind, wp_parseRounds. intros F1 rns HE1 Hrs.
  apply wp_bind, wp_alloc. intros rl Hrl.
  apply wp_bind, wp_alloc. intros hl Hhl.
  apply wp_alloc. intros tl Htl.
  apply (HQ _ (Store.mkTournamentN tl (roundIndex t) rl rns (cursor t)
                 (champion t) hl (history t))).
  - unfold Store.nodesT, Store.tobj. simpl.
    eapply extends_perm;
      [|repeat (apply extends_alloc; [|done]); exact HE1].
    apply Permutation_cons; [done|]. apply perm_swap.
  - unfold Store.erase. simpl. rewrite Hrs. by destruct t.
Qed.

(** [deepClone] of a snapshot whose value is [t]: a new snapshot of the
    same value, made of new objects only. *)
Lemma wp_deepClone l t (F : Store.Heap) Q :
  Store.decodeTournament F l = Some t ->
  (forall F' T,
     extends F F' (Store.nodesT T) -> Store.erase T = t ->
     Q (Ok (Store.tn_loc T)) F') ->
  Store.wp (Store.deepClone l) F Q.
Proof.
  intros Hd HQ. unfold Store.deepClone.
  apply wp_bind. eapply wp_stringify; [done|]. by apply wp_parseTournament.
Qed.

(** ** What a value read off the store says about the store *)

Lemma decodeSlots_inv (F : Store.Heap) l xs :
  Store.decodeSlots F l = Some xs -> F !! l = Some (Store.OSlots xs).
Proof.
  unfold Store.decodeSlots. destruct (F !! l) as [[]|]; try done. by intros [= ->].
Qed.

Lemma decodeMatch_inv (F : Store.Heap) l m :
  Store.decodeMatch F l = Some m -> F !! l = Some (Store.OMatch m).
Proof.
  unfold Store.decodeMatch. destruct (F !! l) as [[]|]; try done. by intros [= ->].
Qed.

Lemma decodeRound_inv (F : Store.Heap) l r :
  Store.decodeRound F l = Some r ->
  match r with
  | RDone ents =>
      exists e, F !! l = Some (Store.ORound (Store.ODone e)) /\
                F !! e = Some (Store.OSlots ents)
  | RThree ents top q f =>
      exists e ql fl,
        F !! l = Some (Store.ORound (Store.OThree e top ql fl)) /\
        F !! e = Some (Store.OSlots ents) /\
        F !! ql = Some (Store.OMatch q) /\
        match f, fl with
        | Some fm, Some fl' => F !! fl' = Some (Store.OMatch fm)
        | None, None => True
        | _, _ => False
        end
  | RNormal ents bye ms =>
      exists e ml mls,
        F !! l = Some (Store.ORound (Store.ONormal e bye ml)) /\
        F !! e = Some (Store.OSlots ents) /\
        F !! ml = Some (Store.OMatches mls) /\
        Forall2 (fun l m => F !! l = Some (Store.OMatch m)) mls ms
  end.
Proof.
  unfold Store.decodeRound.
  destruct (F !! l) as [[| |[e|e top q f|e bye ml]| | | |]|] eqn:El; try done.
  - destruct (Store.decodeSlots F e) as [xs|] eqn:Ee; [|done].
    intros [= <-]. exists e. split; [done|]. by apply decodeSlots_inv.
  - destruct (Store.decodeSlots F e) as [xs|] eqn:Ee; [|done]. simpl.
    destruct (Store.decodeMatch F q) as [qm|] eqn:Eq; [|done]. simpl.
    destruct f as [fl|].
    + destruct (Store.decodeMatch F fl) as [fm|] eqn:Ef; [|done]. simpl.
      intros [= <-]. exists e, q, (Some fl).
      split; [done|]. split; [by apply decodeSlots_inv|].
      split; by apply decodeMatch_inv.
    + simpl. intros [= <-]. exists e, q, None.
      split; [done|]. split; [by apply decodeSlots_inv|].
      split; [by apply decodeMatch_inv | done].
  - destruct (Store.decodeSlots F e) as [xs|] eqn:Ee; [|done]. simpl.
    unfold Store.decodeMatches.
    destruct (F !! ml) as [[| | |mls| | |]|] eqn:Eml; try done.
    destruct (mapM (Store.decodeMatch F) mls) as [ms|] eqn:Em; [|done]. simpl.
    intros [= <-]. exists e, ml, mls.
    split; [done|]. split; [by apply decodeSlots_inv|]. split; [done|].
    apply mapM_Some in Em. eapply Forall2_impl; [exact Em|].
    intros ? ?. apply decodeMatch_inv.
Qed.

Lemma decodeTournament_inv (F : Store.Heap) l t :
  Store.decodeTournament F l = Some t ->
  exists o ls,
    F !! l = Some (Store.OTournament o) /\
    F !! Store.o_rounds o = Some (Store.ORounds ls) /\
    Forall2 (fun l r => Store.decodeRound F l = Some r) ls (rounds t) /\
    F !! Store.o_history o = Some (Store.OHistory (history t)) /\
    roundIndex t = Store.o_roundIndex o /\
    cursor t = Store.o_cursor o /\ champion t = Store.o_champion o.
Proof.
  unfold Store.decodeTournament, Store.decodeRounds, Store.decodeHistory.
  destruct (F !! l) as [[o| | | | | |]|] eqn:El; try done.
  destruct (F !! Store.o_rounds o) as [[|ls| | | | |]|] eqn:Er; try done.
  destruct (mapM (Store.decodeRound F) ls) as [rs|] eqn:Em; [|done]. simpl.
  destruct (F !! Store.o_history o) as [[| | | | | |hs]|] eqn:Eh; try done.
  simpl. intros [= <-]. exists o, ls. simpl.
  repeat split; try done. by apply mapM_Some.
Qed.

Lemma wp_deriveCursor l t (F : Store.Heap) Q :
  Store.decodeTournament F l = Some t ->
  Q (Ok (deriveCursor t)) F ->
  Store.wp (Store.deriveCursor l) F Q.
Proof.
  intros Hd HQ.
  destruct (decodeTournament_inv _ _ _ Hd)
    as (o & ls & Hl & Hrl & Hrs & _ & Hidx & _).
  unfold Store.deriveCursor, deriveCursor in *.
  apply wp_bind. eapply wp_loadTournament; [done|].
  apply wp_bind. eapply wp_loadRounds; [done|].
  rewrite Hidx in HQ.
  destruct (ls !! Store.o_roundIndex o) as [rl|] eqn:Els.
  - destruct (Forall2_lookup_l _ _ _ _ _ Hrs Els) as (r & Hr & Hdr).
    rewrite Hr in HQ. apply decodeRound_inv in Hdr.
    destruct r as [ents|ents top q f|ents bye ms].
    + destruct Hdr as (e & Hrl' & _).
      apply wp_bind. eapply wp_loadRound; [done|]. by apply wp_ret.
    + destruct Hdr as (e & ql & fl & Hrl' & _ & Hq & Hf).
      apply wp_bind. eapply wp_loadRound; [done|].
      apply wp_bind. eapply wp_loadMatch; [done|].
      destruct (negb (truthy (m_winner q))); [by apply wp_ret|].
      destruct f as [fm|], fl as [fl|]; try done; [|by apply wp_ret].
      apply wp_bind. eapply wp_loadMatch; [done|].
      destruct (negb (truthy (m_winner fm))); by apply wp_ret.
    + destruct Hdr as (e & ml & mls & Hrl' & _ & Hml & Hms).
      apply wp_bind. eapply wp_loadRound; [done|].
      apply wp_bind. eapply wp_loadMatches; [done|].
      apply wp_bind. eapply wp_forEach_loadMatch; [done|].
      destruct (findIndex pending ms); by apply wp_ret.
  - assert (rounds t !! Store.o_roundIndex o = None) as Hn.
    { apply lookup_ge_None. apply lookup_ge_None in Els.
      by rewrite <- (Forall2_length _ _ _ Hrs). }
    rewrite Hn in HQ. by apply wp_ret.
Qed.

(** ** Round construction on the store *)

Lemma wp_sortByPopularityDesc l xs (F : Store.Heap) Q :
  F !! l = Some (Store.OSlots xs) ->
  (forall c, F !! c = None ->
     Q (Ok c) (<[c := Store.OSlots (sortByPopularityDesc xs)]> F)) ->
  Store.wp (Store.sortByPopularityDesc l) F Q.
Proof.
  intros Hl HQ. unfold Store.sortByPopularityDesc.
  apply wp_bind. eapply wp_loadSlots; [done|].
  apply wp_bind, wp_alloc. intros c Hc.
  apply wp_bind, wp_store; [by rewrite lookup_insert_eq|].
  apply wp_ret. rewrite insert_insert_eq. by apply HQ.
Qed.

Lemma wp_pairLoop F0 matches pool idxs (F : Store.Heap) N ls0 Q :
  extends F0 F ((matches, Store.OMatches ls0) :: N) ->
  (forall F' msN,
     extends F0 F'
       ((matches, Store.OMatches (ls0 ++ (Store.mn_loc <$> msN)))
        :: (Store.nodeM <$> msN) ++ N) ->
     Store.mn_val <$> msN = pairAt pool <$> idxs ->
     Q (Ok tt) F') ->
  Store.wp (Store.pairLoop matches pool idxs) F Q.
Proof.
  revert F N ls0. induction idxs as [|i idxs IH]; intros F N ls0 HE HQ.
  - apply wp_ret. apply (HQ F []); [|done]. simpl. by rewrite app_nil_r.
  - cbn [Store.pairLoop]. apply wp_bind, wp_alloc. intros m Hm.
    pose proof (extends_alloc _ _ _ m (Store.OMatch (pairAt pool i)) HE Hm) as HE1.
    apply wp_bind. eapply wp_loadMatches.
    { eapply extends_lookup; [exact HE1|]. node_here. }
    apply wp_bind, wp_store.
    { exists (Store.OMatches ls0). eapply extends_lookup; [exact HE1|]. node_here. }
    eapply (IH _ ((m, Store.OMatch (pairAt pool i)) :: N) (ls0 ++ [m])).
    + eapply extends_store. eapply extends_perm; [|exact HE1]. apply perm_swap.
    + intros F' msN HE' Hv.
      apply (HQ F' (Store.mkMatchN m (pairAt pool i) :: msN)).
      * rewrite !fmap_cons. cbn [Store.mn_loc Store.nodeM Store.mn_val].
        rewrite <- app_assoc in HE'. simpl in HE'.
        eapply extends_perm; [|exact HE'].
        apply Permutation_cons; [done|]. simpl.
        by rewrite <- Permutation_middle.
      * rewrite !fmap_cons. simpl. by rewrite Hv.
Qed.

(** [makeRound] on the store builds, out of new objects only, a round whose
    value is the round [makeRound] of the model builds; the array it is given
    stays as it is. *)
Lemma wp_makeRound le xs (F : Store.Heap) Q :
  F !! le = Some (Store.OSlots xs) ->
  (forall F' rn,
     extends F F' (Store.nodesR rn) -> Store.eraseR rn = makeRound xs ->
     Q (Ok (Store.rn_loc rn)) F') ->
  Store.wp (Store.makeRound le) F Q.
Proof.
  intros Hle HQ. unfold Store.makeRound, makeRound, alive in *.
  apply wp_bind. eapply wp_loadSlots; [done|].
  apply wp_bind, wp_alloc. intros al Hal.
  pose proof (extends_alloc _ _ _ al (Store.OSlots (List.filter truthy xs)) (extends_refl F) Hal)
    as HE0.
  apply wp_bind. eapply wp_loadSlots; [by rewrite lookup_insert_eq|].
  destruct (length (List.filter truthy xs) <=? 1).
  { apply wp_alloc. intros l Hl.
    apply (HQ _ (Store.NDone l al (List.filter truthy xs))); [|done].
    by apply extends_alloc. }
  destruct (length (List.filter truthy xs) =? 3).
  { apply wp_bind. eapply wp_sortByPopularityDesc; [by rewrite lookup_insert_eq|].
    intros c Hc.
    pose proof (extends_alloc _ _ _ c
                  (Store.OSlots (sortByPopularityDesc (List.filter truthy xs))) HE0 Hc) as HE1.
    apply wp_bind. eapply wp_loadSlots; [by rewrite lookup_insert_eq|].
    apply wp_bind, wp_alloc. intros q Hq.
    apply wp_alloc. intros l Hl.
    set (s := sortByPopularityDesc (List.filter truthy xs)) in *.
    apply (HQ _ (Store.NThree l c s (at_ s 0)
                   (Store.mkMatchN q (mkMatch (at_ s 1) (at_ s 2) None None))
                   None)); [|done].
    eapply extends_submseteq;
      [|do 2 (apply extends_alloc; [|done]); exact HE1].
    simpl. unfold Store.nodeM. simpl. solve_submseteq. }
  apply wp_bind. eapply wp_sortByPopularityDesc; [by rewrite lookup_insert_eq|].
  intros c Hc.
  pose proof (extends_alloc _ _ _ c
                (Store.OSlots (sortByPopularityDesc (List.filter truthy xs))) HE0 Hc) as HE1.
  apply wp_bind. eapply wp_loadSlots; [by rewrite lookup_insert_eq|].
  set (s := sortByPopularityDesc (List.filter truthy xs)) in *.
  destruct (length s mod 2 =? 1).
  - apply wp_bind, wp_bind, wp_alloc. intros p Hp. apply wp_ret.
    cbn [fst snd].
    pose proof (extends_alloc _ _ _ p (Store.OSlots (drop 1 s)) HE1 Hp) as HE2.
    apply wp_bind. eapply wp_loadSlots; [by rewrite lookup_insert_eq|].
    apply wp_bind, wp_alloc. intros ml Hml.
    pose proof (extends_alloc _ _ _ ml (Store.OMatches []) HE2 Hml) as HE3.
    apply wp_bind. eapply wp_pairLoop; [exact HE3|].
    intros F' msN HE' Hv. simpl in HE'.
    apply wp_alloc. intros l Hl.
    apply (HQ _ (Store.NNormal l c s (at_ s 0) ml msN)).
    + eapply extends_submseteq; [|apply extends_alloc; [exact HE'|done]].
      simpl. solve_submseteq.
    + simpl. by rewrite Hv.
  - apply wp_bind, wp_ret. cbn [fst snd].
    apply wp_bind. eapply wp_loadSlots; [by rewrite lookup_insert_eq|].
    apply wp_bind, wp_alloc. intros ml Hml.
    pose proof (extends_alloc _ _ _ ml (Store.OMatches []) HE1 Hml) as HE3.
    apply wp_bind. eapply wp_pairLoop; [exact HE3|].
    intros F' msN HE' Hv. simpl in HE'.
    apply wp_alloc. intros l Hl.
    apply (HQ _ (Store.NNormal l c s None ml msN)).
    + eapply extends_submseteq; [|apply extends_alloc; [exact HE'|done]].
      simpl. solve_submseteq.
    + simpl. by rewrite Hv.
Qed.

(** The winners of a round, gathered in a new array. *)
Lemma wp_collectWinners bye ms (F : Store.Heap) Q :
  (forall F' w,
     extends F F' [(w, Store.OSlots (collectWinners bye ms))] ->
     Q (Ok w) F') ->
  Store.wp (Store.collectWinners bye ms) F Q.
Proof.
  intros HQ. unfold Store.collectWinners, collectWinners in *.
  apply wp_bind, wp_alloc. intros mp Hmp.
  pose proof (extends_alloc _ _ _ mp (Store.OSlots (m_winner <$> ms))
                (extends_refl F) Hmp) as HE0.
  apply wp_bind. eapply wp_loadSlots; [by rewrite lookup_insert_eq|].
  apply wp_bind, wp_alloc. intros w Hw.
  pose proof (extends_alloc _ _ _ w
                (Store.OSlots (List.filter truthy (m_winner <$> ms))) HE0 Hw) as HE1.
  destruct (truthy bye).
  - apply wp_bind, wp_bind. eapply wp_loadSlots; [by rewrite lookup_insert_eq|].
    apply wp_store; [by rewrite lookup_insert_eq|].
    apply wp_ret. apply HQ.
    eapply extends_submseteq; [|eapply extends_store; exact HE1].
    solve_submseteq.
  - apply wp_bind, wp_ret, wp_ret. apply HQ.
    eapply extends_submseteq; [|exact HE1]. solve_submseteq.
Qed.

(** ** Writing into a snapshot *)

Lemma treeN_update F N N' K l o o' :
  Store.treeN F N -> N ≡ₚ (l, o) :: K -> N' ⊆+ (l, o') :: K ->
  Store.treeN (<[l := o']> F) N' /\ F !! l = Some o.
Proof.
  intros HT HP Hsub. apply (treeN_perm _ _ _ HP) in HT. split.
  - apply submseteq_Permutation in Hsub as [K' HP'].
    apply (treeN_store _ _ _ _ o') in HT.
    apply (treeN_perm _ _ _ HP') in HT. by eapply treeN_app_l.
  - eapply treeN_lookup; [done|]. by left.
Qed.

Lemma tree_fields F T X i c ch :
  Store.treeN F (Store.nodesT T ++ X) ->
  Store.treeN
    (<[Store.tn_loc T := Store.OTournament (Store.tobj (tn_with_fields i c ch T))]> F)
    (Store.nodesT (tn_with_fields i c ch T) ++ X)
  /\ F !! Store.tn_loc T = Some (Store.OTournament (Store.tobj T)).
Proof.
  intros HT. eapply treeN_update; [exact HT| |]; unfold Store.nodesT; simpl; done.
Qed.

Lemma tree_history F T X hs :
  Store.treeN F (Store.nodesT T ++ X) ->
  Store.treeN (<[Store.tn_hl T := Store.OHistory hs]> F)
    (Store.nodesT (tn_set_history hs T) ++ X)
  /\ F !! Store.tn_hl T = Some (Store.OHistory (Store.tn_history T)).
Proof.
  intros HT.
  eapply (treeN_update _ _ _
            ((Store.tn_loc T, Store.OTournament (Store.tobj T))
             :: (Store.tn_rl T, Store.ORounds (Store.rn_loc <$> Store.tn_rounds T))
             :: (Store.tn_rounds T ≫= Store.nodesR) ++ X));
    [exact HT| |]; unfold Store.nodesT, Store.tobj; simpl.
  - solve_Permutation.
  - solve_submseteq.
Qed.

Lemma tree_push_round F T X rn :
  Store.treeN F (Store.nodesT T ++ Store.nodesR rn ++ X) ->
  Store.treeN
    (<[Store.tn_rl T :=
         Store.ORounds ((Store.rn_loc <$> Store.tn_rounds T) ++ [Store.rn_loc rn])]> F)
    (Store.nodesT (tn_set_rounds (Store.tn_rounds T ++ [rn]) T) ++ X)
  /\ F !! Store.tn_rl T = Some (Store.ORounds (Store.rn_loc <$> Store.tn_rounds T)).
Proof.
  intros HT.
  eapply (treeN_update _ _ _
            ((Store.tn_loc T, Store.OTournament (Store.tobj T))
             :: (Store.tn_hl T, Store.OHistory (Store.tn_history T))
             :: (Store.tn_rounds T ≫= Store.nodesR) ++ Store.nodesR rn ++ X));
    [exact HT| |]; unfold Store.nodesT, Store.tobj; simpl.
  - solve_Permutation.
  - rewrite fmap_app, bind_app. simpl. rewrite app_nil_r. solve_submseteq.
Qed.

(** The objects of a snapshot, with those of its round [i] in front. *)
Lemma nodesT_round T i rn rn' :
  Store.tn_rounds T !! i = Some rn -> Store.rn_loc rn' = Store.rn_loc rn ->
  exists K,
    Store.nodesT T ≡ₚ Store.nodesR rn ++ K /\
    Store.nodesT (tn_set_rounds (<[i := rn']> (Store.tn_rounds T)) T)
    ≡ₚ Store.nodesR rn' ++ K.
Proof.
  intros Hi Hloc.
  pose proof (take_drop_middle _ _ _ Hi) as Hsplit.
  assert (Hlt : i < length (Store.tn_rounds T)) by by eapply lookup_lt_Some.
  exists ((Store.tn_loc T, Store.OTournament (Store.tobj T))
          :: (Store.tn_rl T, Store.ORounds (Store.rn_loc <$> Store.tn_rounds T))
          :: (Store.tn_hl T, Store.OHistory (Store.tn_history T))
          :: (take i (Store.tn_rounds T) ≫= Store.nodesR)
          ++ (drop (S i) (Store.tn_rounds T) ≫= Store.nodesR)).
  assert (Hb : Store.tn_rounds T ≫= Store.nodesR
               = (take i (Store.tn_rounds T) ≫= Store.nodesR)
                 ++ Store.nodesR rn
                 ++ (drop (S i) (Store.tn_rounds T) ≫= Store.nodesR)).
  { rewrite <- Hsplit at 1. by rewrite bind_app, bind_cons. }
  unfold Store.nodesT. split.
  - rewrite Hb. solve_Permutation.
  - cbn [tn_set_rounds Store.tn_rounds Store.tn_loc Store.tn_rl Store.tn_hl
         Store.tn_history Store.tobj Store.tn_roundIndex Store.tn_cursor
         Store.tn_champion].
    rewrite list_fmap_insert, Hloc.
    rewrite (list_insert_id (Store.rn_loc <$> Store.tn_rounds T))
      by (by rewrite list_lookup_fmap, Hi).
    rewrite insert_take_drop by done. rewrite bind_app, bind_cons.
    solve_Permutation.
Qed.

Lemma tree_round_update F T X i rn rn' K l o o' :
  Store.treeN F (Store.nodesT T ++ X) ->
  Store.tn_rounds T !! i = Some rn -> Store.rn_loc rn' = Store.rn_loc rn ->
  Store.nodesR rn ≡ₚ (l, o) :: K ->
  Store.nodesR rn' ⊆+ (l, o') :: K ->
  Store.treeN (<[l := o']> F)
    (Store.nodesT (tn_set_rounds (<[i := rn']> (Store.tn_rounds T)) T) ++ X)
  /\ F !! l = Some o.
Proof.
  intros HT Hi Hloc HP Hsub.
  destruct (nodesT_round T i rn rn' Hi Hloc) as (K' & HP1 & HP2).
  eapply (treeN_update _ _ _ (K ++ K' ++ X)); [exact HT| |].
  - rewrite HP1, HP. solve_Permutation.
  - rewrite HP2, <- app_assoc.
    apply (submseteq_app _ ((l, o') :: K) _ (K' ++ X)); [exact Hsub | done].
Qed.

Lemma tree_tl F T X :
  Store.treeN F (Store.nodesT T ++ X) ->
  F !! Store.tn_loc T = Some (Store.OTournament (Store.tobj T)).
Proof. intros HT. eapply treeN_lookup; [exact HT|]. unfold Store.nodesT. node_here. Qed.

Lemma tree_rl F T X :
  Store.treeN F (Store.nodesT T ++ X) ->
  F !! Store.tn_rl T = Some (Store.ORounds (Store.rn_loc <$> Store.tn_rounds T)).
Proof. intros HT. eapply treeN_lookup; [exact HT|]. unfold Store.nodesT. node_here. Qed.

Lemma tree_round_node F T X i rn l o :
  Store.treeN F (Store.nodesT T ++ X) ->
  Store.tn_rounds T !! i = Some rn -> (l, o) ∈ Store.nodesR rn ->
  F !! l = Some o.
Proof.
  intros HT Hi Hin. eapply treeN_lookup; [exact HT|].
  apply elem_of_app. left. unfold Store.nodesT. do 3 right.
  apply list_elem_of_bind. exists rn. split; [done|].
  by eapply list_elem_of_lookup_2.
Qed.

Lemma tree_decode F T X :
  Store.treeN F (Store.nodesT T ++ X) ->
  Store.decodeTournament F (Store.tn_loc T) = Some (Store.erase T).
Proof. intros HT. by eapply decodeTournament_nodes, treeN_app_l. Qed.

Lemma wp_setCursor_T T X c (F : Store.Heap) Q :
  Store.treeN F (Store.nodesT T ++ X) ->
  (forall F',
     Store.treeN F'
       (Store.nodesT (tn_with_fields (Store.tn_roundIndex T) c (Store.tn_champion T) T)
        ++ X) ->
     Q (Ok tt) F') ->
  Store.wp (Store.setCursor (Store.tn_loc T) c) F Q.
Proof.
  intros HT HQ. unfold Store.setCursor.
  destruct (tree_fields _ _ _ (Store.tn_roundIndex T) c (Store.tn_champion T) HT)
    as [HT' Hl].
  apply wp_bind. eapply wp_loadTournament; [exact Hl|].
  apply wp_store; [by (eexists; exact Hl)|]. by apply HQ.
Qed.

Lemma wp_setChampion_T T X w (F : Store.Heap) Q :
  Store.treeN F (Store.nodesT T ++ X) ->
  (forall F',
     Store.treeN F'
       (Store.nodesT (tn_with_fields (Store.tn_roundIndex T) (Store.tn_cursor T) w T)
        ++ X) ->
     Q (Ok tt) F') ->
  Store.wp (Store.setChampion (Store.tn_loc T) w) F Q.
Proof.
  intros HT HQ. unfold Store.setChampion.
  destruct (tree_fields _ _ _ (Store.tn_roundIndex T) (Store.tn_cursor T) w HT)
    as [HT' Hl].
  apply wp_bind. eapply wp_loadTournament; [exact Hl|].
  apply wp_store; [by (eexists; exact Hl)|]. by apply HQ.
Qed.

Lemma wp_setRoundIndex_T T X i (F : Store.Heap) Q :
  Store.treeN F (Store.nodesT T ++ X) ->
  (forall F',
     Store.treeN F'
       (Store.nodesT (tn_with_fields i (Store.tn_cursor T) (Store.tn_champion T) T)
        ++ X) ->
     Q (Ok tt) F') ->
  Store.wp (Store.setRoundIndex (Store.tn_loc T) i) F Q.
Proof.
  intros HT HQ. unfold Store.setRoundIndex.
  destruct (tree_fields _ _ _ i (Store.tn_cursor T) (Store.tn_champion T) HT)
    as [HT' Hl].
  apply wp_bind. eapply wp_loadTournament; [exact Hl|].
  apply wp_store; [by (eexists; exact Hl)|]. by apply HQ.
Qed.

Lemma wp_pushHistory_T T X e (F : Store.Heap) Q :
  Store.treeN F (Store.nodesT T ++ X) ->
  (forall F',
     Store.treeN F'
       (Store.nodesT (tn_set_history (Store.tn_history T ++ [e]) T) ++ X) ->
     Q (Ok tt) F') ->
  Store.wp (Store.pushHistory (Store.tn_loc T) e) F Q.
Proof.
  intros HT HQ. unfold Store.pushHistory.
  destruct (tree_history _ _ _ (Store.tn_history T ++ [e]) HT) as [HT' Hl].
  apply wp_bind. eapply wp_loadTournament; [by eapply tree_tl|].
  apply wp_bind. eapply wp_loadHistory; [exact Hl|].
  apply wp_store; [by (eexists; exact Hl)|]. by apply HQ.
Qed.

Lemma wp_pushRound_T T X rn (F : Store.Heap) Q :
  Store.treeN F (Store.nodesT T ++ Store.nodesR rn ++ X) ->
  (forall F',
     Store.treeN F'
       (Store.nodesT (tn_set_rounds (Store.tn_rounds T ++ [rn]) T) ++ X) ->
     Q (Ok tt) F') ->
  Store.wp (Store.pushRound (Store.tn_loc T) (Store.rn_loc rn)) F Q.
Proof.
  intros HT HQ. unfold Store.pushRound.
  destruct (tree_push_round _ _ _ _ HT) as [HT' Hl].
  apply wp_bind. eapply wp_loadTournament; [by eapply tree_tl|].
  apply wp_bind. eapply wp_loadRounds; [exact Hl|].
  apply wp_store; [by (eexists; exact Hl)|]. by apply HQ.
Qed.

Lemma wp_setWinner_T T X i rn rn' K lm m w (F : Store.Heap) Q :
  Store.treeN F (Store.nodesT T ++ X) ->
  Store.tn_rounds T !! i = Some rn -> Store.rn_loc rn' = Store.rn_loc rn ->
  Store.nodesR rn ≡ₚ (lm, Store.OMatch m) :: K ->
  Store.nodesR rn' ⊆+ (lm, Store.OMatch (set_winner w m)) :: K ->
  (forall F',
     Store.treeN F'
       (Store.nodesT (tn_set_rounds (<[i := rn']> (Store.tn_rounds T)) T) ++ X) ->
     Q (Ok tt) F') ->
  Store.wp (Store.setWinner lm w) F Q.
Proof.
  intros HT Hi Hloc HP Hsub HQ. unfold Store.setWinner.
  destruct (tree_round_update _ _ _ _ _ _ _ _ _ (Store.OMatch (set_winner w m))
              HT Hi Hloc HP Hsub) as [HT' Hl].
  apply wp_bind. eapply wp_loadMatch; [exact Hl|].
  apply wp_store; [by (eexists; exact Hl)|]. by apply HQ.
Qed.

Lemma wp_setFinal_T T X i lr e ents top q f fl fm (F : Store.Heap) Q :
  Store.treeN F (Store.nodesT T ++ (fl, Store.OMatch fm) :: X) ->
  Store.tn_rounds T !! i = Some (Store.NThree lr e ents top q f) ->
  (forall F',
     Store.treeN F'
       (Store.nodesT
          (tn_set_rounds
             (<[i := Store.NThree lr e ents top q (Some (Store.mkMatchN fl fm))]>
                (Store.tn_rounds T)) T) ++ X) ->
     Q (Ok tt) F') ->
  Store.wp (Store.setFinal lr fl) F Q.
Proof.
  intros HT Hi HQ. unfold Store.setFinal.
  set (rn := Store.NThree lr e ents top q f) in *.
  set (rn' := Store.NThree lr e ents top q (Some (Store.mkMatchN fl fm))).
  destruct (nodesT_round T i rn rn' Hi eq_refl) as (K' & HP1 & HP2).
  set (K0 := (e, Store.OSlots ents) :: Store.nodeM q
             :: match f with Some fo => [Store.nodeM fo] | None => [] end).
  destruct (treeN_update F _
              (Store.nodesT (tn_set_rounds (<[i := rn']> (Store.tn_rounds T)) T) ++ X)
              (K0 ++ K' ++ (fl, Store.OMatch fm) :: X) lr
              (Store.ORound (Store.robj rn))
              (Store.ORound (Store.robj rn')) HT) as [HT' Hl].
  - rewrite HP1. unfold rn, K0. simpl. solve_Permutation.
  - rewrite HP2. unfold rn', K0. simpl. unfold Store.nodeM at 2. simpl.
    solve_submseteq.
  - apply wp_bind. eapply wp_loadRound; [exact Hl|]. simpl.
    apply wp_store; [by (eexists; exact Hl)|]. by apply HQ.
Qed.

(** ** Fast-forward on the store *)

Lemma tree_matches F T X i l e ents bye ml ms :
  Store.treeN F (Store.nodesT T ++ X) ->
  Store.tn_rounds T !! i = Some (Store.NNormal l e ents bye ml ms) ->
  Forall2 (fun l m => F !! l = Some (Store.OMatch m))
    (Store.mn_loc <$> ms) (Store.mn_val <$> ms).
Proof.
  intros HT Hi. apply Forall2_fmap, Forall_Forall2_diag, Forall_forall.
  intros mn Hmn. eapply tree_round_node; [exact HT|exact Hi|].
  simpl. do 3 right. apply list_elem_of_fmap. by exists mn.
Qed.

Lemma treeN_nil_r F N : Store.treeN F N -> Store.treeN F (N ++ []).
Proof. by rewrite app_nil_r. Qed.

Lemma treeN_nil_r_inv F N : Store.treeN F (N ++ []) -> Store.treeN F N.
Proof. by rewrite app_nil_r. Qed.

Lemma treeN_drop_tail F N X : Store.treeN F (N ++ X) -> Store.treeN F N.
Proof. apply treeN_app_l. Qed.

Lemma ffBody_erase T :
  ffBody (Store.erase T) =
    let T1 := tn_with_fields (Store.tn_roundIndex T)
                (deriveCursor (Store.erase T)) (Store.tn_champion T) T in
    let t := Store.erase T1 in
    match Store.tn_rounds T !! Store.tn_roundIndex T with
    | None => Break t
    | Some rn =>
        if bool_decide (is_Some (deriveCursor (Store.erase T))) then Break t
        else match Store.eraseR rn with
             | RNormal _ bye ms =>
                 if negb (forallb decided ms) then Break t
                 else
                   let winners := collectWinners bye ms in
                   if length winners =? 1
                   then Break (set_champion (at_ winners 0) t)
                   else
                     Continue (set_rounds (rounds t ++ [makeRound winners])
                                 (set_roundIndex (roundIndex t + 1) t))
             | RThree _ _ _ _ => Break t
             | RDone ents =>
                 if length ents =? 1
                 then Break (set_champion (at_ ents 0) t)
                 else Break t
             end
    end.
Proof.
  unfold ffBody. cbn [Store.erase set_cursor rounds roundIndex cursor
                      tn_with_fields Store.tn_roundIndex Store.tn_rounds
                      Store.tn_cursor Store.tn_champion Store.tn_history].
  rewrite list_lookup_fmap.
  by destruct (Store.tn_rounds T !! Store.tn_roundIndex T).
Qed.

Lemma wp_ffBody T X (F : Store.Heap) Q :
  Store.treeN F (Store.nodesT T ++ X) ->
  (forall F' T',
     Store.treeN F' (Store.nodesT T' ++ X) ->
     Store.tn_loc T' = Store.tn_loc T ->
     (ffBody (Store.erase T) = Break (Store.erase T') -> Q (Ok Store.Break) F') /\
     (ffBody (Store.erase T) = Continue (Store.erase T') -> Q (Ok Store.Continue) F')) ->
  Store.wp (Store.ffBody (Store.tn_loc T)) F Q.
Proof.
  intros HT HQ. unfold Store.ffBody.
  apply wp_bind. eapply wp_deriveCursor; [by eapply tree_decode|].
  apply wp_bind. eapply wp_setCursor_T; [exact HT|]. intros F1 HT1.
  pose proof (ffBody_erase T) as Hpure. cbv zeta in Hpure.
  set (T1 := tn_with_fields (Store.tn_roundIndex T)
               (deriveCursor (Store.erase T)) (Store.tn_champion T) T) in *.
  assert (Hloc1 : Store.tn_loc T1 = Store.tn_loc T) by done.
  apply wp_bind. eapply wp_loadTournament; [by eapply (tree_tl _ T1)|].
  apply wp_bind. eapply wp_loadRounds; [by eapply (tree_rl _ T1)|].
  cbn [Store.tobj Store.o_roundIndex Store.o_cursor T1 tn_with_fields
       Store.tn_roundIndex Store.tn_cursor Store.tn_rounds].
  rewrite list_lookup_fmap.
  destruct (Store.tn_rounds T !! Store.tn_roundIndex T) as [rn|] eqn:Hrn;
    cbn [fmap option_fmap option_map].
  2:{ apply wp_ret. by apply (HQ F1 T1 HT1 Hloc1). }
  destruct (bool_decide (is_Some (deriveCursor (Store.erase T)))).
  { apply wp_ret. by apply (HQ F1 T1 HT1 Hloc1). }
  assert (Hrn1 : Store.tn_rounds T1 !! Store.tn_roundIndex T = Some rn) by done.
  apply wp_bind. eapply (wp_loadRound _ (Store.robj rn)).
  { eapply (tree_round_node _ T1); [exact HT1|exact Hrn1|].
    destruct rn; simpl; node_here. }
  destruct rn as [l e ents|l e ents top q f|l e ents bye ml ms];
    cbn [Store.robj Store.eraseR] in *.
  - (* done *)
    apply wp_bind. eapply wp_loadSlots.
    { eapply (tree_round_node _ T1); [exact HT1|exact Hrn1|]. simpl. node_here. }
    destruct (length ents =? 1).
    + apply wp_bind. eapply (wp_setChampion_T T1 X); [exact HT1|]. intros F2 HT2.
      apply wp_ret. by apply (HQ F2 _ HT2).
    + apply wp_bind, wp_ret, wp_ret. by apply (HQ F1 T1 HT1 Hloc1).
  - (* three *)
    apply wp_ret. by apply (HQ F1 T1 HT1 Hloc1).
  - (* normal *)
    apply wp_bind. eapply wp_loadMatches.
    { eapply (tree_round_node _ T1); [exact HT1|exact Hrn1|]. simpl. node_here. }
    apply wp_bind. eapply wp_forEach_loadMatch.
    { eapply (tree_matches _ T1); [exact HT1|exact Hrn1]. }
    destruct (negb (forallb decided (Store.mn_val <$> ms))).
    { apply wp_ret. by apply (HQ F1 T1 HT1 Hloc1). }
    apply wp_bind, wp_collectWinners. intros F2 w HE2.
    pose proof (treeN_app_fresh _ _ _ _ HT1 HE2) as HT2.
    apply wp_bind. eapply wp_loadSlots.
    { eapply extends_lookup; [exact HE2|]. node_here. }
    set (cw := collectWinners bye (Store.mn_val <$> ms)) in *.
    destruct (length cw =? 1).
    + apply wp_bind.
      eapply (wp_setChampion_T T1 (X ++ [(w, Store.OSlots cw)]));
        [rewrite <- app_assoc in HT2; exact HT2|].
      intros F3 HT3. apply wp_ret.
      rewrite app_assoc in HT3. apply treeN_drop_tail in HT3.
      by apply (HQ F3 _ HT3).
    + apply wp_bind. eapply wp_makeRound.
      { eapply extends_lookup; [exact HE2|]. node_here. }
      intros F3 rnew HE3 Hnew.
      pose proof (treeN_app_fresh _ _ _ _ HT2 HE3) as HT3.
      apply wp_bind.
      eapply (wp_setRoundIndex_T T1
                (Store.nodesR rnew ++ X ++ [(w, Store.OSlots cw)])).
      { eapply treeN_perm; [|exact HT3]. solve_Permutation. }
      intros F4 HT4.
      apply wp_bind.
      eapply (wp_pushRound_T (tn_with_fields _ _ _ T1)
                (X ++ [(w, Store.OSlots cw)]) rnew); [exact HT4|].
      intros F5 HT5. apply wp_ret.
      rewrite app_assoc in HT5. apply treeN_drop_tail in HT5.
      apply (HQ F5 _ HT5); [done|]. rewrite Hpure.
      unfold Store.erase. simpl. rewrite fmap_app. simpl. by rewrite Hnew.
Qed.

Lemma wp_ffLoop fuel T X (F : Store.Heap) Q :
  Store.treeN F (Store.nodesT T ++ X) ->
  (forall F' T',
     Store.treeN F' (Store.nodesT T' ++ X) ->
     Store.tn_loc T' = Store.tn_loc T ->
     ffLoop fuel (Store.erase T) = Some (Store.erase T') ->
     Q (Ok tt) F') ->
  (ffLoop fuel (Store.erase T) = None -> Q (Fail OutOfFuel) ∅) ->
  Store.wp (Store.ffLoop fuel (Store.tn_loc T)) F Q.
Proof.
  revert T F. induction fuel as [|fuel IH]; intros T F HT HQ HQf.
  - apply wp_fail. by apply HQf.
  - cbn [Store.ffLoop ffLoop] in *.
    apply wp_bind. eapply wp_loadTournament; [by eapply tree_tl|].
    cbn [Store.tobj Store.o_champion].
    change (champion (Store.erase T)) with (Store.tn_champion T) in *.
    destruct (truthy (Store.tn_champion T)).
    { apply wp_ret. by apply (HQ F T). }
    apply wp_bind. eapply wp_ffBody; [exact HT|]. intros F1 T1 HT1 Hloc1. split.
    + intros Hb. rewrite Hb in HQ. apply wp_ret. by apply (HQ F1 T1).
    + intros Hb. rewrite Hb in HQ, HQf. rewrite <- Hloc1.
      apply IH; [done| |done].
      intros F2 T2 HT2 Hloc2 H2. apply (HQ F2 T2); [done| |done]. congruence.
Qed.

Lemma wp_fastForwardCloned T (F : Store.Heap) Q :
  Store.treeN F (Store.nodesT T) ->
  (forall F' T' t',
     fastForwardIfNeeded (Store.erase T) = Ok t' ->
     Store.treeN F' (Store.nodesT T') -> Store.erase T' = t' ->
     Q (Ok (Store.tn_loc T')) F') ->
  (forall e, fastForwardIfNeeded (Store.erase T) = Fail e -> Q (Fail e) ∅) ->
  Store.wp (Store.fastForwardCloned (Store.tn_loc T)) F Q.
Proof.
  intros HT0 HQ HQf. unfold Store.fastForwardCloned, fastForwardIfNeeded in *.
  unfold deepClone in *. apply treeN_nil_r in HT0.
  apply wp_bind. eapply wp_loadTournament; [by eapply tree_tl|].
  apply wp_bind. eapply wp_loadRounds; [by eapply tree_rl|].
  cbn [Store.tobj Store.o_roundIndex].
  assert (Hfuel : S (length (Store.rn_loc <$> Store.tn_rounds T)
                     - Store.tn_roundIndex T) = ffFuel (Store.erase T)).
  { unfold ffFuel, Store.erase. simpl. by rewrite !length_fmap. }
  rewrite Hfuel.
  apply wp_bind. eapply wp_ffLoop; [exact HT0| |].
  - intros F2 T2 HT2 Hloc2 Hloop. rewrite Hloop in HQ.
    rewrite <- Hloc2.
    apply wp_bind. eapply wp_deriveCursor; [by eapply tree_decode|].
    apply wp_bind. eapply (wp_setCursor_T T2 []); [exact HT2|]. intros F3 HT3.
    apply wp_ret. rewrite app_nil_r in HT3.
    eapply (HQ F3 _ _ eq_refl HT3). reflexivity.
  - intros Hn. rewrite Hn in HQf. by apply HQf.
Qed.

(** [fastForwardIfNeeded] on a snapshot of value [t]: a new snapshot whose
    value is what the model computes from [t]. *)
Lemma wp_fastForwardIfNeeded l t (F : Store.Heap) Q :
  Store.decodeTournament F l = Some t ->
  (forall F' T' t',
     fastForwardIfNeeded t = Ok t' ->
     Store.treeN F' (Store.nodesT T') -> Store.erase T' = t' ->
     Q (Ok (Store.tn_loc T')) F') ->
  (forall e, fastForwardIfNeeded t = Fail e -> Q (Fail e) ∅) ->
  Store.wp (Store.fastForwardIfNeeded l) F Q.
Proof.
  intros Hd HQ HQf. unfold Store.fastForwardIfNeeded.
  apply wp_bind. eapply wp_deepClone; [done|]. intros F1 T0 HE0 Ht0. subst t.
  apply wp_fastForwardCloned; [apply HE0|done|done].
Qed.

(** ** Picks on the store *)

Lemma applyPick_erase T s :
  applyPick (Store.erase T) s =
    let t := Store.erase T in
    match Store.tn_cursor T with
    | None => Ok t
    | Some cur =>
      match Store.tn_rounds T !! Store.tn_roundIndex T with
      | None => Ok t
      | Some rn =>
        match cur with
        | CSpecial _ three =>
            match Store.eraseR rn with
            | RThree ents top m fin =>
                match pickOf s m with
                | None => Ok t
                | Some w =>
                    let m' := set_winner (Some w) m in
                    let t1 := push_history (HStage (roundIndex t) three (eid w)) t in
                    let round' :=
                      RThree ents top m' (Some (mkMatch top (Some w) None None)) in
                    let t2 := set_rounds (<[roundIndex t := round']> (rounds t1)) t1 in
                    Ok (set_cursor (deriveCursor t2) t2)
                end
            | _ => Fail TypeError
            end
        | CSpecial _ final =>
            match Store.eraseR rn with
            | RThree ents top q (Some m) =>
                match pickOf s m with
                | None => Ok t
                | Some w =>
                    let m' := set_winner (Some w) m in
                    let t1 := push_history (HStage (roundIndex t) final (eid w)) t in
                    let t2 :=
                      set_rounds (<[roundIndex t := RThree ents top q (Some m')]> (rounds t1)) t1 in
                    Ok (set_cursor None (set_champion (Some w) t2))
                end
            | _ => Fail TypeError
            end
        | CMatch _ idx =>
            match Store.eraseR rn with
            | RNormal ents bye ms =>
                match ms !! idx with
                | None => Fail TypeError
                | Some m =>
                    match pickOf s m with
                    | None => Ok t
                    | Some w =>
                        let ms' := <[idx := set_winner (Some w) m]> ms in
                        let t1 := push_history (HMatch (roundIndex t) idx (eid w)) t in
                        let t2 :=
                          set_rounds (<[roundIndex t := RNormal ents bye ms']> (rounds t1)) t1 in
                        if negb (forallb decided ms')
                        then Ok (set_cursor (deriveCursor t2) t2)
                        else
                          let winners := collectWinners bye ms' in
                          if length winners =? 1
                          then Ok (set_cursor None (set_champion (at_ winners 0) t2))
                          else
                            let next := makeRound winners in
                            let t3 :=
                              set_rounds (rounds t2 ++ [next])
                                (set_roundIndex (roundIndex t2 + 1) t2) in
                            fastForwardIfNeeded (set_cursor (deriveCursor t3) t3)
                    end
                end
            | _ => Fail TypeError
            end
        end
      end
    end.
Proof.
  unfold applyPick, deepClone.
  change (cursor (Store.erase T)) with (Store.tn_cursor T).
  destruct (Store.tn_cursor T) as [cur|]; [|done].
  change (rounds (Store.erase T) !! roundIndex (Store.erase T))
    with ((Store.eraseR <$> Store.tn_rounds T) !! Store.tn_roundIndex T).
  rewrite list_lookup_fmap.
  by destruct (Store.tn_rounds T !! Store.tn_roundIndex T).
Qed.

Lemma wp_rederive T X (F : Store.Heap) Q :
  Store.treeN F (Store.nodesT T ++ X) ->
  (forall F',
     Store.treeN F'
       (Store.nodesT (tn_with_fields (Store.tn_roundIndex T)
                        (deriveCursor (Store.erase T)) (Store.tn_champion T) T)
        ++ X) ->
     Q (Ok (Store.tn_loc T)) F') ->
  Store.wp
    (Store.bindM (Store.deriveCursor (Store.tn_loc T))
       (fun c => Store.bindM (Store.setCursor (Store.tn_loc T) c)
                   (fun _ => Store.retM (Store.tn_loc T)))) F Q.
Proof.
  intros HT HQ.
  apply wp_bind. eapply wp_deriveCursor; [by eapply tree_decode|].
  apply wp_bind. eapply (wp_setCursor_T T X); [exact HT|]. intros F1 HT1.
  apply wp_ret. by apply HQ.
Qed.

(** The qualifier pick. *)
Lemma wp_pick_qualifier T i lr e ents top q f w (F : Store.Heap) Q :
  Store.treeN F (Store.nodesT T) ->
  Store.tn_roundIndex T = i ->
  Store.tn_rounds T !! i = Some (Store.NThree lr e ents top q f) ->
  (forall F' T',
     Store.treeN F' (Store.nodesT T') ->
     Store.erase T' =
       (let t := Store.erase T in
        let m' := set_winner (Some w) (Store.mn_val q) in
        let t1 := push_history (HStage (roundIndex t) three (eid w)) t in
        let round' :=
          RThree ents top m' (Some (mkMatch top (Some w) None None)) in
        let t2 := set_rounds (<[roundIndex t := round']> (rounds t1)) t1 in
        set_cursor (deriveCursor t2) t2) ->
     Q (Ok (Store.tn_loc T')) F') ->
  Store.wp
    (Store.bindM (Store.setWinner (Store.mn_loc q) (Some w)) (fun _ =>
     Store.bindM (Store.pushHistory (Store.tn_loc T) (HStage i three (eid w))) (fun _ =>
     Store.bindM (Store.alloc (Store.OMatch (mkMatch top (Some w) None None))) (fun fl =>
     Store.bindM (Store.setFinal lr fl) (fun _ =>
     Store.bindM (Store.deriveCursor (Store.tn_loc T)) (fun c =>
     Store.bindM (Store.setCursor (Store.tn_loc T) c) (fun _ =>
     Store.retM (Store.tn_loc T)))))))) F Q.
Proof.
  intros HT Hidx Hrn HQ. apply treeN_nil_r in HT.
  set (q' := Store.mkMatchN (Store.mn_loc q) (set_winner (Some w) (Store.mn_val q))).
  set (rn1 := Store.NThree lr e ents top q' f).
  apply wp_bind.
  eapply (wp_setWinner_T T [] i _ rn1
            ((lr, Store.ORound (Store.OThree e top (Store.mn_loc q) (Store.mn_loc <$> f)))
             :: (e, Store.OSlots ents)
             :: match f with Some fm => [Store.nodeM fm] | None => [] end));
    [exact HT|exact Hrn|done| | |].
  { simpl. unfold Store.nodeM at 1. solve_Permutation. }
  { simpl. unfold Store.nodeM at 1. simpl. solve_submseteq. }
  intros F1 HT1.
  set (T1 := tn_set_rounds (<[i := rn1]> (Store.tn_rounds T)) T) in *.
  apply wp_bind.
  eapply (wp_pushHistory_T T1 []); [exact HT1|]. intros F2 HT2.
  set (T2 := tn_set_history (Store.tn_history T1 ++ [HStage i three (eid w)]) T1) in *.
  apply wp_bind, wp_alloc. intros fl Hfl.
  set (fm := mkMatch top (Some w) None None).
  assert (HT2' : Store.treeN (<[fl := Store.OMatch fm]> F2)
                   (Store.nodesT T2 ++ [(fl, Store.OMatch fm)])).
  { eapply treeN_perm; [|apply treeN_cons_fresh; [exact HT2|exact Hfl]].
    rewrite app_nil_r. by rewrite Permutation_cons_append. }
  assert (Hlt : i < length (Store.tn_rounds T)) by by eapply lookup_lt_Some.
  apply wp_bind.
  eapply (wp_setFinal_T T2 [] i lr e ents top q' f fl fm); [exact HT2'| |].
  { simpl. by rewrite list_lookup_insert_eq. }
  intros F3 HT3.
  set (T3 := tn_set_rounds _ T2) in HT3.
  change (Store.tn_loc T) with (Store.tn_loc T3).
  eapply wp_rederive; [exact HT3|]. intros F4 HT4.
  apply treeN_nil_r_inv in HT4. apply (HQ _ _ HT4).
  cbv zeta. subst i.
  assert (E3 : Store.erase T3
               = set_rounds
                   (<[Store.tn_roundIndex T :=
                        RThree ents top (set_winner (Some w) (Store.mn_val q))
                          (Some fm)]> (Store.eraseR <$> Store.tn_rounds T))
                   (push_history (HStage (Store.tn_roundIndex T) three (eid w))
                      (Store.erase T))).
  { unfold T3, T2, T1, Store.erase, set_rounds, push_history. simpl.
    by rewrite !list_fmap_insert, list_insert_insert_eq. }
  unfold Store.erase at 1. simpl.
  change (Store.erase (tn_set_rounds
            (<[Store.tn_roundIndex T :=
                 Store.NThree lr e ents top q' (Some (Store.mkMatchN fl fm))]>
               (<[Store.tn_roundIndex T := rn1]> (Store.tn_rounds T)))
            T2)) with (Store.erase T3).
  rewrite E3. unfold set_cursor, set_rounds, push_history, Store.erase. simpl.
  by rewrite !list_fmap_insert, list_insert_insert_eq.
Qed.

(** The pick of the final. *)
Lemma wp_pick_final T i lr e ents top q fmN w (F : Store.Heap) Q :
  Store.treeN F (Store.nodesT T) ->
  Store.tn_roundIndex T = i ->
  Store.tn_rounds T !! i = Some (Store.NThree lr e ents top q (Some fmN)) ->
  (forall F' T',
     Store.treeN F' (Store.nodesT T') ->
     Store.erase T' =
       (let t := Store.erase T in
        let m' := set_winner (Some w) (Store.mn_val fmN) in
        let t1 := push_history (HStage (roundIndex t) final (eid w)) t in
        let t2 :=
          set_rounds
            (<[roundIndex t := RThree ents top (Store.mn_val q) (Some m')]> (rounds t1))
            t1 in
        set_cursor None (set_champion (Some w) t2)) ->
     Q (Ok (Store.tn_loc T')) F') ->
  Store.wp
    (Store.bindM (Store.setWinner (Store.mn_loc fmN) (Some w)) (fun _ =>
     Store.bindM (Store.pushHistory (Store.tn_loc T) (HStage i final (eid w))) (fun _ =>
     Store.bindM (Store.setChampion (Store.tn_loc T) (Some w)) (fun _ =>
     Store.bindM (Store.setCursor (Store.tn_loc T) None) (fun _ =>
     Store.retM (Store.tn_loc T)))))) F Q.
Proof.
  intros HT Hidx Hrn HQ. apply treeN_nil_r in HT.
  set (f' := Store.mkMatchN (Store.mn_loc fmN) (set_winner (Some w) (Store.mn_val fmN))).
  set (rn1 := Store.NThree lr e ents top q (Some f')).
  apply wp_bind.
  eapply (wp_setWinner_T T [] i _ rn1
            [(lr, Store.ORound (Store.OThree e top (Store.mn_loc q)
                                  (Some (Store.mn_loc fmN))));
             (e, Store.OSlots ents); Store.nodeM q]);
    [exact HT|exact Hrn|done| | |].
  { simpl. unfold Store.nodeM at 2. solve_Permutation. }
  { simpl. unfold Store.nodeM at 2. simpl. solve_submseteq. }
  intros F1 HT1.
  set (T1 := tn_set_rounds (<[i := rn1]> (Store.tn_rounds T)) T) in *.
  apply wp_bind.
  eapply (wp_pushHistory_T T1 []); [exact HT1|]. intros F2 HT2.
  set (T2 := tn_set_history (Store.tn_history T1 ++ [HStage i final (eid w)]) T1) in *.
  apply wp_bind.
  eapply (wp_setChampion_T T2 []); [exact HT2|]. intros F3 HT3.
  set (T3 := tn_with_fields _ _ _ T2) in HT3.
  apply wp_bind.
  eapply (wp_setCursor_T T3 []); [exact HT3|]. intros F4 HT4.
  apply wp_ret.
  apply treeN_nil_r_inv in HT4. apply (HQ _ _ HT4).
  cbv zeta. subst i.
  unfold Store.erase, set_cursor, set_champion, set_rounds, push_history. simpl.
  by rewrite !list_fmap_insert.
Qed.

Lemma delete_insert_same {A} (l : list A) j x :
  j < length l -> delete j (<[j := x]> l) = delete j l.
Proof.
  intros Hlt. rewrite insert_take_drop by done.
  rewrite (delete_take_drop l j).
  assert (E : j = length (take j l)) by (rewrite length_take; lia).
  rewrite E at 1. by rewrite delete_middle.
Qed.

Lemma nodesR_normal_match lr e ents bye mal ms j mn mn' :
  ms !! j = Some mn -> Store.mn_loc mn' = Store.mn_loc mn ->
  Store.nodesR (Store.NNormal lr e ents bye mal ms)
  ≡ₚ Store.nodeM mn
     :: (lr, Store.ORound (Store.ONormal e bye mal))
     :: (e, Store.OSlots ents)
     :: (mal, Store.OMatches (Store.mn_loc <$> ms))
     :: (Store.nodeM <$> delete j ms)
  /\
  Store.nodesR (Store.NNormal lr e ents bye mal (<[j := mn']> ms))
  ≡ₚ Store.nodeM mn'
     :: (lr, Store.ORound (Store.ONormal e bye mal))
     :: (e, Store.OSlots ents)
     :: (mal, Store.OMatches (Store.mn_loc <$> ms))
     :: (Store.nodeM <$> delete j ms).
Proof.
  intros Hj Hloc.
  assert (Hlt : j < length ms) by by eapply lookup_lt_Some.
  cbn [Store.nodesR]. split.
  - rewrite (delete_Permutation ms j mn Hj) at 2. rewrite fmap_cons.
    solve_Permutation.
  - rewrite list_fmap_insert, Hloc.
    rewrite (list_insert_id (Store.mn_loc <$> ms))
      by (by rewrite list_lookup_fmap, Hj).
    rewrite (delete_Permutation (<[j := mn']> ms) j mn')
      by (by rewrite list_lookup_insert_eq).
    rewrite fmap_cons, delete_insert_same by done. solve_Permutation.
Qed.

(** The pick in a match of a normal round. *)
Lemma wp_pick_match T i lr e ents bye mal ms j mn w (F : Store.Heap) Q :
  Store.treeN F (Store.nodesT T) ->
  Store.tn_roundIndex T = i ->
  Store.tn_rounds T !! i = Some (Store.NNormal lr e ents bye mal ms) ->
  ms !! j = Some mn ->
  (forall F' T' t',
     pickedInMatch (Store.erase T) ents bye (Store.mn_val <$> ms) j
       (Store.mn_val mn) w = Ok t' ->
     Store.treeN F' (Store.nodesT T') -> Store.erase T' = t' ->
     Q (Ok (Store.tn_loc T')) F') ->
  (forall err,
     pickedInMatch (Store.erase T) ents bye (Store.mn_val <$> ms) j
       (Store.mn_val mn) w = Fail err ->
     Q (Fail err) ∅) ->
  Store.wp
    (Store.bindM (Store.setWinner (Store.mn_loc mn) (Some w)) (fun _ =>
     Store.bindM (Store.pushHistory (Store.tn_loc T) (HMatch i j (eid w))) (fun _ =>
     Store.bindM (Store.forEach Store.loadMatch (Store.mn_loc <$> ms)) (fun mv =>
     if negb (forallb decided mv)
     then
       Store.bindM (Store.deriveCursor (Store.tn_loc T)) (fun c =>
       Store.bindM (Store.setCursor (Store.tn_loc T) c) (fun _ =>
       Store.retM (Store.tn_loc T)))
     else
       Store.bindM (Store.collectWinners bye mv) (fun winners =>
       Store.bindM (Store.loadSlots winners) (fun ws =>
       if length ws =? 1
       then
         Store.bindM (Store.setChampion (Store.tn_loc T) (at_ ws 0)) (fun _ =>
         Store.bindM (Store.setCursor (Store.tn_loc T) None) (fun _ =>
         Store.retM (Store.tn_loc T)))
       else
         Store.bindM (Store.makeRound winners) (fun next =>
         Store.bindM (Store.setRoundIndex (Store.tn_loc T) (i + 1)) (fun _ =>
         Store.bindM (Store.pushRound (Store.tn_loc T) next) (fun _ =>
         Store.bindM (Store.deriveCursor (Store.tn_loc T)) (fun c =>
         Store.bindM (Store.setCursor (Store.tn_loc T) c) (fun _ =>
         Store.fastForwardIfNeeded (Store.tn_loc T))))))))))))
    F Q.
Proof.
  intros HT Hidx Hrn Hj HQ HQf. apply treeN_nil_r in HT.
  set (mn' := Store.mkMatchN (Store.mn_loc mn) (set_winner (Some w) (Store.mn_val mn))).
  set (ms1 := <[j := mn']> ms).
  set (rn1 := Store.NNormal lr e ents bye mal ms1).
  destruct (nodesR_normal_match lr e ents bye mal ms j mn mn' Hj eq_refl)
    as [HP HP'].
  assert (Hlti : i < length (Store.tn_rounds T)) by by eapply lookup_lt_Some.
  assert (Hlocs : Store.mn_loc <$> ms1 = Store.mn_loc <$> ms).
  { unfold ms1. rewrite list_fmap_insert. simpl.
    apply list_insert_id. by rewrite list_lookup_fmap, Hj. }
  assert (Hvals : Store.mn_val <$> ms1
                  = <[j := set_winner (Some w) (Store.mn_val mn)]> (Store.mn_val <$> ms)).
  { unfold ms1. by rewrite list_fmap_insert. }
  apply wp_bind.
  eapply (wp_setWinner_T T [] i _ rn1 _ (Store.mn_loc mn) (Store.mn_val mn));
    [exact HT|exact Hrn|done|exact HP| |].
  { unfold rn1, ms1. rewrite HP'. done. }
  intros F1 HT1.
  set (T1 := tn_set_rounds (<[i := rn1]> (Store.tn_rounds T)) T) in *.
  apply wp_bind.
  eapply (wp_pushHistory_T T1 []); [exact HT1|]. intros F2 HT2.
  set (T2 := tn_set_history (Store.tn_history T1 ++ [HMatch i j (eid w)]) T1) in *.
  assert (Hrn2 : Store.tn_rounds T2 !! i = Some rn1).
  { simpl. by rewrite list_lookup_insert_eq. }
  assert (E2 : Store.erase T2
               = set_rounds
                   (<[i := RNormal ents bye (Store.mn_val <$> ms1)]>
                      (Store.eraseR <$> Store.tn_rounds T))
                   (push_history (HMatch i j (eid w)) (Store.erase T))).
  { unfold T2, T1, Store.erase, set_rounds, push_history. simpl.
    by rewrite list_fmap_insert. }
  apply wp_bind. eapply wp_forEach_loadMatch.
  { rewrite <- Hlocs. eapply (tree_matches _ T2); [exact HT2|exact Hrn2]. }
  unfold pickedInMatch in HQ, HQf. cbv zeta in HQ, HQf.
  change (roundIndex (Store.erase T)) with (Store.tn_roundIndex T) in HQ, HQf.
  rewrite Hidx in HQ, HQf. rewrite <- Hvals in HQ, HQf.
  change (rounds (push_history (HMatch i j (eid w)) (Store.erase T)))
    with (Store.eraseR <$> Store.tn_rounds T) in HQ, HQf.
  rewrite <- E2 in HQ, HQf.
  destruct (negb (forallb decided (Store.mn_val <$> ms1))).
  { change (Store.tn_loc T) with (Store.tn_loc T2).
    eapply wp_rederive; [exact HT2|]. intros F3 HT3.
    apply treeN_nil_r_inv in HT3. by eapply (HQ _ _ _ eq_refl HT3). }
  apply wp_bind, wp_collectWinners. intros F3 wl HE3.
  pose proof (treeN_app_fresh _ _ _ _ HT2 HE3) as HT3.
  rewrite <- app_assoc in HT3. simpl in HT3.
  apply wp_bind. eapply wp_loadSlots.
  { eapply extends_lookup; [exact HE3|]. node_here. }
  set (cw := collectWinners bye (Store.mn_val <$> ms1)) in *.
  destruct (length cw =? 1).
  { apply wp_bind.
    eapply (wp_setChampion_T T2 [(wl, Store.OSlots cw)]); [exact HT3|].
    intros F4 HT4. set (T4 := tn_with_fields _ _ _ T2) in HT4.
    apply wp_bind.
    eapply (wp_setCursor_T T4 [(wl, Store.OSlots cw)]); [exact HT4|].
    intros F5 HT5. apply wp_ret. apply treeN_app_l in HT5.
    by eapply (HQ _ _ _ eq_refl HT5). }
  apply wp_bind. eapply wp_makeRound.
  { eapply extends_lookup; [exact HE3|]. node_here. }
  intros F4 rnew HE4 Hnew.
  pose proof (treeN_app_fresh _ _ _ _ HT3 HE4) as HT4.
  apply wp_bind.
  eapply (wp_setRoundIndex_T T2 (Store.nodesR rnew ++ [(wl, Store.OSlots cw)])).
  { eapply treeN_perm; [|exact HT4]. solve_Permutation. }
  intros F5 HT5. set (T5 := tn_with_fields _ _ _ T2) in HT5.
  apply wp_bind.
  eapply (wp_pushRound_T T5 [(wl, Store.OSlots cw)] rnew); [exact HT5|].
  intros F6 HT6. set (T6 := tn_set_rounds _ T5) in HT6.
  apply wp_bind. eapply wp_deriveCursor; [by eapply (tree_decode _ T6)|].
  apply wp_bind.
  eapply (wp_setCursor_T T6 [(wl, Store.OSlots cw)]); [exact HT6|].
  intros F7 HT7. set (T7 := tn_with_fields _ _ _ T6) in HT7.
  assert (E7 : Store.erase T7
               = set_cursor
                   (deriveCursor
                      (set_rounds
                         (rounds (Store.erase T2) ++ [makeRound cw])
                         (set_roundIndex (roundIndex (Store.erase T2) + 1)
                            (Store.erase T2))))
                   (set_rounds
                      (rounds (Store.erase T2) ++ [makeRound cw])
                      (set_roundIndex (roundIndex (Store.erase T2) + 1)
                         (Store.erase T2)))).
  { unfold T7, T6, T5, Store.erase, set_cursor, set_rounds, set_roundIndex.
    simpl. rewrite !fmap_app. simpl. rewrite Hnew. by rewrite Hidx. }
  rewrite <- E7 in HQ, HQf.
  eapply (wp_fastForwardIfNeeded (Store.tn_loc T7)).
  - by eapply tree_decode.
  - intros F8 T8 t8 Hff HT8 Ht8. by eapply (HQ _ _ _ Hff HT8).
  - intros err Hff. by apply HQf.
Qed.

Lemma wp_applyPickCloned T s (F1 : Store.Heap) Q :
  Store.treeN F1 (Store.nodesT T) ->
  (forall F' T' t',
     applyPick (Store.erase T) s = Ok t' ->
     Store.treeN F' (Store.nodesT T') -> Store.erase T' = t' ->
     Q (Ok (Store.tn_loc T')) F') ->
  (forall e, applyPick (Store.erase T) s = Fail e -> Q (Fail e) ∅) ->
  Store.wp (Store.applyPickCloned (Store.tn_loc T) s) F1 Q.
Proof.
  intros HT HQ HQf. unfold Store.applyPickCloned.
  pose proof (treeN_nil_r _ _ HT) as HT'.
  rewrite applyPick_erase in HQ, HQf. cbv zeta in HQ, HQf.
  apply wp_bind. eapply wp_loadTournament; [by eapply tree_tl|].
  cbn [Store.tobj Store.o_cursor Store.o_rounds Store.o_roundIndex].
  destruct (Store.tn_cursor T) as [cur|].
  2:{ apply wp_ret. by eapply (HQ _ _ _ eq_refl HT). }
  apply wp_bind. eapply wp_loadRounds; [by eapply tree_rl|].
  rewrite list_lookup_fmap.
  destruct (Store.tn_rounds T !! Store.tn_roundIndex T) as [rn|] eqn:Hrn;
    cbn [fmap option_fmap option_map].
  2:{ apply wp_ret. by eapply (HQ _ _ _ eq_refl HT). }
  apply wp_bind. eapply (wp_loadRound _ (Store.robj rn)).
  { eapply tree_round_node; [exact HT'|exact Hrn|]. destruct rn; simpl; node_here. }
  destruct cur as [ri [|]|ri j].
  - (* the qualifier *)
    destruct rn as [lr e ents|lr e ents top q f|lr e ents bye mal ms];
      cbn [Store.robj Store.eraseR] in *;
      [apply wp_fail; by apply HQf| |apply wp_fail; by apply HQf].
    apply wp_bind. eapply wp_loadMatch.
    { eapply tree_round_node; [exact HT'|exact Hrn|]. simpl.
      unfold Store.nodeM. node_here. }
    destruct (pickOf s (Store.mn_val q)) as [w|].
    2:{ apply wp_ret. by eapply (HQ _ _ _ eq_refl HT). }
    eapply wp_pick_qualifier; [exact HT|reflexivity|exact Hrn|].
    intros F2 T2 HT2 E2. by eapply (HQ _ _ _ eq_refl HT2).
  - (* the final *)
    destruct rn as [lr e ents|lr e ents top q [fmN|]|lr e ents bye mal ms];
      cbn [Store.robj Store.eraseR fmap option_fmap option_map] in *;
      [apply wp_fail; by apply HQf| |apply wp_fail; by apply HQf
       |apply wp_fail; by apply HQf].
    apply wp_bind. eapply wp_loadMatch.
    { eapply tree_round_node; [exact HT'|exact Hrn|]. simpl.
      unfold Store.nodeM. node_here. }
    destruct (pickOf s (Store.mn_val fmN)) as [w|].
    2:{ apply wp_ret. by eapply (HQ _ _ _ eq_refl HT). }
    eapply wp_pick_final; [exact HT|reflexivity|exact Hrn|].
    intros F2 T2 HT2 E2. by eapply (HQ _ _ _ eq_refl HT2).
  - (* a match of a normal round *)
    destruct rn as [lr e ents|lr e ents top q f|lr e ents bye mal ms];
      cbn [Store.robj Store.eraseR] in *;
      [apply wp_fail; by apply HQf|apply wp_fail; by apply HQf|].
    apply wp_bind. eapply wp_loadMatches.
    { eapply tree_round_node; [exact HT'|exact Hrn|]. simpl. node_here. }
    rewrite list_lookup_fmap in HQ, HQf. rewrite list_lookup_fmap.
    destruct (ms !! j) as [mn|] eqn:Hj; cbn [fmap option_fmap option_map] in *.
    2:{ apply wp_fail. by apply HQf. }
    apply wp_bind. eapply wp_loadMatch.
    { eapply tree_round_node; [exact HT'|exact Hrn|]. simpl.
      do 3 right. apply list_elem_of_fmap. exists mn. split; [done|].
      by eapply list_elem_of_lookup_2. }
    destruct (pickOf s (Store.mn_val mn)) as [w|].
    2:{ apply wp_ret. by eapply (HQ _ _ _ eq_refl HT). }
    eapply wp_pick_match; [exact HT|reflexivity|exact Hrn|exact Hj| |].
    + intros F2 T2 t2 Hp HT2 E2. by eapply (HQ _ _ _ Hp HT2).
    + intros err Hp. by apply HQf.
Qed.

(** [applyPick] on a snapshot of value [t]: a new snapshot whose value is
    what the model computes from [t], or the same failure. *)
Lemma wp_applyPick l t s (F : Store.Heap) Q :
  Store.decodeTournament F l = Some t ->
  (forall F' T' t',
     applyPick t s = Ok t' ->
     Store.treeN F' (Store.nodesT T') -> Store.erase T' = t' ->
     Q (Ok (Store.tn_loc T')) F') ->
  (forall e, applyPick t s = Fail e -> Q (Fail e) ∅) ->
  Store.wp (Store.applyPick l s) F Q.
Proof.
  intros Hd HQ HQf. unfold Store.applyPick.
  apply wp_bind. eapply wp_deepClone; [done|]. intros F1 T0 HE0 Ht0. subst t.
  apply wp_applyPickCloned; [apply HE0|done|done].
Qed.

(** ** The transitions change no object they are given *)

Lemma wp_run {A} (m : Store.M A) (h : Store.Heap) Q :
  Store.wp m ∅ Q ->
  match m h with
  | Ok (a, h') => exists F', h' = F' ∪ h /\ F' ##ₘ h /\ Q (Ok a) F'
  | Fail e => Q (Fail e) ∅
  end.
Proof.
  intros Hwp. specialize (Hwp h (map_disjoint_empty_l h)).
  by rewrite (left_id_L ∅ (∪)) in Hwp.
Qed.

Lemma run_deepClone {A} l t (k : Store.loc -> Store.M A) (h : Store.Heap) :
  Store.decodeTournament h l = Some t ->
  Store.bindM (Store.deepClone l) k h
  = Store.bindM (Store.parseTournament t) k h.
Proof.
  intros Hd. unfold Store.deepClone, Store.stringify, Store.bindM.
  cbv beta. by rewrite Hd.
Qed.

Lemma refinesT_cloned (fc : Store.loc -> Store.M Store.loc)
    (f : Tournament -> Result Tournament) :
  (forall T F Q,
     Store.treeN F (Store.nodesT T) ->
     (forall F' T' t',
        f (Store.erase T) = Ok t' ->
        Store.treeN F' (Store.nodesT T') -> Store.erase T' = t' ->
        Q (Ok (Store.tn_loc T')) F') ->
     (forall e, f (Store.erase T) = Fail e -> Q (Fail e) ∅) ->
     Store.wp (fc (Store.tn_loc T)) F Q) ->
  refinesT (fun l => Store.bindM (Store.deepClone l) fc) f.
Proof.
  intros Hfc h l t Hd. rewrite (run_deepClone _ _ _ _ Hd).
  pose proof (wp_run (Store.bindM (Store.parseTournament t) fc) h
                (fun r F' =>
                   match r with
                   | Ok l' => exists T', l' = Store.tn_loc T' /\
                                Store.treeN F' (Store.nodesT T') /\
                                f t = Ok (Store.erase T')
                   | Fail e => f t = Fail e
                   end)) as Hrun.
  lapply Hrun.
  - clear Hrun. intros Hrun.
    destruct (Store.bindM (Store.parseTournament t) fc h) as [[l' h']|e].
    + destruct Hrun as (F' & -> & Hdisj & T' & -> & HT' & Hf). rewrite Hf.
      exists (Store.tn_loc T'), (F' ∪ h). split; [done|].
      split; [by apply map_union_subseteq_r|].
      pose proof (decodeTournament_nodes _ _ HT') as Hdec.
      split.
      * eapply map_disjoint_Some_l; [exact Hdisj|].
        eapply treeN_lookup; [exact HT'|]. unfold Store.nodesT. node_here.
      * eapply decodeTournament_mono; [|exact Hdec].
        by apply map_union_subseteq_l.
    + by rewrite Hrun.
  - apply wp_bind, wp_parseTournament. intros F1 T HE Ht. subst t.
    apply Hfc; [apply HE| |done].
    intros F' T' t' Hf HT' <-. by exists T'.
Qed.

(** C6. Each transition, run on a store of objects that are read and
    written in place, fails or returns as the value model does, with a result
    that depends on nothing but the value of its argument (so two calls on
    arguments of equal value give results of equal value); every object that
    was in the store before the call is unchanged after it, the argument
    included; and the tournament or round it returns is a new object.
    [deriveCursor] changes nothing at all, and the loop of
    [fastForwardIfNeeded] always ends. *)
Theorem transitions_are_pure :
  (forall (h : Store.Heap) (l : Store.loc) (xs : list Slot),
     h !! l = Some (Store.OSlots xs) ->
     exists l' h',
       Store.makeRound l h = Ok (l', h') /\ h ⊆ h' /\ h !! l' = None /\
       Store.decodeRound h' l' = Some (makeRound xs)) /\
  (forall (h : Store.Heap) (l : Store.loc) (t : Tournament),
     Store.decodeTournament h l = Some t ->
     Store.deriveCursor l h = Ok (deriveCursor t, h)) /\
  refinesT Store.fastForwardIfNeeded fastForwardIfNeeded /\
  (forall t, exists t', fastForwardIfNeeded t = Ok t') /\
  (forall s, refinesT (fun l => Store.applyPick l s) (fun t => applyPick t s)).
Proof.
  split; [|split; [|split; [|split]]].
  - intros h l xs Hl.
    pose proof (wp_makeRound l xs {[l := Store.OSlots xs]}
                  (fun r F' =>
                     exists rn, r = Ok (Store.rn_loc rn) /\
                       extends {[l := Store.OSlots xs]} F' (Store.nodesR rn) /\
                       Store.eraseR rn = makeRound xs)) as Hwp.
    lapply Hwp; [clear Hwp; intros Hwp|by apply lookup_singleton_eq].
    lapply Hwp; [clear Hwp; intros Hwp|by intros F' rn HE Hr; exists rn].
    specialize (Hwp (delete l h)).
    lapply Hwp; [clear Hwp; intros Hwp|].
    2:{ apply map_disjoint_singleton_l. by rewrite lookup_delete_eq. }
    assert (Hh : {[l := Store.OSlots xs]} ∪ delete l h = h).
    { rewrite <- insert_union_singleton_l. by apply insert_delete_id. }
    rewrite Hh in Hwp.
    destruct (Store.makeRound l h) as [[l' h']|e].
    + destruct Hwp as (F' & -> & Hdisj & rn & [= ->] & HE & Hr).
      destruct HE as (Hsub & HT & Hfr).
      exists (Store.rn_loc rn), (F' ∪ delete l h). split; [done|].
      assert (Hroot : exists o, (Store.rn_loc rn, o) ∈ Store.nodesR rn).
      { destruct rn; simpl; eexists; node_here. }
      destruct Hroot as [o Ho].
      split; [|split].
      * rewrite <- Hh at 1. by apply map_union_mono_r.
      * rewrite <- Hh. apply lookup_union_None. split.
        -- rewrite Forall_forall in Hfr. exact (Hfr _ Ho).
        -- eapply map_disjoint_Some_l; [exact Hdisj|].
           by eapply treeN_lookup.
      * rewrite <- Hr. eapply decodeRound_mono; [by apply map_union_subseteq_l|].
        apply decodeRound_nodes. apply HT.
    + by destruct Hwp as (rn & ? & _).
  - intros h l t Hd.
    pose proof (wp_deriveCursor l t h
                  (fun r F' => r = Ok (deriveCursor t) /\ F' = h) Hd
                  (conj eq_refl eq_refl)) as Hwp.
    specialize (Hwp ∅ (map_disjoint_empty_r h)).
    rewrite (right_id_L ∅ (∪)) in Hwp.
    destruct (Store.deriveCursor l h) as [[c h']|e].
    + destruct Hwp as (F' & -> & _ & [= ->] & ->).
      by rewrite (right_id_L ∅ (∪)).
    + by destruct Hwp.
  - apply (refinesT_cloned Store.fastForwardCloned).
    intros T F Q. apply wp_fastForwardCloned.
  - apply fastForwardIfNeeded_total.
  - intros s. apply (refinesT_cloned (fun l => Store.applyPickCloned l s)).
    intros T F Q. apply wp_applyPickCloned.
Qed.

Lemma transitions_are_pure_witness :
  heap0 !! 7 = Some (Store.OSlots trio) /\
  exists l' h',
    Store.makeRound 7 heap0 = Ok (l', h') /\ heap0 ⊆ h' /\ heap0 !! l' = None /\
    Store.decodeRound h' l' = Some (makeRound trio).
Proof.
  assert (H7 : heap0 !! 7 = Some (Store.OSlots trio)) by reflexivity.
  split; [exact H7|].
  destruct transitions_are_pure as (Hmk & _). exact (Hmk heap0 7 trio H7).
Defined.

(** The two models side by side on the sample entrants: build, then two
    picks. *)
Example store_run_trio :
  Store.bindM (Store.buildTournament 7) (fun t0 =>
  Store.bindM (Store.applyPick t0 PickB) (fun t1 =>
  Store.bindM (Store.applyPick t1 PickA) (fun t2 =>
  fun h => Ok ((Store.decodeTournament h t2, Store.decodeTournament h t0),
               (∅ : Store.Heap))))) heap0
  = Ok ((match bindR (buildTournament trio) (play [PickB; PickA]) with
         | Ok t => Some t
         | Fail _ => None
         end,
         match buildTournament trio with
         | Ok t => Some t
         | Fail _ => None
         end), ∅).
Proof. vm_compute. reflexivity. Qed.

(** * The bracket as a whole *)

(** What an accepted pick does, spelled out: the winner is written into the
    match under the cursor, one entry is pushed, and one fresh round is
    appended when the pick completes a round that leaves two or more. *)
Lemma applyPick_shape n t s cur :
  Inv n t -> cursor t = Some cur ->
  exists past r m w tail t',
    rounds t = past ++ [r] /\ roundIndex t = length past /\
    champion t = None /\
    targetMatch t = Some m /\ playable m /\ m_winner m = None /\
    pickOf s m = Some w /\
    applyPick t s = Ok t' /\
    history t' = history t ++ [entryOf (roundIndex t) cur w] /\
    rounds t' = past ++ recordWinner cur w r :: tail /\
    roundIndex t' = length past + length tail /\
    decidedCount (recordWinner cur w r) = S (decidedCount r) /\
    roundSlots (recordWinner cur w r) = roundSlots r /\
    (is_Some (champion t') -> champion t' = Some w
                              /\ tail = []) /\
    (tail = [] \/
     (settledRound (recordWinner cur w r) /\
      exists ws, tail = [makeRound ws] /\ Forall is_Some ws /\ 2 <= length ws /\
                 survivorsOf (recordWinner cur w r) = Some ws)).
Proof.
  intros HI Hcur. pose proof HI as (Hc & past & r & Hr & Hi & Hok & Hcnt & Hpos).
  destruct t as [idx rs cur0 ch hist]. simpl in *. subst rs idx cur0.
  symmetry in Hc.
  unfold deriveCursor in Hc. simpl in Hc. rewrite active_lookup in Hc.
  unfold applyPick, deepClone, targetMatch. simpl. rewrite active_lookup.
  exists past, r.
  destruct r as [ents|ents top q f|ents bye ms]; simpl in Hok, Hc; [done| |].
  - (* three round *)
    destruct Hok as (Htop & Hq & Hf). destruct f as [fm|].
    + destruct Hf as (Hqw & Ha & Hb & Hw & Hch).
      pose proof Hqw as Hqt. apply truthy_is_Some in Hqt.
      rewrite Hqt in Hc. simpl in Hc.
      destruct (m_winner fm) as [wf|] eqn:Ewf; simpl in Hc; [done|].
      injection Hc as <-. subst ch.
      assert (Hpf : is_Some (pickOf s fm)).
      { destruct s; simpl; [by rewrite Ha | by rewrite Hb]. }
      destruct Hpf as [w Hw']. rewrite Hw'.
      exists fm, w, []. eexists.
      split; [done|]. split; [done|]. split; [done|]. split; [done|].
      split.
      { repeat split; [by rewrite Ha | by rewrite Hb; apply Hqw | by left]. }
      split; [done|]. split; [done|]. split; [reflexivity|].
      rewrite active_insert. cbn.
      split; [done|]. split; [done|]. split; [lia|].
      split; [by rewrite Hqt, Ewf|]. split; [done|]. split; [done|]. by left.
    + destruct Hf as (Hqw & Hch). rewrite Hqw in Hc. simpl in Hc.
      injection Hc as <-. subst ch.
      destruct (pickOf_playable q s Hq) as [w Hw]. rewrite Hw.
      exists q, w, []. eexists.
      split; [done|]. split; [done|]. split; [done|]. split; [done|].
      split; [done|]. split; [done|]. split; [done|]. split; [reflexivity|].
      rewrite active_insert. cbn.
      split; [done|]. split; [done|]. split; [lia|].
      split; [by rewrite Hqw|]. split; [done|].
      split; [by intros [? ?]|]. by left.
  - (* normal round *)
    destruct Hok as (Hne & Hpl & [[Hd Hch]|(Hd & Hch & Hw)]).
    2:{ apply findIndex_pending_None in Hd; [|done]. by rewrite Hd in Hc. }
    subst ch.
    destruct (findIndex_pending_Some ms Hpl Hd) as (i & m & Hfi & Hm & Hpm & Hwm).
    rewrite Hfi in Hc. injection Hc as <-. rewrite Hm.
    destruct (pickOf_playable m s Hpm) as [w Hw]. rewrite Hw.
    cbn [recordWinner roundIndex]. rewrite Hm.
    set (ms' := <[i := set_winner (Some w) m]> ms).
    assert (Hpl' : Forall playable ms').
    { apply Forall_insert; [done|]. by eapply playable_set_winner. }
    assert (Hlen' : length ms' = length ms) by apply length_insert.
    pose proof (filter_decided_insert ms i m w Hm Hwm) as Hdc. fold ms' in Hdc.
    rewrite active_insert.
    destruct (forallb decided ms') eqn:Hd'; cbn [negb].
    + destruct (collectWinners_decided bye ms' Hd') as [Hwl Hwp].
      destruct (length (collectWinners bye ms') =? 1) eqn:E1.
      * apply Nat.eqb_eq in E1.
        exists m, w, []. eexists.
        do 7 (split; [done|]). split; [reflexivity|]. cbn.
        split; [done|]. split; [done|]. split; [lia|].
        split; [done|]. split; [exact Hlen'|]. split; [|by left].
        intros _. split; [|done].
        (* the only survivor is the winner just recorded *)
        assert (Hl1 : length ms = 1 /\ truthy bye = false).
        { rewrite E1, Hlen' in Hwl. destruct ms; [done|].
          simpl in *. destruct (truthy bye); [lia|]. split; [lia|done]. }
        destruct Hl1 as [Hl1 Hby].
        destruct ms as [|x [|y l]]; try done.
        destruct i as [|i]; [|done]. simpl in Hm. injection Hm as ->.
        unfold ms', collectWinners. rewrite Hby. done.
      * apply Nat.eqb_neq in E1.
        assert (Hw2 : 2 <= length (collectWinners bye ms')).
        { rewrite Hwl, Hlen' in *. destruct ms; [done|]. simpl in *. lia. }
        destruct (makeRound_fresh _ Hwp Hw2) as (Hfok & Hfe & Hfd).
        unfold set_cursor, set_rounds, set_roundIndex, push_history.
        cbn [roundIndex rounds cursor champion history].
        match goal with
        | |- context [fastForwardIfNeeded ?X] => assert (HX : Inv n X)
        end.
        { eapply (Inv_intro _ _ _ _ _ _
                    (past ++ [RNormal ents bye ms'])
                    (makeRound (collectWinners bye ms'))).
          - done.
          - rewrite length_app. simpl. done.
          - done.
          - simpl in Hcnt. rewrite Hfe, Hfd, Hwl. rewrite length_app. simpl.
            pose proof (forallb_decided_filter ms' Hd') as Hfl.
            rewrite Hfl in Hdc. lia.
          - rewrite Hfe. lia.
          - done. }
        rewrite (Inv_fastForward _ _ HX).
        exists m, w, [makeRound (collectWinners bye ms')]. eexists.
        do 7 (split; [done|]). split; [reflexivity|]. cbn.
        split; [done|]. split; [by rewrite <- app_assoc|].
        split; [done|]. split; [done|]. split; [exact Hlen'|].
        split; [by intros [? ?]|]. right. split; [done|].
        exists (collectWinners bye ms'). fold ms'. rewrite Hd'. done.
    + exists m, w, []. eexists.
      do 7 (split; [done|]). split; [reflexivity|]. cbn.
      split; [done|]. split; [done|]. split; [lia|].
      split; [done|]. split; [exact Hlen'|].
      split; [by intros [? ?]|]. by left.
Qed.

Lemma recordWinner_entrantCount cur w r :
  entrantCount (recordWinner cur w r) = entrantCount r.
Proof.
  destruct cur as [? [|]|? i], r as [ents|ents tp q [fm|]|ents bye ms]; try done.
  simpl. destruct (ms !! i); [|done]. simpl. by rewrite length_insert.
Qed.

Lemma roundDecided_decidedCount r : roundDecided r = decidedCount r.
Proof. destruct r as [|? ? ? [?|]|]; done. Qed.

Lemma decidedCount_le_slots r : decidedCount r <= roundSlots r.
Proof.
  destruct r as [ents|ents tp q f|ents bye ms]; simpl.
  - done.
  - destruct (truthy (m_winner q)), (truthy (from_option m_winner None f)); simpl; lia.
  - apply filter_decided_le.
Qed.

Lemma settledRound_full r : settledRound r -> decidedCount r = roundSlots r.
Proof.
  destruct r as [| |ents bye ms]; try done. simpl.
  intros H. by rewrite forallb_decided_filter.
Qed.

Lemma sum_list_fmap_le {A} (f g : A -> nat) (l : list A) :
  (forall x, f x <= g x) -> sum_list (f <$> l) <= sum_list (g <$> l).
Proof.
  intros H. induction l as [|x l IH]; csimpl; [done|]. specialize (H x). lia.
Qed.

Lemma sum_list_fmap_eq {A} (f g : A -> nat) (l : list A) :
  Forall (fun x => f x = g x) l -> sum_list (f <$> l) = sum_list (g <$> l).
Proof. induction 1 as [|x l Hx _ IH]; csimpl; [done|]. lia. Qed.

(** Halving with rounding up, iterated. *)
Lemma ceil_half_step n i :
  ((n + 2 ^ i - 1) / 2 ^ i + 1) / 2 = (n + 2 ^ S i - 1) / 2 ^ S i.
Proof.
  assert (Hp : 0 < 2 ^ i) by (apply Nat.neq_0_lt_0, Nat.pow_nonzero; lia).
  replace ((n + 2 ^ i - 1) / 2 ^ i + 1) with ((n + 2 ^ i - 1 + 1 * 2 ^ i) / 2 ^ i)
    by (rewrite Nat.div_add by lia; lia).
  rewrite Nat.Div0.div_div. cbn [Nat.pow].
  f_equal; lia.
Qed.

(** Induction over the runs of the engine: a property of the built
    tournament that every accepted pick keeps holds after every run. *)
Lemma run_Inv_ind n (Q : Tournament -> Prop) :
  (forall t s cur t', Inv n t -> Q t -> cursor t = Some cur ->
     applyPick t s = Ok t' -> Q t') ->
  forall ops t t', Inv n t -> Q t -> run ops t = Ok t' -> Inv n t' /\ Q t'.
Proof.
  intros Hstep. induction ops as [|o ops IH]; intros t t' HI HQ Hrun.
  - by injection Hrun as <-.
  - simpl in Hrun. destruct (step t o) as [t1|] eqn:Es; [|done]. simpl in Hrun.
    destruct o as [s|]; simpl in Es.
    + destruct (Inv_applyPick n t s HI) as (t2 & Ha & HI2 & _).
      rewrite Ha in Es. injection Es as ->.
      destruct (cursor t) as [cur|] eqn:Ec.
      * apply (IH t1); [done| |done]. exact (Hstep t s cur t1 HI HQ Ec Ha).
      * rewrite applyPick_no_cursor in Ha by done. injection Ha as <-.
        by apply (IH t).
    + rewrite (Inv_fastForward n t HI) in Es. injection Es as <-.
      by apply (IH t).
Qed.

Lemma Reachable_run t :
  Reachable t <->
  exists tracks t0 ops, buildTournament tracks = Ok t0 /\ run ops t0 = Ok t.
Proof.
  split.
  - induction 1 as [tracks t Hb|t o t' _ (tracks & t0 & ops & Hb & Hr) Hs].
    + by exists tracks, t, [].
    + exists tracks, t0, (ops ++ [o]). split; [done|].
      clear Hb. revert t0 Hr. induction ops as [|o1 ops IH]; intros t0 Hr; simpl in *.
      * injection Hr as ->. by rewrite Hs.
      * destruct (step t0 o1) as [t1|]; [|done]. simpl in *. by apply IH.
  - intros (tracks & t0 & ops & Hb & Hr).
    assert (H0 : Reachable t0) by by econstructor.
    clear Hb. revert t0 H0 Hr. induction ops as [|o ops IH]; intros t0 H0 Hr; simpl in *.
    + by injection Hr as <-.
    + destruct (step t0 o) as [t1|] eqn:Es; [|done]. simpl in Hr.
      eapply IH; [|done]. by econstructor.
Qed.

Lemma Ledger_build tracks t0 :
  buildTournament tracks = Ok t0 -> Ledger (length (alive tracks)) t0.
Proof.
  intros Hb. destruct (buildTournament_Inv tracks) as (t & Hb' & HI & Hh & Hr & Hi).
  rewrite Hb in Hb'. injection Hb' as <-.
  assert (He : entrantCount (makeRound tracks) = length (alive tracks) /\
               decidedCount (makeRound tracks) = 0).
  { destruct (decide (length (alive tracks) <= 1)) as [Hle|Hgt].
    - by rewrite makeRound_done.
    - rewrite makeRound_alive.
      destruct (makeRound_fresh (alive tracks)) as (_ & ? & ?);
        [apply alive_present | lia | done]. }
  destruct He as [He Hd].
  unfold Ledger. rewrite Hh, Hr, Hi. simpl. rewrite Hd.
  split; [done|]. split; [constructor|]. split; [|split; [constructor|]].
  - intros [|i] r; [|done]. intros [= <-]. rewrite He.
    change (2 ^ 0) with 1. rewrite Nat.div_1_r. lia.
  - intros Hn. constructor; [lia | constructor].
Qed.

Lemma Ledger_applyPick n t s cur t' :
  Inv n t -> Ledger n t -> cursor t = Some cur -> applyPick t s = Ok t' ->
  Ledger n t'.
Proof.
  intros HI (L1 & L2 & L3 & L4 & L5) Hcur Ha.
  destruct (applyPick_shape n t s cur HI Hcur)
    as (past & r & m & w & tail & t1 & Hr & Hi & Hch & Htm & Hpm & Hwm & Hpk &
        Ha1 & Hh & Hr1 & Hi1 & Hd & Hs & Hc1 & Htail).
  rewrite Ha in Ha1. injection Ha1 as <-.
  unfold Ledger. rewrite Hh, Hr1, Hi1.
  rewrite Hr in L1, L3. rewrite Hr, Hi, take_app_length in L2.
  assert (Hcnt : entrantCount r = (n + 2 ^ length past - 1) / 2 ^ length past).
  { apply L3. apply active_lookup. }
  split; [|split; [|split; [|split]]].
  - rewrite length_app, L1, !fmap_app, !sum_list_with_app. simpl. rewrite Hd.
    destruct Htail as [->|(_ & ws & -> & Hws & Hlen & _)]; simpl; [lia|].
    destruct (makeRound_fresh ws Hws Hlen) as (_ & _ & ->). lia.
  - destruct Htail as [->|(Hset & ws & -> & _)]; simpl.
    + rewrite Nat.add_0_r. by rewrite take_app_length.
    + replace (past ++ recordWinner cur w r :: [makeRound ws])
        with ((past ++ [recordWinner cur w r]) ++ [makeRound ws])
        by by rewrite <- app_assoc.
      replace (length past + 1) with (length (past ++ [recordWinner cur w r]))
        by (rewrite length_app; simpl; lia).
      rewrite take_app_length. apply Forall_app. split; [done|].
      by constructor.
  - intros i r' Hlk.
    destruct (decide (i < length past)) as [Hlt|Hge].
    { apply L3. rewrite lookup_app_l in Hlk |- * by done. done. }
    rewrite lookup_app_r in Hlk by lia.
    destruct (i - length past) as [|[|k]] eqn:Ek.
    + simpl in Hlk. injection Hlk as <-.
      rewrite recordWinner_entrantCount.
      by replace i with (length past) by lia.
    + simpl in Hlk.
      destruct Htail as [->|(Hset & ws & -> & Hws & Hlen & Hsv)]; [done|].
      simpl in Hlk. injection Hlk as <-.
      destruct (makeRound_fresh ws Hws Hlen) as (_ & -> & _).
      replace i with (S (length past)) by lia.
      rewrite <- ceil_half_step, <- Hcnt, <- (recordWinner_entrantCount cur w r).
      destruct (recordWinner cur w r) as [| |ents bye ms]; try done.
      simpl in Hset, Hsv. rewrite Hset in Hsv. injection Hsv as <-.
      destruct (collectWinners_decided bye ms Hset) as [-> _].
      cbn [entrantCount]. destruct (truthy bye).
      * replace (2 * length ms + 1 + 1) with ((length ms + 1) * 2) by lia.
        by rewrite Nat.div_mul.
      * replace (2 * length ms + 0 + 1) with (1 + length ms * 2) by lia.
        rewrite Nat.div_add by done. change (1 / 2) with 0. lia.
    + simpl in Hlk.
      destruct Htail as [->|(_ & ws & -> & _)]; simpl in Hlk; done.
  - apply Forall_app. split.
    + eapply Forall_impl; [exact L4|]. intros h Hle. simpl in Hle. lia.
    + constructor; [|constructor]. destruct cur; simpl; lia.
  - intros Hn. specialize (L5 Hn). rewrite Hr in L5.
    apply Forall_app in L5 as [L5 L5r]. apply Forall_app. split; [done|].
    constructor.
    + rewrite recordWinner_entrantCount. by inversion L5r.
    + destruct Htail as [->|(_ & ws & -> & Hws & Hlen & _)]; [constructor|].
      constructor; [|constructor].
      by destruct (makeRound_fresh ws Hws Hlen) as (_ & -> & _).
Qed.

Lemma run_Ledger tracks t0 ops t :
  buildTournament tracks = Ok t0 -> run ops t0 = Ok t ->
  Inv (length (alive tracks)) t /\ Ledger (length (alive tracks)) t.
Proof.
  intros Hb Hr.
  destruct (buildTournament_Inv tracks) as (t1 & Hb' & HI & _).
  rewrite Hb in Hb'. injection Hb' as <-.
  eapply (run_Inv_ind _ (Ledger (length (alive tracks)))); [|exact HI| |exact Hr].
  - intros. by eapply Ledger_applyPick.
  - by apply Ledger_build.
Qed.

Lemma Reachable_Ledger t : Reachable t -> exists n, Inv n t /\ Ledger n t.
Proof.
  intros (tracks & t0 & ops & Hb & Hr)%Reachable_run.
  exists (length (alive tracks)). by eapply run_Ledger.
Qed.

(** ** Settling *)

Lemma deriveCursor_set_cursor c t : deriveCursor (set_cursor c t) = deriveCursor t.
Proof. done. Qed.

Lemma ffBody_set_cursor c t : ffBody (set_cursor c t) = ffBody t.
Proof. done. Qed.

(** A pass that breaks without naming a champion has only stored the
    derived cursor. *)
Lemma ffBody_Break t t' :
  champion t = None -> ffBody t = Break t' ->
  t' = set_cursor (deriveCursor t) t \/ is_Some (champion t').
Proof.
  intros Hch. unfold ffBody. cbn [rounds roundIndex cursor set_cursor].
  destruct (rounds t !! roundIndex t) as [r|]; [|intros [= <-]; by left].
  destruct (bool_decide _); [intros [= <-]; by left|].
  destruct r as [ents|? ? ? ?|ents bye ms].
  - destruct (length ents =? 1); [|intros [= <-]; by left].
    intros [= <-]. destruct (at_ ents 0) as [e|] eqn:E.
    + right. simpl. eauto.
    + left. unfold set_champion, set_cursor. simpl. by rewrite Hch.
  - intros [= <-]. by left.
  - destruct (negb _); [intros [= <-]; by left|].
    destruct (length _ =? 1); [|done].
    intros [= <-]. destruct (at_ (collectWinners bye ms) 0) as [e|] eqn:E.
    + right. simpl. eauto.
    + left. unfold set_champion, set_cursor. simpl. by rewrite Hch.
Qed.

(** Where the loop stops, it stops again at once. *)
Lemma ffLoop_stops fuel t t' :
  ffLoop fuel t = Some t' ->
  is_Some (champion t') \/
  (champion t' = None /\ ffBody t' = Break (set_cursor (deriveCursor t') t')).
Proof.
  revert t. induction fuel as [|fuel IH]; intros t; simpl; [done|].
  destruct (truthy (champion t)) eqn:Ech.
  { intros [= <-]. left. by apply truthy_is_Some. }
  assert (Hn : champion t = None) by by destruct (champion t).
  destruct (ffBody t) as [t1|t1] eqn:Eb; [|by apply IH].
  intros [= <-].
  destruct (ffBody_Break t t1 Hn Eb) as [->|Hs]; [|by left].
  right. split; [done|]. by rewrite ffBody_set_cursor.
Qed.

(** X1. Settling is idempotent on every tournament value, engine-produced
    or not: what [fastForwardIfNeeded] returns is returned unchanged by a
    second call. *)
Theorem settle_idempotent (t t1 : Tournament) :
  fastForwardIfNeeded t = Ok t1 -> fastForwardIfNeeded t1 = Ok t1.
Proof.
  unfold fastForwardIfNeeded at 1. unfold deepClone. cbv zeta.
  destruct (ffLoop (ffFuel t) t) as [t'|] eqn:E; [|done]. intros [= <-].
  unfold fastForwardIfNeeded, deepClone, ffFuel. cbv zeta. cbn [ffLoop].
  destruct (ffLoop_stops _ _ _ E) as [Hs|[Hn Hb]].
  - apply truthy_is_Some in Hs. cbn [champion set_cursor]. by rewrite Hs.
  - cbn [champion set_cursor]. rewrite Hn. cbn [truthy].
    rewrite ffBody_set_cursor, Hb. done.
Qed.

Lemma settle_idempotent_witness :
  exists t1,
    fastForwardIfNeeded (mkTournament 0 [RDone [Some (track "a" 5)]] None None [])
    = Ok t1 /\ fastForwardIfNeeded t1 = Ok t1.
Proof.
  eexists. split; [reflexivity|].
  apply (settle_idempotent
           (mkTournament 0 [RDone [Some (track "a" 5)]] None None [])).
  reflexivity.
Defined.

(** X2. Every tournament the engine produces is settled: the stored cursor
    is the derived one, the active round is the last round built, and
    [fastForwardIfNeeded] returns it unchanged, so the "Continue" button of
    the screen has nothing to do on it. *)
Theorem reachable_is_settled (t : Tournament) :
  Reachable t ->
  cursor t = deriveCursor t /\
  roundIndex t + 1 = length (rounds t) /\
  fastForwardIfNeeded t = Ok t.
Proof.
  intros [n HI]%Reachable_Inv.
  pose proof HI as (Hc & past & r & Hr & Hi & _).
  split; [done|]. split.
  - rewrite Hr, Hi, length_app. done.
  - by eapply Inv_fastForward.
Qed.

Lemma reachable_is_settled_witness :
  exists t, buildTournament five = Ok t /\ fastForwardIfNeeded t = Ok t.
Proof.
  destruct (buildTournament five) as [t|] eqn:E; [|discriminate].
  exists t. split; [done|].
  apply (reachable_is_settled t). by apply (reach_build five).
Defined.

(** ** Progress *)

Lemma getTotalDone_sums t :
  getTotalDone t
  = (sum_list (roundSlots <$> rounds t), sum_list (decidedCount <$> rounds t)).
Proof.
  unfold getTotalDone. rewrite fold_countRound. simpl. f_equal.
  apply sum_list_fmap_eq, Forall_forall. intros r _.
  apply roundDecided_decidedCount.
Qed.

(** X3. For every tournament value the "done" count of [getTotalDone]
    never exceeds its "total": the progress bar cannot overflow. *)
Theorem getTotalDone_done_le_total (t : Tournament) :
  (getTotalDone t).2 <= (getTotalDone t).1.
Proof.
  rewrite getTotalDone_sums. simpl.
  apply sum_list_fmap_le, decidedCount_le_slots.
Qed.

(** X4. In a tournament the engine produced, the "done" count of
    [getTotalDone] is the number of history entries: every decision is
    recorded once and counted once.  Each entry names a round built so
    far. *)
Theorem history_counts_decisions (t : Tournament) :
  Reachable t ->
  (getTotalDone t).2 = length (history t) /\
  Forall (fun h => roundOfEntry h <= roundIndex t) (history t).
Proof.
  intros (n & _ & L1 & _ & _ & L4 & _)%Reachable_Ledger.
  rewrite getTotalDone_sums. by split.
Qed.

Lemma history_counts_decisions_witness :
  exists t0 t,
    buildTournament five = Ok t0 /\ play [PickA; PickB] t0 = Ok t /\
    (getTotalDone t).2 = length (history t).
Proof.
  destruct (buildTournament five) as [t0|] eqn:E0; [|discriminate].
  destruct (play [PickA; PickB] t0) as [t|] eqn:E1;
    [|injection E0 as <-; discriminate].
  exists t0, t. split; [done|]. split; [done|].
  apply (history_counts_decisions t).
  apply Reachable_run. by exists five, t0, [OpPick PickA; OpPick PickB].
Defined.



(** ** The shape of the bracket *)



(** ** Provenance *)

Lemma targetMatch_of (P : Slot -> Prop) t m :
  tournamentOf P t -> targetMatch t = Some m -> matchOf P m.
Proof.
  intros [_ Hrs]. unfold targetMatch.
  destruct (cursor t) as [[? [|]|? i]|]; [| | |done];
    destruct (rounds t !! roundIndex t) as [r|] eqn:Hlk; try done;
    pose proof (Forall_lookup_1 _ _ _ _ Hrs Hlk) as Hr;
    destruct r as [|ents tp q f|ents bye ms]; try done.
  - intros [= <-]. by destruct Hr as (_ & ? & _).
  - intros ->. by destruct Hr as (_ & _ & ?).
  - intros Hm. destruct Hr as [_ Hms]. by eapply Forall_lookup_1 in Hm.
Qed.

Lemma winnerIdOf_entryOf round cur w : winnerIdOf (entryOf round cur w) = eid w.
Proof. by destruct cur. Qed.



(** ** The screen *)

(** X8. On a tournament the engine produced, [progressLabel] never throws;
    it reads "Finished" exactly when the champion is set; and at a match
    cursor it reads "Round r • Match k/total" with [k] between 1 and the
    number of matches of the active round. *)
Theorem progressLabel_reachable (t : Tournament) :
  Reachable t ->
  exists label,
    progressLabel (Some t) = Ok label /\
    (is_Some (champion t) <-> label = "Finished"%string) /\
    (forall rd idx, cursor t = Some (CMatch rd idx) ->
       exists ents bye ms,
         rounds t !! roundIndex t = Some (RNormal ents bye ms) /\
         rd = roundIndex t /\ idx + 1 <= length ms /\
         label = ("Round " +:+ pretty (roundIndex t + 1) +:+ " • Match "
                    +:+ pretty (idx + 1) +:+ "/" +:+ pretty (length ms))%string).
Proof.
  intros [n HI]%Reachable_Inv.
  destruct (Inv_cursor n t HI) as [Hcn _].
  destruct (Inv_active n t HI) as (r & Hlk & _).
  destruct HI as (Hc & _).
  unfold progressLabel. rewrite Hlk.
  destruct (champion t) as [c|] eqn:Ech; cbn [truthy].
  { exists "Finished"%string. split; [done|]. split; [done|].
    intros rd idx Hcur. rewrite Hcn in Hcur by eauto. done. }
  assert (Hno : forall s : string, (is_Some (@None Entrant) <-> ("Round " +:+ s)%string = "Finished"%string))
    by (intros s; split; [by intros [? ?] | done]).
  unfold deriveCursor in Hc. rewrite Hlk in Hc. rewrite Hc.
  destruct r as [ents|ents tp q f|ents bye ms].
  - eexists. split; [done|]. split; [apply Hno | done].
  - destruct (negb (truthy (m_winner q))).
    { eexists. split; [done|]. split; [apply Hno | done]. }
    destruct f as [fm|]; [|eexists; split; [done|]; split; [apply Hno | done]].
    destruct (negb (truthy (m_winner fm))).
    + eexists. split; [done|]. split; [|done].
      split; [by intros [? ?] | done].
    + eexists. split; [done|]. split; [apply Hno | done].
  - destruct (findIndex pending ms) as [i|] eqn:Ef.
    + eexists. split; [done|]. split; [apply Hno|].
      intros rd idx [= <- <-]. exists ents, bye, ms.
      destruct (findIndex_Some _ _ _ Ef) as (m & Hm & _).
      apply lookup_lt_Some in Hm.
      split; [done|]. split; [done|]. split; [lia | done].
    + eexists. split; [done|]. split; [apply Hno | done].
Qed.

Lemma progressLabel_reachable_witness :
  exists t label,
    buildTournament five = Ok t /\ progressLabel (Some t) = Ok label /\
    (is_Some (champion t) <-> label = "Finished"%string).
Proof.
  eexists. 
  assert (HR : Reachable (mkTournament 0 [makeRound five] (Some (CMatch 0 0)) None [])).
  { apply (reach_build five). vm_compute. reflexivity. }
  destruct (progressLabel_reachable _ HR) as (label & Hl & Hf & _).
  exists label. split; [vm_compute; reflexivity|]. split; [exact Hl | exact Hf].
Defined.

(** The stage shows the two slots of the match under the cursor. *)
Lemma currentStage_target t m :
  champion t = None -> targetMatch t = Some m ->
  exists st, currentStage (Some t) = Ok (Some st) /\
             stage_a st = m_a m /\ stage_b st = m_b m.
Proof.
  intros Hch. unfold targetMatch, currentStage. rewrite Hch. cbn [truthy].
  destruct (cursor t) as [[? [|]|? i]|]; [| | |done];
    destruct (rounds t !! roundIndex t) as [r|]; try done;
    destruct r as [|ents tp q f|ents bye ms]; try done.
  - intros [= <-]. by eexists.
  - intros ->. by eexists.
  - intros Hm. eexists. split; [done|]. simpl. by rewrite Hm.
Qed.

(** With both slots filled the two cards are there, the more popular one
    on top, and each card stands for the side that holds it. *)
Lemma displayed_pair st m :
  stage_a st = m_a m -> stage_b st = m_b m ->
  is_Some (m_a m) -> is_Some (m_b m) ->
  exists d, displayed (Some st) = Some d /\
    is_Some (d_top d) /\ is_Some (d_bottom d) /\
    (popularityOr0 (d_bottom d) <= popularityOr0 (d_top d))%Z /\
    pickOf (topPickSide d) m = d_top d /\
    pickOf (bottomPickSide d) m = d_bottom d /\
    topPickSide d <> bottomPickSide d.
Proof.
  intros Ha Hb [a Ea] [b Eb]. unfold displayed, normalizePair.
  rewrite Ha, Hb, Ea, Eb. cbn [truthy negb orb].
  destruct (popularityOr0 (Some b) <=? popularityOr0 (Some a))%Z eqn:E.
  - apply Z.leb_le in E. eexists. split; [done|]. simpl in E |- *.
    rewrite Ea, Eb. do 2 (split; [eauto|]). split; [lia|]. done.
  - apply Z.leb_gt in E. eexists. split; [done|]. simpl in E |- *.
    rewrite Ea, Eb. do 2 (split; [eauto|]). split; [lia|]. done.
Qed.

(** X9. A tournament run from at least one present entrant always renders
    the champion card or the duel cards, never the "Preparing" card and
    never an error.  The duel shows the two entrants of the match under
    the cursor, the more popular one on top, and the side attached to each
    card is the side of the match that holds it. *)
Theorem screen_never_preparing (tracks : list Slot) (t0 t : Tournament) (ops : list Op) :
  buildTournament tracks = Ok t0 -> run ops t0 = Ok t -> alive tracks <> [] ->
  (exists c, champion t = Some c /\ screenOf t = Ok (ChampionCard c)) \/
  (exists st d m,
     champion t = None /\ screenOf t = Ok (DuelCards st d) /\
     targetMatch t = Some m /\ m_winner m = None /\
     stage_a st = m_a m /\ stage_b st = m_b m /\
     is_Some (d_top d) /\ is_Some (d_bottom d) /\
     (popularityOr0 (d_bottom d) <= popularityOr0 (d_top d))%Z /\
     pickOf (topPickSide d) m = d_top d /\
     pickOf (bottomPickSide d) m = d_bottom d /\
     topPickSide d <> bottomPickSide d).
Proof.
  intros Hb Hr Hne.
  destruct (run_Ledger tracks t0 ops t Hb Hr) as [HI _].
  assert (Hn : 0 < length (alive tracks)) by (destruct (alive tracks); [done | simpl; lia]).
  unfold screenOf.
  destruct (champion t) as [c|] eqn:Ech; [left; eauto|]. right.
  destruct (Inv_cursor _ t HI) as [_ Hcur].
  destruct (Hcur Ech Hn) as [cur Hcu].
  destruct (applyPick_shape _ t PickA cur HI Hcu)
    as (past & r & m & w & tail & t1 & _ & _ & _ & Htm & (Hma & Hmb & _) & Hwm & _).
  destruct (currentStage_target t m Ech Htm) as (st & Hst & Ha & Hb').
  destruct (displayed_pair st m Ha Hb' Hma Hmb) as (d & Hd & Hrest).
  exists st, d, m. rewrite Hst. cbn [bindR]. rewrite Hd.
  split; [done|]. split; [done|]. split; [done|]. split; [done|].
  split; [done|]. split; [done|]. exact Hrest.
Qed.

Lemma screen_never_preparing_witness :
  exists t0 t,
    buildTournament five = Ok t0 /\ play [PickA] t0 = Ok t /\
    ((exists c, champion t = Some c /\ screenOf t = Ok (ChampionCard c)) \/
     (exists st d, screenOf t = Ok (DuelCards st d))).
Proof.
  eexists _, _. split; [vm_compute; reflexivity|].
  split; [vm_compute; reflexivity|].
  match goal with
  | |- (exists c, champion ?t = _ /\ _) \/ _ =>
      destruct (screen_never_preparing five
                  (mkTournament 0 [makeRound five] (Some (CMatch 0 0)) None [])
                  t [OpPick PickA])
        as [H|(st & d & m & _ & H & _)]
  end.
  - vm_compute. reflexivity.
  - vm_compute. reflexivity.
  - discriminate.
  - by left.
  - right. eauto.
Defined.

(** X10. Tapping a card picks the entrant shown on it: when the duel cards
    show [d] for a tournament the engine produced, [applyPick] with the
    side attached to a card succeeds, pushes one history entry carrying
    the id of the entrant on that card, and if the pick ends the
    tournament that entrant is the champion. *)
Theorem tap_picks_shown_entrant (t : Tournament) (st : Stage) (d : Displayed) (top_card : bool) :
  Reachable t -> screenOf t = Ok (DuelCards st d) ->
  let side := if top_card then topPickSide d else bottomPickSide d in
  let shown := if top_card then d_top d else d_bottom d in
  exists w cur t',
    shown = Some w /\ cursor t = Some cur /\
    applyPick t side = Ok t' /\
    history t' = history t ++ [entryOf (roundIndex t) cur w] /\
    (is_Some (champion t') -> champion t' = Some w).
Proof.
  intros [n HI]%Reachable_Inv Hs side shown.
  unfold screenOf in Hs.
  destruct (champion t) as [c|] eqn:Ech; [done|].
  destruct (currentStage (Some t)) as [[st'|]|] eqn:Ecs;
    cbn [bindR] in Hs; try done.
  destruct (displayed (Some st')) as [d'|] eqn:Ed; [|done].
  injection Hs as -> ->.
  assert (Hcu : is_Some (cursor t)).
  { unfold currentStage in Ecs. rewrite Ech in Ecs. cbn [truthy] in Ecs.
    destruct (rounds t !! roundIndex t); [|done].
    destruct (cursor t); [eauto | done]. }
  destruct Hcu as [cur Hcu].
  destruct (applyPick_shape n t side cur HI Hcu)
    as (past & r & m & w & tail & t1 & _ & _ & _ & Htm & (Hma & Hmb & _) & _ &
        Hpk & Ha & Hh & _ & _ & _ & _ & Hchamp & _).
  destruct (currentStage_target t m Ech Htm) as (st2 & Hst & Ha' & Hb').
  rewrite Ecs in Hst. injection Hst as <-.
  destruct (displayed_pair st m Ha' Hb' Hma Hmb)
    as (d2 & Hd & _ & _ & _ & Htop & Hbot & _).
  rewrite Ed in Hd. injection Hd as <-.
  exists w, cur, t1. split.
  { unfold shown, side in *. destruct top_card; congruence. }
  split; [done|]. split; [done|]. split; [done|].
  intros Hc. by apply Hchamp.
Qed.

Lemma tap_picks_shown_entrant_witness :
  exists t t' cur,
    buildTournament trio = Ok t /\ cursor t = Some cur /\
    applyPick t PickA = Ok t' /\
    history t' = history t ++ [entryOf (roundIndex t) cur (track "t60" 60)].
Proof.
  pose (t := mkTournament 0 [makeRound trio] (Some (CSpecial 0 three)) None []).
  assert (HR : Reachable t).
  { apply (reach_build trio). vm_compute. reflexivity. }
  assert (Hs : screenOf t
               = Ok (DuelCards
                       (mkStage KThree (Some (track "t60" 60)) (Some (track "t40" 40))
                          (Some (track "t90" 90)) (makeRound trio))
                       (mkDisplayed (Some (track "t60" 60)) (Some (track "t40" 40))
                          PickA PickB))).
  { vm_compute. reflexivity. }
  destruct (tap_picks_shown_entrant t _ _ true HR Hs)
    as (w & cur & t' & Hw & Hc & Ha & Hh & _).
  simpl in Hw. injection Hw as <-.
  exists t, t', cur. split; [vm_compute; reflexivity|].
  split; [exact Hc|]. split; [exact Ha | exact Hh].
Defined.

(** * The playlist reference parser *)

Lemma stripPrefix_Some p s r : stripPrefix p s = Some r -> s = p ++ r.
Proof.
  revert s. induction p as [|a p IH]; intros s; simpl.
  - by intros [= ->].
  - destruct s as [|b s]; [done|].
    destruct (N.eqb_spec a b) as [->|]; [|done].
    intros H. by rewrite (IH _ H).
Qed.

Lemma stripPrefix_app p r : stripPrefix p (p ++ r) = Some r.
Proof. induction p as [|a p IH]; simpl; [done|]. by rewrite N.eqb_refl. Qed.

Lemma alnumRun_alnum s : forallb isAlnum (alnumRun s) = true.
Proof.
  induction s as [|c s IH]; simpl; [done|].
  destruct (isAlnum c) eqn:E; simpl; [by rewrite E | done].
Qed.

Lemma alnumRun_prefix s : exists rest, s = alnumRun s ++ rest.
Proof.
  induction s as [|c s [rest IH]]; simpl; [by exists []|].
  destruct (isAlnum c); [|by eexists].
  exists rest. simpl. by rewrite <- IH.
Qed.

Lemma alnumRun_app id rest :
  forallb isAlnum id = true ->
  (rest = [] \/ exists c r, rest = c :: r /\ isAlnum c = false) ->
  alnumRun (id ++ rest) = id.
Proof.
  intros Hid Hrest. induction id as [|c id IH]; simpl.
  - destruct Hrest as [->|(c & r & -> & Hc)]; simpl; [done | by rewrite Hc].
  - simpl in Hid. apply andb_prop in Hid as [Hc Hid]. rewrite Hc.
    by rewrite IH.
Qed.

Lemma nonEmpty_true {A} (l : list A) : nonEmpty l = true <-> l <> [].
Proof. by destruct l. Qed.

Lemma matchId_Some s x :
  matchId s = Some x -> x = s /\ s <> [] /\ forallb isAlnum s = true.
Proof.
  unfold matchId. destruct (nonEmpty s) eqn:E1; [|done].
  destruct (forallb isAlnum s) eqn:E2; [|done]. simpl.
  intros [= <-]. by apply nonEmpty_true in E1.
Qed.

Lemma matchId_alnum s :
  s <> [] -> forallb isAlnum s = true -> matchId s = Some s.
Proof.
  intros Hne Hs. unfold matchId. rewrite Hs.
  apply nonEmpty_true in Hne. by rewrite Hne.
Qed.

Lemma occursIn_refl s : occursIn s s.
Proof. exists [], []. by rewrite app_nil_r. Qed.

Lemma occursIn_trans a b c : occursIn a b -> occursIn b c -> occursIn a c.
Proof.
  intros (l1 & r1 & ->) (l2 & r2 & ->). exists (l2 ++ l1), (r1 ++ r2).
  by rewrite <- !app_assoc.
Qed.

Lemma matchUrlHere_Some s x :
  matchUrlHere s = Some x ->
  x <> [] /\ forallb isAlnum x = true /\
  exists rest, s = units "spotify.com/playlist/" ++ x ++ rest.
Proof.
  unfold matchUrlHere.
  destruct (stripPrefix _ s) as [r|] eqn:E; [|done]. cbn [mbind option_bind].
  destruct (nonEmpty (alnumRun r)) eqn:En; [|done]. intros [= <-].
  split; [by apply nonEmpty_true|]. split; [apply alnumRun_alnum|].
  destruct (alnumRun_prefix r) as [rest Hr]. exists rest.
  rewrite <- Hr. by apply stripPrefix_Some.
Qed.

Lemma searchUrl_Some s x :
  searchUrl s = Some x ->
  x <> [] /\ forallb isAlnum x = true /\
  exists before rest, s = before ++ units "spotify.com/playlist/" ++ x ++ rest.
Proof.
  induction s as [|c s IH]; cbn [searchUrl].
  - destruct (matchUrlHere []) as [y|] eqn:E; [|done]. intros [= <-].
    destruct (matchUrlHere_Some _ _ E) as (? & ? & rest & Hr).
    split; [done|]. split; [done|]. by exists [], rest.
  - destruct (matchUrlHere (c :: s)) as [y|] eqn:E.
    + intros [= <-]. destruct (matchUrlHere_Some _ _ E) as (? & ? & rest & Hr).
      split; [done|]. split; [done|]. by exists [], rest.
    + intros H. destruct (IH H) as (? & ? & before & rest & ->).
      split; [done|]. split; [done|]. by exists (c :: before), rest.
Qed.

Lemma searchUrl_skip c s :
  matchUrlHere (c :: s) = None -> searchUrl (c :: s) = searchUrl s.
Proof. intros H. cbn [searchUrl]. by rewrite H. Qed.

Lemma searchUrl_here s x : matchUrlHere s = Some x -> searchUrl s = Some x.
Proof. intros H. destruct s; cbn [searchUrl]; by rewrite H. Qed.

(** Literals are brought to their code units before a text is scanned. *)
Ltac eval_units :=
  repeat match goal with
         | |- context [units ?s] =>
             let v := eval vm_compute in (units s) in
             change (units s) with v
         end.

Lemma trimStart_suffix s :
  exists ws, s = ws ++ trimStart s /\ forallb isWhite ws = true.
Proof.
  induction s as [|c s (ws & IH & Hws)]; simpl; [by exists []|].
  destruct (isWhite c) eqn:E; [|by exists []].
  exists (c :: ws). simpl. rewrite E, Hws. split; [by rewrite <- IH | done].
Qed.

Section DropEndWhile.
Context {A : Type} (p : A -> bool).

Lemma dropEndWhile_prefix s :
  exists ws, s = dropEndWhile p s ++ ws /\ forallb p ws = true.
Proof.
  induction s as [|c s (ws & IH & Hws)]; simpl; [by exists []|].
  destruct (dropEndWhile p s) as [|d r] eqn:E.
  - simpl in IH. subst ws. destruct (p c) eqn:Ec.
    + exists (c :: s). simpl. by rewrite Ec, Hws.
    + by exists s.
  - exists ws. split; [|done]. simpl. by rewrite IH at 1.
Qed.

Lemma dropEndWhile_all ws : forallb p ws = true -> dropEndWhile p ws = [].
Proof.
  induction ws as [|c ws IH]; simpl; [done|].
  intros [-> Hws]%andb_prop. by rewrite IH.
Qed.

Lemma dropEndWhile_app_all s ws :
  forallb p ws = true -> dropEndWhile p (s ++ ws) = dropEndWhile p s.
Proof.
  intros Hws. pose proof (dropEndWhile_all ws Hws) as H0.
  induction s as [|c s IH]; simpl; [done|]. by rewrite IH.
Qed.

Lemma dropEndWhile_solid l r :
  l <> [] -> forallb (fun c => negb (p c)) l = true ->
  dropEndWhile p (l ++ r) = l ++ dropEndWhile p r.
Proof.
  induction l as [|c l IH]; [done|]. intros _ Hl. simpl in Hl.
  apply andb_prop in Hl as [Hc Hl]. apply negb_true_iff in Hc.
  destruct l as [|d l].
  - simpl. rewrite Hc. by destruct (dropEndWhile p r).
  - change (dropEndWhile p ((c :: d :: l) ++ r))
      with (match dropEndWhile p ((d :: l) ++ r) with
            | [] => if p c then [] else [c]
            | x => c :: x
            end).
    rewrite IH by done. done.
Qed.

Lemma dropEndWhile_solid_id l :
  forallb (fun c => negb (p c)) l = true -> dropEndWhile p l = l.
Proof.
  intros Hl. destruct l as [|c l]; [done|].
  rewrite <- (app_nil_r (c :: l)) at 1. rewrite dropEndWhile_solid by done.
  by rewrite app_nil_r.
Qed.

Lemma dropEndWhile_head c r :
  dropEndWhile p (c :: r) = [] \/ exists r', dropEndWhile p (c :: r) = c :: r'.
Proof.
  simpl. destruct (dropEndWhile p r); [|by eauto].
  destruct (p c); [by left | by eauto].
Qed.

End DropEndWhile.

Lemma trimEnd_prefix s :
  exists ws, s = trimEnd s ++ ws /\ forallb isWhite ws = true.
Proof. apply dropEndWhile_prefix. Qed.

Lemma trim_occursIn s : occursIn (trim s) s.
Proof.
  destruct (trimStart_suffix s) as (ws1 & H1 & _).
  destruct (trimEnd_prefix (trimStart s)) as (ws2 & H2 & _).
  exists ws1, ws2. unfold trim. by rewrite <- H2.
Qed.

(** X11. Whatever text is given, a playlist id returned by
    [parseSpotifyPlaylistId] is a non-empty run of ASCII letters and
    digits taken from the input: no slash, dot, query or whitespace ever
    reaches the request path built from it.  The empty input is
    rejected. *)
Theorem parseSpotifyPlaylistId_sound (input playlistId : list N) :
  parseSpotifyPlaylistId input = Some playlistId ->
  playlistId <> [] /\ forallb isAlnum playlistId = true /\
  occursIn playlistId input.
Proof.
  unfold parseSpotifyPlaylistId. destruct (negb (nonEmpty input)); [done|].
  cbv zeta. pose proof (trim_occursIn input) as Ht.
  destruct (matchUri (trim input)) as [x|] eqn:E1.
  { intros [= <-]. unfold matchUri in E1.
    destruct (stripPrefix _ (trim input)) as [r|] eqn:Es; [|done].
    cbn [mbind option_bind] in E1.
    destruct (matchId_Some _ _ E1) as (-> & Hne & Hal).
    split; [done|]. split; [done|].
    eapply occursIn_trans; [|exact Ht].
    exists (units "spotify:playlist:"), [].
    rewrite app_nil_r. by apply stripPrefix_Some. }
  destruct (searchUrl (trim input)) as [x|] eqn:E2.
  { intros [= <-]. destruct (searchUrl_Some _ _ E2) as (Hne & Hal & b & r & Hs).
    split; [done|]. split; [done|].
    eapply occursIn_trans; [|exact Ht].
    exists (b ++ units "spotify.com/playlist/"), r.
    by rewrite <- app_assoc. }
  intros H. destruct (matchId_Some _ _ H) as (-> & Hne & Hal).
  split; [done|]. split; [done|]. done.
Qed.

Lemma parseSpotifyPlaylistId_sound_witness :
  forallb isAlnum (units "37i9dQZF1DXcBWIGoYBM5M") = true.
Proof.
  apply (parseSpotifyPlaylistId_sound
           (units " https://open.spotify.com/playlist/37i9dQZF1DXcBWIGoYBM5M?si=abc ")
           (units "37i9dQZF1DXcBWIGoYBM5M")).
  vm_compute. reflexivity.
Defined.

Lemma isAlnum_not_white c : isAlnum c = true -> isWhite c = false.
Proof.
  unfold isAlnum, isWhite. intros H.
  assert (Hr : (48 <= c <= 122)%N).
  { repeat match type of H with
           | (_ || _)%bool = true => apply orb_prop in H as [H|H]
           | (_ && _)%bool = true => apply andb_prop in H as [?%N.leb_le ?%N.leb_le]
           end; lia. }
  apply orb_false_intro.
  - apply bool_decide_eq_false. intros Hin.
    repeat (apply elem_of_cons in Hin as [->|Hin]; [lia|]).
    by apply elem_of_nil in Hin.
  - apply andb_false_intro1, N.leb_gt. lia.
Qed.

Lemma forallb_alnum_not_white s :
  forallb isAlnum s = true -> forallb (fun c => negb (isWhite c)) s = true.
Proof.
  induction s as [|c s IH]; simpl; [done|].
  intros [Hc Hs]%andb_prop. by rewrite (isAlnum_not_white c Hc), IH.
Qed.

Lemma trimStart_white ws s :
  forallb isWhite ws = true -> trimStart (ws ++ s) = trimStart s.
Proof.
  induction ws as [|c ws IH]; simpl; [done|].
  intros [-> Hws]%andb_prop. by apply IH.
Qed.

Lemma trimEnd_white s ws :
  forallb isWhite ws = true -> trimEnd (s ++ ws) = trimEnd s.
Proof. apply dropEndWhile_app_all. Qed.

Lemma trimEnd_solid l r :
  l <> [] -> forallb (fun c => negb (isWhite c)) l = true ->
  trimEnd (l ++ r) = l ++ trimEnd r.
Proof. apply dropEndWhile_solid. Qed.

Lemma trimEnd_solid_id l :
  forallb (fun c => negb (isWhite c)) l = true -> trimEnd l = l.
Proof. apply dropEndWhile_solid_id. Qed.

Lemma trimEnd_head c r :
  trimEnd (c :: r) = [] \/ exists r', trimEnd (c :: r) = c :: r'.
Proof. apply dropEndWhile_head. Qed.

Lemma forallb_app_true {A} (p : A -> bool) l k :
  forallb p l = true -> forallb p k = true -> forallb p (l ++ k) = true.
Proof. intros Hl Hk. rewrite forallb_app. by rewrite Hl, Hk. Qed.

Lemma not_alnum_occurs lit s :
  forallb isAlnum lit = false -> forallb isAlnum s = true -> ~ occursIn lit s.
Proof.
  intros Hlit Hs (b & a & ->). rewrite !forallb_app in Hs.
  rewrite Hlit in Hs. by destruct (forallb isAlnum b).
Qed.

(** X12. The three ways of naming a playlist are all read, with blanks
    around them ignored: a bare id, the URI [spotify:playlist:<id>], and a
    share link [https://open.spotify.com/playlist/<id>], also when the
    link goes on with a query or other text that does not start with a
    letter or digit. *)
Theorem parseSpotifyPlaylistId_accepts (playlistId lead trail : list N) :
  playlistId <> [] -> forallb isAlnum playlistId = true ->
  forallb isWhite lead = true -> forallb isWhite trail = true ->
  parseSpotifyPlaylistId (lead ++ playlistId ++ trail) = Some playlistId /\
  parseSpotifyPlaylistId
    (lead ++ units "spotify:playlist:" ++ playlistId ++ trail)
  = Some playlistId /\
  (forall rest,
     rest = [] \/ (exists c r, rest = c :: r /\ isAlnum c = false) ->
     parseSpotifyPlaylistId
       (lead ++ units "https://open.spotify.com/playlist/" ++ playlistId ++ rest)
     = Some playlistId).
Proof.
  intros Hne Hal Hlead Htrail.
  pose proof (forallb_alnum_not_white _ Hal) as Hnw.
  assert (Hin : forall pre post : list N,
            negb (nonEmpty (pre ++ playlistId ++ post)) = false).
  { intros pre post. destruct pre; [|done]. by destruct playlistId. }
  split; [|split].
  - unfold parseSpotifyPlaylistId. rewrite (Hin lead trail). cbv zeta.
    unfold trim. rewrite trimStart_white by done.
    assert (trimStart (playlistId ++ trail) = playlistId ++ trail) as ->.
    { destruct playlistId as [|c l]; [done|]. simpl in *.
      apply andb_prop in Hnw as [Hc _]. apply negb_true_iff in Hc.
      by rewrite Hc. }
    rewrite trimEnd_white by done.
    rewrite trimEnd_solid_id by done.
    assert (matchUri playlistId = None) as ->.
    { unfold matchUri.
      destruct (stripPrefix _ playlistId) as [r|] eqn:E; [|done].
      apply stripPrefix_Some in E. exfalso.
      eapply (not_alnum_occurs (units "spotify:playlist:") playlistId);
        [done | done |]. exists [], r. by rewrite E. }
    assert (searchUrl playlistId = None) as ->.
    { destruct (searchUrl playlistId) as [x|] eqn:E; [|done].
      destruct (searchUrl_Some _ _ E) as (_ & _ & b & r & Hs). exfalso.
      eapply (not_alnum_occurs (units "spotify.com/playlist/") playlistId);
        [done | done |]. exists b, (x ++ r). by rewrite Hs at 1. }
    by apply matchId_alnum.
  - unfold parseSpotifyPlaylistId.
    rewrite (app_assoc lead), (Hin _ trail), <- (app_assoc lead). cbv zeta.
    unfold trim. rewrite trimStart_white by done.
    change (trimStart (units "spotify:playlist:" ++ playlistId ++ trail))
      with (units "spotify:playlist:" ++ playlistId ++ trail).
    rewrite (app_assoc _ playlistId trail), trimEnd_white by done.
    rewrite trimEnd_solid_id by by apply forallb_app_true.
    unfold matchUri. rewrite stripPrefix_app. cbn [mbind option_bind].
    by rewrite matchId_alnum.
  - intros rest Hrest. unfold parseSpotifyPlaylistId.
    rewrite (app_assoc lead), (Hin _ rest), <- (app_assoc lead). cbv zeta.
    unfold trim. rewrite trimStart_white by done.
    change (trimStart (units "https://open.spotify.com/playlist/"
                         ++ playlistId ++ rest))
      with (units "https://open.spotify.com/playlist/" ++ playlistId ++ rest).
    rewrite (app_assoc _ playlistId rest).
    rewrite trimEnd_solid;
      [|by destruct playlistId | by apply forallb_app_true].
    assert (Hrest' : trimEnd rest = [] \/
                     exists c r, trimEnd rest = c :: r /\ isAlnum c = false).
    { destruct Hrest as [->|(c & r & -> & Hc)]; [by left|].
      destruct (trimEnd_head c r) as [->|[r' ->]]; [by left | right; eauto]. }
    rewrite <- app_assoc.
    pose proof (alnumRun_app playlistId (trimEnd rest) Hal Hrest') as Hrun.
    apply nonEmpty_true in Hne.
    set (tail := playlistId ++ trimEnd rest) in *.
    assert (matchUri (units "https://open.spotify.com/playlist/" ++ tail) = None)
      as -> by reflexivity.
    eval_units. cbn [app].
    do 13 (rewrite searchUrl_skip by reflexivity).
    erewrite searchUrl_here; [done|].
    unfold matchUrlHere.
    match goal with
    | |- context [stripPrefix ?p ?s] =>
        change (stripPrefix p s) with (stripPrefix p (p ++ tail))
    end.
    rewrite stripPrefix_app. cbn [mbind option_bind]. by rewrite Hrun, Hne.
Qed.

Lemma parseSpotifyPlaylistId_accepts_witness :
  parseSpotifyPlaylistId (units "  spotify:playlist:abc123 ")
  = Some (units "abc123").
Proof.
  apply (parseSpotifyPlaylistId_accepts (units "abc123") (units "  ") (units " "));
    vm_compute; (reflexivity || discriminate).
Defined.

(** * Images *)

Lemma urlAt_listed images i u :
  urlAt images i = u -> truthyText u = true ->
  exists img, Some img ∈ images /\ url img = u.
Proof.
  unfold urlAt. intros <- Ht.
  destruct (images !! i) as [[img|]|] eqn:E; [|done..].
  exists img. split; [by eapply list_elem_of_lookup_2 | done].
Qed.

Lemma lookup_listed (images : list (option Image)) i img :
  images !! i = Some (Some img) -> Some img ∈ images.
Proof. apply list_elem_of_lookup_2. Qed.

(** X13. [getImage] answers [null] for a missing or empty list.  A result
    that is a usable URL is always the URL of one of the listed images.
    When every listed image carries a URL the call never throws and picks
    the first image for "lg", the last for "sm" and the middle one
    (index [floor (length / 2)]) otherwise. *)
Theorem getImage_picks (images : list (option Image)) (size : Size) :
  (forall sz, getImage None sz = Ok None /\ getImage (Some []) sz = Ok None) /\
  (forall u, getImage (Some images) size = Ok u -> truthyText u = true ->
     exists img, Some img ∈ images /\ url img = u) /\
  (images <> [] ->
   Forall (fun i => exists img, i = Some img /\ truthyText (url img) = true) images ->
   exists img,
     images !! (match size with
                | SizeLg => 0
                | SizeSm => length images - 1
                | SizeMd => length images / 2
                end) = Some (Some img) /\
     getImage (Some images) size = Ok (url img)).
Proof.
  split; [done|]. split.
  - intros u. destruct images as [|i0 images]; [by intros [= <-]|].
    unfold getImage. set (l := i0 :: images).
    destruct size; unfold orFirstUrl, firstUrl.
    + destruct (truthyText (urlAt l (length l - 1))) eqn:E.
      * intros [= <-] _. by eapply urlAt_listed.
      * destruct (l !! 0) as [[img|]|] eqn:E0; [|done..].
        intros [= <-] _. exists img. split; [by eapply lookup_listed | done].
    + destruct (truthyText (urlAt l (length l / 2))) eqn:E.
      * intros [= <-] _. by eapply urlAt_listed.
      * destruct (l !! 0) as [[img|]|] eqn:E0; [|done..].
        intros [= <-] _. exists img. split; [by eapply lookup_listed | done].
    + destruct (truthyText (urlAt l 0)) eqn:E.
      * intros [= <-] _. by eapply urlAt_listed.
      * destruct (l !! (length l - 1)) as [[img|]|] eqn:E0; [|done..].
        intros [= <-] _. exists img. split; [by eapply lookup_listed | done].
  - intros Hne Hall.
    set (k := match size with
              | SizeLg => 0
              | SizeSm => length images - 1
              | SizeMd => length images / 2
              end).
    assert (Hk : k < length images).
    { assert (0 < length images) by (destruct images; [done | simpl; lia]).
      unfold k. destruct size; [lia | | lia].
      apply Nat.Div0.div_lt_upper_bound. lia. }
    destruct (lookup_lt_is_Some_2 images k Hk) as [i Hi].
    destruct (Forall_lookup_1 _ _ _ _ Hall Hi) as (img & -> & Ht).
    exists img. split; [done|].
    assert (Hu : urlAt images k = url img) by (unfold urlAt; by rewrite Hi).
    destruct images as [|i0 images]; [done|].
    unfold getImage. set (l := i0 :: images) in *.
    unfold k in Hu. destruct size; unfold orFirstUrl; rewrite Hu, Ht; done.
Qed.

Lemma getImage_picks_witness :
  getImage (Some [Some (mkImage (Some "big")); Some (mkImage (Some "mid"));
                  Some (mkImage (Some "small"))]%string) SizeSm
  = Ok (Some "small"%string).
Proof.
  destruct (getImage_picks
              [Some (mkImage (Some "big")); Some (mkImage (Some "mid"));
               Some (mkImage (Some "small"))]%string SizeSm)
    as (_ & _ & H).
  destruct H as (img & Hl & Hg); [done| |].
  - repeat constructor; eexists; (split; [reflexivity|]); reflexivity.
  - simpl in Hl. injection Hl as <-. exact Hg.
Defined.

(** * Clock text *)

Lemma pad_seconds (k : nat) :
  k < 60 ->
  padStart2 (pretty (Z.of_nat k))
  = String (pretty_N_char (N.of_nat (k / 10)))
      (String (pretty_N_char (N.of_nat (k mod 10))) "").
Proof.
  intros Hk.
  do 60 (destruct k as [|k]; [vm_compute; reflexivity|]). lia.
Qed.



(** X15. [clamp] keeps [n] inside [a..b] whenever [a <= b], leaving it
    alone if it is already inside; with the bounds crossed ([b < a]) it
    answers the lower bound [a] for every [n].  Clamping twice is
    clamping once. *)
Theorem clamp_bounds (n a b : Z) :
  ((a <= b)%Z ->
   ((a <= clamp n a b)%Z /\ (clamp n a b <= b)%Z) /\
   ((a <= n)%Z -> (n <= b)%Z -> clamp n a b = n)) /\
  ((b < a)%Z -> clamp n a b = a) /\
  clamp (clamp n a b) a b = clamp n a b.
Proof. unfold clamp. lia. Qed.

Lemma clamp_bounds_witness :
  (clamp 150 0 100 <= 100)%Z /\ clamp 5 10 0 = 10%Z.
Proof.
  pose proof (clamp_bounds 150 0 100) as (H1 & _).
  pose proof (clamp_bounds 5 10 0) as (_ & H2 & _).
  split; [apply H1; lia | apply H2; lia].
Defined.

(** * Random text and Base64url *)

Lemma in_allBytes b : (b < 256)%N -> b ∈ allBytes.
Proof.
  intros Hb. unfold allBytes. apply list_elem_of_fmap.
  exists (N.to_nat b). split; [by rewrite N2Nat.id|].
  apply elem_of_seq. lia.
Qed.

Lemma forallb_bytes (P : N -> bool) :
  forallb P allBytes = true -> forall b, (b < 256)%N -> P b = true.
Proof.
  intros H b Hb. rewrite forallb_forall in H. apply H.
  apply list_elem_of_In. by apply in_allBytes.
Qed.

Lemma randomChar_unreserved b :
  exists c, charAt randomChars (b mod N.of_nat (length randomChars)) = Some c /\
            isUnreserved c = true.
Proof.
  assert (Hall : forallb (fun k => match charAt randomChars k with
                                   | Some c => isUnreserved c
                                   | None => false
                                   end) allBytes = true -> True) by done.
  change (N.of_nat (length randomChars)) with 66%N.
  assert (Hk : (b mod 66 < 66)%N) by (apply N.mod_lt; lia).
  assert (H66 : forallb (fun k => (66 <=? k)%N
                                  || match charAt randomChars k with
                                     | Some c => isUnreserved c
                                     | None => false
                                     end) allBytes = true)
    by (vm_compute; reflexivity).
  pose proof (forallb_bytes _ H66 (b mod 66)%N ltac:(lia)) as H.
  cbv beta in H. apply orb_prop in H as [H|H]; [apply N.leb_le in H; lia|].
  destruct (charAt randomChars (b mod 66)) as [c|]; [eauto | done].
Qed.


(** The sextets of one to three bytes are Base64 characters. *)
Lemma sextets1 a :
  (a < 256)%N ->
  isBase64 (sextet (N.shiftr a 2)) && isBase64 (sextet (N.shiftl (N.land a 3) 4))
  = true.
Proof.
  apply (forallb_bytes
           (fun a => isBase64 (sextet (N.shiftr a 2))
                     && isBase64 (sextet (N.shiftl (N.land a 3) 4)))).
  vm_compute. reflexivity.
Qed.

Lemma sextets2 a b :
  (a < 256)%N -> (b < 256)%N ->
  isBase64 (sextet (N.lor (N.shiftl (N.land a 3) 4) (N.shiftr b 4)))
  && isBase64 (sextet (N.shiftl (N.land b 15) 2))
  && isBase64 (sextet (N.lor (N.shiftl (N.land a 15) 2) (N.shiftr b 6)))
  && isBase64 (sextet (N.land b 63))
  = true.
Proof.
  intros Ha Hb.
  pose proof (forallb_bytes
                (fun a => forallb
                   (fun b =>
                      isBase64 (sextet (N.lor (N.shiftl (N.land a 3) 4) (N.shiftr b 4)))
                      && isBase64 (sextet (N.shiftl (N.land b 15) 2))
                      && isBase64 (sextet (N.lor (N.shiftl (N.land a 15) 2) (N.shiftr b 6)))
                      && isBase64 (sextet (N.land b 63))) allBytes)
                ltac:(vm_compute; reflexivity) a Ha) as H.
  cbv beta in H. by apply (forallb_bytes _ H b Hb).
Qed.

(** Induction on a list three elements at a time. *)
Lemma list_ind3 {A} (P : list A -> Prop) :
  P [] -> (forall a, P [a]) -> (forall a b, P [a; b]) ->
  (forall a b c l, P l -> P (a :: b :: c :: l)) ->
  forall l, P l.
Proof.
  intros H0 H1 H2 H3.
  assert (H : forall l, P l /\ (forall a, P (a :: l)) /\ (forall a b, P (a :: b :: l))).
  { induction l as [|c l (IH0 & IH1 & IH2)]; [by repeat split|].
    split; [apply IH1|]. split; [intros a; apply IH2|]. intros a b. by apply H3. }
  intros l. apply H.
Qed.

(** [btoa] writes Base64 characters followed by the padding. *)
Lemma btoa_shape bytes :
  Forall (fun b => (b < 256)%N) bytes ->
  exists body,
    btoa bytes = body ++ replicate ((3 - length bytes mod 3) mod 3) 61%N /\
    forallb isBase64 body = true /\
    length body = (4 * length bytes + 2) / 3.
Proof.
  induction bytes as [|a|a b|a b c l IH] using list_ind3; intros Hb.
  - by exists [].
  - inversion Hb as [|? ? Ha _]; subst.
    pose proof (sextets1 a Ha) as [H1 H2]%andb_prop.
    eexists [_; _]. split; [reflexivity|]. split; [|done].
    simpl. by rewrite H1, H2.
  - inversion Hb as [|? ? Ha Hb']; subst. inversion Hb' as [|? ? Hb2 _]; subst.
    pose proof (sextets1 a Ha) as [H1 _]%andb_prop.
    pose proof (sextets2 a b Ha Hb2) as [[[H2 H3]%andb_prop _]%andb_prop _]%andb_prop.
    eexists [_; _; _]. split; [reflexivity|]. split; [|done].
    simpl. by rewrite H1, H2, H3.
  - inversion Hb as [|? ? Ha Hb']; subst. inversion Hb' as [|? ? Hb2 Hb'']; subst.
    inversion Hb'' as [|? ? Hc Hl]; subst.
    destruct (IH Hl) as (body & Hbt & Hbody & Hlen).
    pose proof (sextets1 a Ha) as [H1 _]%andb_prop.
    pose proof (sextets2 a b Ha Hb2) as [[[H2 _]%andb_prop _]%andb_prop _]%andb_prop.
    pose proof (sextets2 b c Hb2 Hc) as [[_ H3]%andb_prop H4]%andb_prop.
    eexists (_ :: _ :: _ :: _ :: body).
    split; [|split].
    + cbn [btoa]. rewrite Hbt. cbn [app length].
      replace (S (S (S (length l))) mod 3) with (length l mod 3); [done|].
      replace (S (S (S (length l)))) with (length l + 1 * 3) by lia.
      by rewrite Nat.Div0.mod_add.
    + cbn [forallb]. by rewrite H1, H2, H3, H4.
    + cbn [length]. rewrite Hlen.
      replace (4 * S (S (S (length l))) + 2) with (4 * length l + 2 + 4 * 3) by lia.
      rewrite Nat.div_add by done. lia.
Qed.

(** X17. For every byte sequence [base64UrlEncode] yields text over the
    Base64url alphabet only (letters, digits, [-] and [_]: no [+], [/] or
    padding [=]), of length [ceil (4 n / 3)]; the 32 bytes of a SHA-256
    digest give the 43 characters of a PKCE code challenge. *)
Theorem base64UrlEncode_alphabet (bytes : list N) :
  Forall (fun b => (b < 256)%N) bytes ->
  forallb isUrlSafe (base64UrlEncode bytes) = true /\
  length (base64UrlEncode bytes) = (4 * length bytes + 2) / 3 /\
  (length bytes = 32 -> length (base64UrlEncode bytes) = 43).
Proof.
  intros Hb. destruct (btoa_shape bytes Hb) as (body & Hbt & Hbody & Hlen).
  unfold base64UrlEncode. rewrite Hbt.
  set (f := fun c : N => if (c =? 47)%N then 95%N else c).
  set (g := fun c : N => if (c =? 43)%N then 45%N else c).
  assert (Hpad : forall k, replaceAll 47 95 (replaceAll 43 45 (replicate k 61%N))
                           = replicate k 61%N).
  { intros k. unfold replaceAll. rewrite !fmap_replicate. done. }
  assert (Hmap : forall c, isBase64 c = true ->
                   isUrlSafe (f (g c)) = true /\ (f (g c) =? 61)%N = false).
  { intros c Hc. unfold f, g.
    destruct (N.eqb_spec c 43) as [E1|E1]; [done|].
    destruct (N.eqb_spec c 47) as [E2|E2]; [done|].
    apply N.eqb_neq in E1, E2.
    unfold isBase64 in Hc. rewrite E1, E2, !orb_false_r in Hc.
    unfold isUrlSafe. rewrite Hc. split; [done|].
    apply N.eqb_neq. intros E. by rewrite E in Hc. }
  assert (Hres : dropTrailingEquals
                   (replaceAll 47 95 (replaceAll 43 45
                      (body ++ replicate ((3 - length bytes mod 3) mod 3) 61%N)))
                 = f <$> (g <$> body)).
  { unfold replaceAll at 1 2. rewrite !fmap_app.
    fold (replaceAll 43 45 (replicate ((3 - length bytes mod 3) mod 3) 61%N)).
    fold (replaceAll 47 95 (replaceAll 43 45
            (replicate ((3 - length bytes mod 3) mod 3) 61%N))).
    rewrite Hpad. unfold dropTrailingEquals.
    rewrite dropEndWhile_app_all.
    - apply dropEndWhile_solid_id.
      clear -Hbody Hmap. induction body as [|c body IH]; [done|].
      simpl in Hbody. apply andb_prop in Hbody as [Hc Hbody].
      rewrite !fmap_cons. cbn [forallb].
      destruct (Hmap c Hc) as [_ ->]. by rewrite IH.
    - clear. induction ((3 - length bytes mod 3) mod 3) as [|k IH]; [done|].
      simpl. by rewrite IH. }
  rewrite Hres.
  assert (Hl : length (f <$> (g <$> body)) = (4 * length bytes + 2) / 3)
    by by rewrite !length_fmap.
  split; [|split; [done|]].
  - clear -Hbody Hmap. induction body as [|c body IH]; [done|].
    simpl in Hbody. apply andb_prop in Hbody as [Hc Hbody].
    rewrite !fmap_cons. cbn [forallb].
    destruct (Hmap c Hc) as [-> _]. by rewrite IH.
  - intros H32. rewrite Hl, H32. done.
Qed.

Lemma base64UrlEncode_alphabet_witness :
  forallb isUrlSafe (base64UrlEncode [251; 255]%N) = true /\
  length (base64UrlEncode [251; 255]%N) = 3.
Proof.
  assert (H : Forall (fun b => (b < 256)%N) [251; 255]%N)
    by (repeat constructor; lia).
  destruct (base64UrlEncode_alphabet [251; 255]%N H) as (H1 & H2 & _).
  split; [exact H1 | exact H2].
Defined.

Example base64UrlEncode_plus_slash :
  base64UrlEncode [251; 255]%N = units "-_8" /\
  btoa [251; 255]%N = units "+/8=".
Proof. split; vm_compute; reflexivity. Qed.

(** * The playlist loader *)

Lemma truthyText_Some s : truthyText s = true -> exists x, s = Some x /\ x <> ""%string.
Proof.
  destruct s as [x|]; [|done]. simpl. intros H. exists x. split; [done|].
  intros ->. done.
Qed.

Lemma trackOf_Some it t :
  trackOf it = Loaded (Some t) ->
  loadedFrom it t /\ t_id t <> ""%string /\ t_uri t <> ""%string.
Proof.
  unfold trackOf. destruct it as [item|]; [|done]. simpl.
  destruct (it_track item) as [tr|] eqn:Et; [|done].
  destruct (tr_is_local tr) eqn:El; [done|].
  destruct (it_is_local item) eqn:Eil; [done|]. simpl.
  destruct (truthyText (tr_id tr)) eqn:Eid; [|done]. simpl.
  destruct (truthyText_Some _ Eid) as (id & Hid & Hne). rewrite Hid. simpl.
  destruct (artistNames _) as [names|]; [|done]. simpl.
  destruct (getImage _ _) as [img|]; [|done]. simpl.
  intros [= <-]. simpl. split; [|split; [done|]].
  - exists item, tr. by repeat split.
  - destruct (truthyText (tr_uri tr)) eqn:Eu; [|done].
    destruct (truthyText_Some _ Eu) as (u & -> & Hu). done.
Qed.

Lemma tracksOf_app l k : tracksOf (l ++ k) = tracksOf l ++ tracksOf k.
Proof. apply omap_app. Qed.

Lemma pushItems_spec its items r :
  pushItems its items = Loaded r -> r = items ++ tracksOf its.
Proof.
  revert items. induction its as [|it its IH]; intros items; simpl.
  - intros [= <-]. unfold tracksOf. simpl. by rewrite app_nil_r.
  - unfold tracksOf. simpl. destruct (trackOf it) as [[t|]|]; simpl; [| |done].
    + intros H. rewrite (IH _ H). by rewrite <- app_assoc.
    + apply IH.
Qed.

Lemma tracksOf_from its t :
  t ∈ tracksOf its ->
  exists it, it ∈ its /\ loadedFrom it t /\
             t_id t <> ""%string /\ t_uri t <> ""%string.
Proof.
  unfold tracksOf. intros (it & Hit & Ht)%list_elem_of_omap.
  exists it. split; [done|]. apply trackOf_Some.
  by destruct (trackOf it) as [[?|]|]; simplify_eq.
Qed.

(** The loop reads the pages in order and stops at the page without
    [next] or behind offset 2000. *)
Lemma pagesLoop_spec fetchPage fuel offset items r :
  offset + limit * fuel = 2100 ->
  pagesLoop fuel fetchPage offset items = Loaded r ->
  r = items ++ tracksOf (itemsUpTo fuel fetchPage offset).
Proof.
  revert offset items. induction fuel as [|fuel IH]; intros offset items Ho; [done|].
  cbn [pagesLoop itemsUpTo].
  destruct (fetchPage offset) as [page|]; [|done]. cbn [bindL].
  destruct (pushItems _ items) as [items'|] eqn:Ep; [|done]. cbn [bindL].
  apply pushItems_spec in Ep. subst items'. rewrite tracksOf_app.
  destruct (truthyText (page_next page)); cbn [negb].
  - destruct (2000 <? offset + limit) eqn:E.
    + apply Nat.ltb_lt in E. intros [= <-].
      assert (fuel = 0) as -> by (unfold limit in *; lia).
      simpl. by rewrite !app_nil_r.
    + intros H. apply IH in H; [|unfold limit in *; lia].
      rewrite H. by rewrite <- app_assoc.
  - intros [= <-]. unfold tracksOf at 2. simpl. by rewrite app_nil_r.
Qed.

Lemma pagesLoop_fuel fetchPage fuel offset items :
  offset + limit * fuel = 2100 -> 0 < fuel ->
  (forall o, fetchPage o <> Thrown LoadOutOfFuel) ->
  pagesLoop fuel fetchPage offset items <> Thrown LoadOutOfFuel.
Proof.
  intros Ho Hf Hfp. revert offset items Ho Hf.
  induction fuel as [|fuel IH]; intros offset items Ho Hf; [lia|].
  cbn [pagesLoop]. specialize (Hfp offset) as Hfo.
  destruct (fetchPage offset) as [page|e]; cbn [bindL]; [|congruence].
  assert (Hpush : forall its acc, pushItems its acc <> Thrown LoadOutOfFuel).
  { clear. induction its as [|it its IH]; intros acc; simpl; [done|].
    assert (Ht : trackOf it <> Thrown LoadOutOfFuel).
    { unfold trackOf. destruct (it ≫= it_track) as [tr|]; [|done].
      destruct (_ || _); [done|]. destruct (negb _); [done|].
      assert (Ha : forall l, artistNames l <> Thrown LoadOutOfFuel).
      { induction l as [|[a|] l IHl]; simpl; [done| |done].
        destruct (artistNames l) as [?|e]; simpl; [done|].
        intros [= ->]. by apply IHl. }
      specialize (Ha (default [] (tr_artists tr))).
      destruct (artistNames _) as [?|e]; simpl; [|congruence].
      destruct (getImage _ _); simpl; done. }
    destruct (trackOf it) as [t|e]; simpl; [apply IH | congruence]. }
  specialize (Hpush (default [] (page_items page)) items).
  destruct (pushItems _ items) as [items'|e]; cbn [bindL]; [|congruence].
  destruct (negb _); [done|].
  destruct (2000 <? offset + limit) eqn:E; [done|].
  apply Nat.ltb_ge in E. apply IH; unfold limit in *; lia.
Qed.

(** The second loop keeps the first track of every id. *)
Lemma dedupLoop_spec items seen dedup :
  seen = list_to_set (t_id <$> dedup) -> NoDup (t_id <$> dedup) ->
  exists kept,
    dedupLoop seen dedup items = dedup ++ kept /\
    NoDup (t_id <$> (dedup ++ kept)) /\
    sublist kept items /\
    (forall t, t ∈ items -> t_id t ∈ t_id <$> (dedup ++ kept)) /\
    (forall t, t ∈ kept ->
       (t_id t ∉ seen) /\
       exists pre post, items = pre ++ t :: post /\ (t_id t ∉ t_id <$> pre)).
Proof.
  revert seen dedup. induction items as [|t items IH]; intros seen dedup Hs Hnd; simpl.
  - exists []. rewrite app_nil_r. split; [done|]. split; [done|].
    split; [done|]. split; [by intros ? ?%elem_of_nil|].
    by intros ? ?%elem_of_nil.
  - destruct (decide (t_id t ∈ seen)) as [Hin|Hnin].
    + destruct (IH seen dedup Hs Hnd) as (kept & H1 & H2 & H3 & H4 & H5).
      exists kept. split; [done|]. split; [done|].
      split; [by apply sublist_cons|]. split.
      * intros t' [->|Ht']%elem_of_cons; [|by apply H4].
        rewrite fmap_app. apply elem_of_app. left.
        rewrite Hs in Hin. by apply elem_of_list_to_set in Hin.
      * intros t' Ht'. destruct (H5 t' Ht') as (Hns & pre & post & -> & Hpre).
        split; [done|]. exists (t :: pre), post. split; [done|].
        rewrite fmap_cons. intros [E|?]%elem_of_cons; [|done].
        apply Hns. by rewrite E.
    + destruct (IH ({[t_id t]} ∪ seen) (dedup ++ [t]))
        as (kept & H1 & H2 & H3 & H4 & H5).
      * rewrite Hs, fmap_app, list_to_set_app_L. simpl.
        rewrite union_empty_r_L. apply union_comm_L.
      * rewrite fmap_app. apply NoDup_app. split; [done|]. split.
        -- intros x Hx [->|[]%elem_of_nil]%elem_of_cons. apply Hnin.
           rewrite Hs. by apply elem_of_list_to_set.
        -- simpl. apply NoDup_singleton.
      * exists (t :: kept). rewrite <- app_assoc in H1, H2, H4.
        split; [done|]. split; [done|]. split; [by apply sublist_skip|]. split.
        -- intros t' [->|Ht']%elem_of_cons; [|by apply H4].
           rewrite fmap_app. apply elem_of_app. right. simpl. by left.
        -- intros t' [->|Ht']%elem_of_cons.
           ++ split; [done|]. exists [], items. split; [done|].
              by intros ?%elem_of_nil.
           ++ destruct (H5 t' Ht') as (Hns & pre & post & -> & Hpre).
              apply not_elem_of_union in Hns as [Hne Hns].
              split; [done|]. exists (t :: pre), post. split; [done|].
              rewrite fmap_cons. intros [E|?]%elem_of_cons; [|done].
              apply Hne. rewrite E. by apply elem_of_singleton.
Qed.

Lemma sublist_Forall {A} (P : A -> Prop) (l k : list A) :
  sublist l k -> Forall P k -> Forall P l.
Proof.
  intros Hs Hk. apply Forall_forall. intros x Hx.
  rewrite Forall_forall in Hk. apply Hk. by eapply elem_of_sublist.
Qed.

Lemma fetchPlaylistTracks_Loaded fetchPlaylist fetchPage playlist tracks :
  fetchPlaylistTracks fetchPlaylist fetchPage = Loaded (playlist, tracks) ->
  fetchPlaylist = Loaded playlist /\
  tracks = dedupLoop ∅ [] (tracksOf (itemsUpTo pagesFuel fetchPage 0)).
Proof.
  unfold fetchPlaylistTracks.
  destruct fetchPlaylist as [pl|]; [|done]. cbn [bindL].
  destruct (pagesLoop _ _ _ _) as [items|] eqn:E; [|done]. cbn [bindL].
  intros [= <- <-]. split; [done|].
  apply pagesLoop_spec in E; [|done]. by rewrite E.
Qed.

(** X18. The tracks that [fetchPlaylistTracks] returns have pairwise
    distinct, non-empty ids and a non-empty uri, and each one was built
    from an item of a fetched page whose track is present, not local, and
    carries that id; its popularity is the one reported, or 0 when none
    was. *)
Theorem fetchPlaylistTracks_tracks (fetchPlaylist : Load PlaylistMeta)
    (fetchPage : nat -> Load Page) (playlist : PlaylistMeta) (tracks : list Track) :
  fetchPlaylistTracks fetchPlaylist fetchPage = Loaded (playlist, tracks) ->
  NoDup (t_id <$> tracks) /\
  Forall (fun t =>
            t_id t <> ""%string /\ t_uri t <> ""%string /\
            exists it, it ∈ itemsUpTo pagesFuel fetchPage 0 /\ loadedFrom it t)
    tracks.
Proof.
  intros [_ ->]%fetchPlaylistTracks_Loaded.
  destruct (dedupLoop_spec (tracksOf (itemsUpTo pagesFuel fetchPage 0)) ∅ [])
    as (kept & -> & Hnd & Hsub & _); [done | constructor |].
  split; [done|]. simpl.
  apply Forall_forall. intros t Ht.
  pose proof (elem_of_sublist _ _ _ Ht Hsub) as Ht'.
  destruct (tracksOf_from _ _ Ht') as (it & Hit & Hfrom & Hid & Huri).
  eauto 6.
Qed.

Lemma fetchPlaylistTracks_tracks_witness :
  exists playlist tracks,
    fetchPlaylistTracks (Loaded sampleMeta) sampleFetch = Loaded (playlist, tracks) /\
    t_id <$> tracks = ["a"; "c"]%string /\
    NoDup (t_id <$> tracks).
Proof.
  eexists _, _. split; [vm_compute; reflexivity|]. split; [reflexivity|].
  eapply proj1, (fetchPlaylistTracks_tracks (Loaded sampleMeta) sampleFetch).
  vm_compute. reflexivity.
Defined.

(** X19. Nothing but duplicates is dropped and nothing is reordered: the
    returned tracks are a subsequence of the tracks of the fetched pages,
    every id found there is returned, and the track returned for an id is
    the first one with that id. *)
Theorem fetchPlaylistTracks_first_occurrences (fetchPlaylist : Load PlaylistMeta)
    (fetchPage : nat -> Load Page) (playlist : PlaylistMeta) (tracks : list Track) :
  fetchPlaylistTracks fetchPlaylist fetchPage = Loaded (playlist, tracks) ->
  let found := tracksOf (itemsUpTo pagesFuel fetchPage 0) in
  sublist tracks found /\
  (forall t, t ∈ found -> t_id t ∈ t_id <$> tracks) /\
  (forall t, t ∈ tracks ->
     exists pre post, found = pre ++ t :: post /\ (t_id t ∉ t_id <$> pre)).
Proof.
  intros [_ ->]%fetchPlaylistTracks_Loaded found. fold found.
  destruct (dedupLoop_spec found ∅ [])
    as (kept & Hk & _ & Hsub & Hall & Hfirst); [done | constructor |].
  rewrite Hk. simpl in *. split; [done|]. split; [done|].
  intros t Ht. by destruct (Hfirst t Ht).
Qed.

Lemma fetchPlaylistTracks_first_occurrences_witness :
  exists playlist tracks,
    fetchPlaylistTracks (Loaded sampleMeta) sampleFetch = Loaded (playlist, tracks) /\
    t_popularity <$> tracks = [7; 0]%Z /\
    sublist tracks (tracksOf (itemsUpTo pagesFuel sampleFetch 0)).
Proof.
  eexists _, _. split; [vm_compute; reflexivity|]. split; [reflexivity|].
  eapply proj1, (fetchPlaylistTracks_first_occurrences (Loaded sampleMeta) sampleFetch).
  vm_compute. reflexivity.
Defined.

(** ** Paging *)

Lemma pagesLoop_ext fetchPage fetchPage' fuel offset items :
  offset + limit * fuel = 2100 ->
  (forall k, k <= 20 -> fetchPage (limit * k) = fetchPage' (limit * k)) ->
  pagesLoop fuel fetchPage offset items = pagesLoop fuel fetchPage' offset items.
Proof.
  intros Ho Hext. revert offset items Ho.
  induction fuel as [|fuel IH]; intros offset items Ho; [done|].
  cbn [pagesLoop].
  assert (fetchPage offset = fetchPage' offset) as <-.
  { replace offset with (limit * (20 - fuel)) by (unfold limit in *; lia).
    apply Hext. lia. }
  destruct (fetchPage offset) as [page|]; [|done]. cbn [bindL].
  destruct (pushItems _ items) as [items'|]; [|done]. cbn [bindL].
  destruct (negb _); [done|]. destruct (2000 <? offset + limit); [done|].
  apply IH. unfold limit in *. lia.
Qed.

Lemma tracksOf_length its : length (tracksOf its) <= length its.
Proof.
  unfold tracksOf.
  set (f := fun it => match trackOf it with Loaded t => t | Thrown _ => None end).
  induction its as [|it its IH]; [done|].
  change (omap f (it :: its))
    with (match f it with Some y => y :: omap f its | None => omap f its end).
  destruct (f it); simpl; lia.
Qed.

Lemma itemsUpTo_length fetchPage n offset :
  (forall o page, fetchPage o = Loaded page ->
     length (default [] (page_items page)) <= limit) ->
  length (itemsUpTo n fetchPage offset) <= limit * n.
Proof.
  intros Hp. revert offset.
  induction n as [|n IH]; intros offset; cbn [itemsUpTo]; [simpl; lia|].
  destruct (fetchPage offset) as [page|] eqn:E; [|simpl; lia].
  rewrite length_app. specialize (Hp _ _ E).
  destruct (truthyText (page_next page)).
  - specialize (IH (offset + limit)). unfold limit in *. lia.
  - unfold limit in *. simpl. lia.
Qed.

(** X20. [fetchPlaylistTracks] asks for the pages at offsets 0, 100, ...,
    2000 at most: its result depends on the answers at no other offset,
    the paging loop always ends, and with pages of at most 100 items it
    returns at most 2100 tracks.  A failed playlist request or a failed
    first page fails the whole call with that error. *)
Theorem fetchPlaylistTracks_paging (fetchPlaylist : Load PlaylistMeta)
    (fetchPage : nat -> Load Page) :
  (forall fetchPage' : nat -> Load Page,
     (forall k, k <= 20 -> fetchPage (100 * k) = fetchPage' (100 * k)) ->
     fetchPlaylistTracks fetchPlaylist fetchPage
     = fetchPlaylistTracks fetchPlaylist fetchPage') /\
  (fetchPlaylist <> Thrown LoadOutOfFuel ->
   (forall o, fetchPage o <> Thrown LoadOutOfFuel) ->
   fetchPlaylistTracks fetchPlaylist fetchPage <> Thrown LoadOutOfFuel) /\
  (forall playlist tracks,
     fetchPlaylistTracks fetchPlaylist fetchPage = Loaded (playlist, tracks) ->
     (forall o page, fetchPage o = Loaded page ->
        length (default [] (page_items page)) <= 100) ->
     length tracks <= 2100) /\
  (forall e, fetchPlaylist = Thrown e \/ fetchPage 0 = Thrown e ->
     exists e', fetchPlaylistTracks fetchPlaylist fetchPage = Thrown e').
Proof.
  split; [|split; [|split]].
  - intros fetchPage' Hext. unfold fetchPlaylistTracks.
    destruct fetchPlaylist as [pl|]; [|done]. cbn [bindL].
    by rewrite (pagesLoop_ext fetchPage fetchPage').
  - intros Hpl Hfp. unfold fetchPlaylistTracks.
    destruct fetchPlaylist as [pl|e]; cbn [bindL]; [|congruence].
    pose proof (pagesLoop_fuel fetchPage pagesFuel 0 [] eq_refl
                  ltac:(unfold pagesFuel; lia) Hfp) as Hne.
    destruct (pagesLoop _ _ _ _) as [items|e]; cbn [bindL]; [done | congruence].
  - intros playlist tracks [_ ->]%fetchPlaylistTracks_Loaded Hp.
    destruct (dedupLoop_spec (tracksOf (itemsUpTo pagesFuel fetchPage 0)) ∅ [])
      as (kept & -> & _ & Hsub & _); [done | constructor |].
    simpl. apply sublist_length in Hsub.
    pose proof (tracksOf_length (itemsUpTo pagesFuel fetchPage 0)).
    pose proof (itemsUpTo_length fetchPage pagesFuel 0 Hp).
    unfold limit, pagesFuel in *. lia.
  - intros e [->|He]; [by exists e|].
    unfold fetchPlaylistTracks. destruct fetchPlaylist as [pl|e0]; [|by exists e0].
    cbn [bindL]. unfold pagesFuel. cbn [pagesLoop]. rewrite He. by exists e.
Qed.

(** * Sessions *)

Lemma digitOf_char d : (d < 10)%N -> digitOf (pretty_N_char d) = Some d.
Proof.
  intros Hd.
  assert (H : (d = 0 \/ d = 1 \/ d = 2 \/ d = 3 \/ d = 4 \/ d = 5 \/ d = 6
               \/ d = 7 \/ d = 8 \/ d = 9)%N) by lia.
  repeat (destruct H as [->|H]; [reflexivity|]). by subst.
Qed.

(** Reading back what [pretty] wrote. *)
Lemma digitsValue_go x :
  exists k, forall s acc,
    digitsValue (pretty_N_go x s) acc = digitsValue s (acc * 10 ^ k + x)%N.
Proof.
  induction (N.lt_wf_0 x) as [x _ IH].
  destruct (decide (x = 0%N)) as [->|Hx].
  - exists 0%N. intros s acc. rewrite pretty_N_go_0. f_equal. lia.
  - destruct (IH (x / 10)%N) as [k Hk].
    { apply N.div_lt; lia. }
    exists (k + 1)%N. intros s acc.
    rewrite pretty_N_go_step by lia. rewrite Hk. cbn [digitsValue].
    rewrite digitOf_char by (apply N.mod_lt; lia). cbn [mbind option_bind].
    f_equal. rewrite N.pow_add_r. pose proof (N.div_mod x 10). lia.
Qed.

Lemma digitsValue_pretty_N (x : N) : digitsValue (pretty x) 0 = Some x.
Proof.
  unfold pretty, pretty_N. destruct (decide (x = 0%N)) as [->|Hx]; [done|].
  destruct (digitsValue_go x) as [k Hk]. by rewrite Hk.
Qed.

Lemma pretty_N_no_dash (x : N) s : pretty x <> String (Ascii.ascii_of_N 45) s.
Proof.
  unfold pretty, pretty_N. destruct (decide (x = 0%N)); [done|].
  by apply pretty_N_go_ne_dash.
Qed.

Lemma decimalNumber_pretty (z : Z) : decimalNumber (pretty z) = Some z.
Proof.
  assert (Hpos : forall x : N, decimalNumber (pretty x) = Some (Z.of_N x)).
  { intros x. pose proof (digitsValue_pretty_N x) as Hd.
    pose proof (pretty_N_no_dash x) as Hn.
    unfold decimalNumber. destruct (pretty x) as [|c s] eqn:E.
    - simpl in Hd. by injection Hd as <-.
    - destruct (Ascii.eqb_spec c (Ascii.ascii_of_N 45)) as [->|_]; [by destruct (Hn s)|].
      by rewrite Hd. }
  destruct z as [|p|p].
  - done.
  - apply (Hpos (Npos p)).
  - change (pretty (Z.neg p)) with (String (Ascii.ascii_of_N 45) (pretty (Npos p))).
    unfold decimalNumber. rewrite Ascii.eqb_refl.
    pose proof (digitsValue_pretty_N (Npos p)) as Hd.
    destruct (pretty (Npos p)) as [|c s] eqn:E.
    + simpl in Hd. done.
    + rewrite Hd. done.
Qed.

Lemma pretty_Z_nonempty (z : Z) : truthyText (Some (pretty z)) = true.
Proof.
  simpl. destruct (String.eqb_spec (pretty z) "") as [E|]; [|done].
  pose proof (decimalNumber_pretty z) as H. rewrite E in H.
  injection H as <-. done.
Qed.

(** ** Saving and restoring *)

(** X21. A session that [handleSave] stored is what the restore effect
    brings back on the next start: input text, playlist, tracks and
    tournament are those saved, the load state is "ready" and the save
    state "restored" with the time of saving.  This needs the saved object
    to survive [JSON.stringify] and [JSON.parse], and the playlist to be
    there: a session saved without playlist data is not restored.  Saving
    touches no other key, and with no tournament or no tracks nothing is
    written. *)
Theorem session_round_trip (stringify : Saved -> string)
    (jsonParse : string -> option Saved) (now now' : Z) (s s0 : AppState)
    (ls : Storage) (t : Tournament) :
  let saved := mkSaved (Some (app_playlistInput s)) (app_playlistMeta s)
                 (Some (app_tracks s)) (Some t) (Some LoadReady)
                 (Some now) (Some 1%Z) in
  stringify saved <> ""%string -> jsonParse (stringify saved) = Some saved ->
  app_tournament s = Some t -> app_tracks s <> [] ->
  let after := handleSave stringify None now now' s ls in
  app_saveState after.1 = SaveSaved now' /\
  (forall k, k <> APP_SAVE_KEY -> after.2 !! k = ls !! k) /\
  (forall meta, app_playlistMeta s = Some meta ->
     restoreSession jsonParse s0 after.2
     = mkAppState (app_token s0) (app_playlistInput s) LoadReady (Some meta)
         (app_tracks s) (Some t)
         (SaveRestored (if decide (now = 0%Z) then None else Some now))) /\
  (app_playlistMeta s = None -> restoreSession jsonParse s0 after.2 = s0) /\
  (forall s', app_tournament s' = None \/ app_tracks s' = [] ->
     (handleSave stringify None now now' s' ls).2 = ls).
Proof.
  intros saved Hne Hrt Ht Htr after.
  assert (Hafter : after
                   = (mkAppState (app_token s) (app_playlistInput s)
                        (app_loadState s) (app_playlistMeta s) (app_tracks s)
                        (app_tournament s) (SaveSaved now'),
                      <[APP_SAVE_KEY := stringify saved]> ls)).
  { unfold after, handleSave, saveToLocalStorage. rewrite Ht.
    destruct (app_tracks s); [done|]. done. }
  assert (Hload : loadFromLocalStorage jsonParse after.2 = Some saved).
  { rewrite Hafter. unfold loadFromLocalStorage, safeJsonParse. cbn [snd].
    rewrite lookup_insert_eq.
    destruct (String.eqb_spec (stringify saved) "") as [E|_]; [done|].
    exact Hrt. }
  split; [by rewrite Hafter|]. split.
  { intros k Hk. rewrite Hafter. cbn [snd]. by rewrite lookup_insert_ne. }
  split; [|split].
  - intros meta Hm. unfold restoreSession. rewrite Hload. unfold saved. simpl.
    rewrite Hm. destruct (app_tracks s) as [|x l] eqn:E; [done|].
    destruct now; done.
  - intros Hm. unfold restoreSession. rewrite Hload. unfold saved. simpl.
    by rewrite Hm.
  - intros s' [H|H]; unfold handleSave; rewrite H; [done|].
    by destruct (app_tournament s').
Qed.

Lemma session_round_trip_witness :
  restoreSession (fun _ => Some sampleSaved) freshState
    (handleSave (fun _ => "{}"%string) None 42 43 sampleState ∅).2
  = mkAppState None (units "abc") LoadReady (Some sampleMeta) sampleTracks
      (Some sampleBracket) (SaveRestored (Some 42%Z)).
Proof.
  destruct (session_round_trip (fun _ => "{}"%string)
              (fun _ => Some sampleSaved) 42 43 sampleState freshState ∅
              sampleBracket)
    as (_ & _ & H & _); [done | done | done | done |].
  exact (H sampleMeta eq_refl).
Defined.

(** X22. [handleResetStorage] forgets the saved session and the loaded
    playlist but not the login: afterwards nothing is found to restore,
    the tracks, the tournament and the playlist data are gone and the load
    state is "idle", while the text of the input box, the token in the
    state and every other stored key (the tokens among them) are as
    before. *)
Theorem reset_forgets_session (jsonParse : string -> option Saved)
    (numberOf : string -> option Z) (now : Z) (s : AppState) (ls : Storage) :
  let after := handleResetStorage s ls in
  loadFromLocalStorage jsonParse after.2 = None /\
  (forall s0, restoreSession jsonParse s0 after.2 = s0) /\
  (forall k, k <> APP_SAVE_KEY -> after.2 !! k = ls !! k) /\
  getStoredAccessToken numberOf now after.2 = getStoredAccessToken numberOf now ls /\
  after.1 = mkAppState (app_token s) (app_playlistInput s) LoadIdle None []
              None SaveIdle.
Proof.
  intros after. unfold after, handleResetStorage, clearLocalStorageSave. simpl.
  assert (Hl : loadFromLocalStorage jsonParse (delete APP_SAVE_KEY ls) = None).
  { unfold loadFromLocalStorage. by rewrite lookup_delete_eq. }
  split; [done|]. split.
  { intros s0. unfold restoreSession. by rewrite Hl. }
  split.
  { intros k Hk. by rewrite lookup_delete_ne. }
  split; [|done].
  unfold getStoredAccessToken. by rewrite !lookup_delete_ne.
Qed.

(** ** Tokens *)

(** X23. A token written by [storeToken] is handed out by
    [getStoredAccessToken] until 15 seconds before it expires and not
    after: at time [now'] the stored token is returned exactly when
    [now' <= now + (expires_in - 15) * 1000].  A refresh token is replaced
    only by a non-empty new one, and the saved session is not touched.
    ([numberOf] reads back the expiry time that was written.) *)
Theorem stored_token_expiry (numberOf : string -> option Z)
    (tok : string) (expiresIn : Z) (refresh : option string) (now now' : Z)
    (ls : Storage) :
  let expiry := (now + (expiresIn - 15) * 1000)%Z in
  numberOf (pretty expiry) = Some expiry -> tok <> ""%string ->
  let after := storeToken tok expiresIn refresh now ls in
  getStoredAccessToken numberOf now' after
  = (if (expiry <? now')%Z then None else Some tok) /\
  after !! LS_refresh
  = (if truthyText refresh then refresh else ls !! LS_refresh) /\
  after !! APP_SAVE_KEY = ls !! APP_SAVE_KEY.
Proof.
  intros expiry Hnum Htok after.
  assert (Hget : after !! LS_token = Some tok /\
                 after !! LS_expiry = Some (pretty expiry) /\
                 after !! APP_SAVE_KEY = ls !! APP_SAVE_KEY /\
                 after !! LS_refresh
                 = (if truthyText refresh then refresh else ls !! LS_refresh)).
  { unfold after, storeToken. fold expiry.
    destruct (truthyText refresh) eqn:E.
    - destruct (truthyText_Some _ E) as (r & -> & _). simpl.
      rewrite lookup_insert_eq.
      rewrite !(lookup_insert_ne _ LS_refresh) by done.
      rewrite (lookup_insert_ne _ LS_expiry LS_token) by done.
      by rewrite !lookup_insert_eq, !lookup_insert_ne.
    - rewrite (lookup_insert_ne _ LS_expiry LS_token) by done.
      by rewrite !lookup_insert_eq, !lookup_insert_ne. }
  destruct Hget as (H1 & H2 & H3 & H4).
  split; [|by split].
  unfold getStoredAccessToken. rewrite H1, H2, pretty_Z_nonempty.
  change (default ""%string (Some (pretty expiry))) with (pretty expiry).
  rewrite Hnum.
  assert (truthyText (Some tok) = true) as ->.
  { simpl. by destruct (String.eqb_spec tok ""). }
  done.
Qed.

Lemma stored_token_expiry_witness :
  getStoredAccessToken decimalNumber 3585000
    (storeToken "tok" 3600 None 0 ∅) = Some "tok"%string /\
  getStoredAccessToken decimalNumber 3585001
    (storeToken "tok" 3600 None 0 ∅) = None.
Proof.
  split.
  - apply (stored_token_expiry decimalNumber "tok" 3600 None 0 3585000 ∅);
      [apply decimalNumber_pretty | done].
  - apply (stored_token_expiry decimalNumber "tok" 3600 None 0 3585001 ∅);
      [apply decimalNumber_pretty | done].
Defined.

(** ** Loading *)

Lemma buildTournament_Ok tracks : exists t, buildTournament tracks = Ok t.
Proof. destruct (buildTournament_Inv tracks) as (t & H & _). eauto. Qed.

(** The shared steps either store playlist, tracks and tournament
    together, or throw and store nothing. *)
Lemma loadInto_spec api playlistId token s s' thrown :
  loadInto api playlistId token s = (s', thrown) ->
  app_token s' = app_token s /\ app_playlistInput s' = app_playlistInput s /\
  app_saveState s' = app_saveState s /\
  match thrown with
  | None =>
      app_loadState s' = LoadReady /\
      exists playlist trs t,
        fetchPlaylistTracks (api_playlist api playlistId token)
          (api_page api playlistId token) = Loaded (playlist, trs) /\
        trs <> [] /\
        buildTournament (entrantsOf trs) = Ok t /\
        app_playlistMeta s' = Some playlist /\ app_tracks s' = trs /\
        app_tournament s' = Some t
  | Some _ => s' = s
  end.
Proof.
  unfold loadInto.
  destruct (fetchPlaylistTracks _ _) as [[playlist trs]|e] eqn:Ef;
    [|by intros [= <- <-]].
  destruct trs as [|x trs]; [by intros [= <- <-]|].
  destruct (buildTournament_Ok (entrantsOf (x :: trs))) as [t Hb]. rewrite Hb.
  intros [= <- <-]. simpl. do 3 (split; [done|]). split; [done|].
  exists playlist, (x :: trs), t. by repeat split.
Qed.

(** X24. [handleLoadPlaylist] loads all or nothing.  It ends either in
    load state "ready", with the playlist, a non-empty list of tracks with
    distinct ids as one call of [fetchPlaylistTracks] returned them, and
    the tournament that [buildTournament] makes from exactly these
    tracks; or in load state "error", with playlist, tracks and tournament
    as they were before.  It never stays "loading", and it leaves the text
    of the input box alone. *)
Theorem handleLoadPlaylist_all_or_nothing (api : Spotify) (now : Z)
    (s : AppState) (ls : Storage) :
  let r := (handleLoadPlaylist api now s ls).1 in
  app_playlistInput r = app_playlistInput s /\
  ((app_loadState r = LoadReady /\
    exists playlistId token playlist trs t,
      parseSpotifyPlaylistId (app_playlistInput s) = Some playlistId /\
      fetchPlaylistTracks (api_playlist api playlistId token)
        (api_page api playlistId token) = Loaded (playlist, trs) /\
      trs <> [] /\ NoDup (t_id <$> trs) /\
      buildTournament (entrantsOf trs) = Ok t /\ Reachable t /\
      app_token r = Some token /\
      app_playlistMeta r = Some playlist /\ app_tracks r = trs /\
      app_tournament r = Some t) \/
   (exists e, app_loadState r = LoadFailed e /\
      app_playlistMeta r = app_playlistMeta s /\
      app_tracks r = app_tracks s /\
      app_tournament r = app_tournament s)).
Proof.
  intros r.
  set (P := fun r : AppState =>
    app_playlistInput r = app_playlistInput s /\
    ((app_loadState r = LoadReady /\
      exists playlistId token playlist trs t,
        parseSpotifyPlaylistId (app_playlistInput s) = Some playlistId /\
        fetchPlaylistTracks (api_playlist api playlistId token)
          (api_page api playlistId token) = Loaded (playlist, trs) /\
        trs <> [] /\ NoDup (t_id <$> trs) /\
        buildTournament (entrantsOf trs) = Ok t /\ Reachable t /\
        app_token r = Some token /\
        app_playlistMeta r = Some playlist /\ app_tracks r = trs /\
        app_tournament r = Some t) \/
     (exists e, app_loadState r = LoadFailed e /\
        app_playlistMeta r = app_playlistMeta s /\
        app_tracks r = app_tracks s /\
        app_tournament r = app_tournament s))).
  change (P r).
  assert (Hfail : forall e s3,
            app_playlistInput s3 = app_playlistInput s ->
            app_playlistMeta s3 = app_playlistMeta s ->
            app_tracks s3 = app_tracks s ->
            app_tournament s3 = app_tournament s ->
            P (set_loadState (LoadFailed e) s3)).
  { intros e s3 H1 H2 H3 H4. split; [done|]. right. by exists e. }
  unfold r, handleLoadPlaylist.
  destruct (parseSpotifyPlaylistId (app_playlistInput s)) as [playlistId|] eqn:Ep;
    [|by apply Hfail].
  assert (Hready : forall token s0 s',
            loadInto api playlistId token s0 = (s', None) ->
            app_token s0 = Some token ->
            app_playlistInput s0 = app_playlistInput s ->
            P s').
  { intros token s0 s' Hl Htok Hin.
    destruct (loadInto_spec _ _ _ _ _ _ Hl)
      as (H1 & H2 & _ & H4 & playlist & trs & t & Hf & Hne & Hb & Hm & Htr & Ht).
    split; [congruence|]. left. split; [done|].
    exists playlistId, token, playlist, trs, t.
    split; [done|]. split; [done|]. split; [done|]. split.
    { destruct (fetchPlaylistTracks_Loaded _ _ _ _ Hf) as [_ ->].
      destruct (dedupLoop_spec
                  (tracksOf (itemsUpTo pagesFuel
                               (api_page api playlistId token) 0)) ∅ [])
        as (kept & -> & Hnd & _); [done | constructor | exact Hnd]. }
    split; [done|]. split; [by eapply reach_build|].
    split; [congruence|]. by repeat split. }
  set (s1 := set_loadState LoadLoading s).
  assert (Hfirst : exists s2 thrown,
            (if negb (truthyText (app_token s))
             then (s1, Some (ApiError "Not authenticated"))
             else loadInto api playlistId (default ""%string (app_token s)) s1)
            = (s2, thrown) /\
            match thrown with
            | None => exists token, app_token s = Some token /\
                        loadInto api playlistId token s1 = (s2, None)
            | Some _ => s2 = s1
            end).
  { destruct (truthyText (app_token s)) eqn:Et; cbn [negb].
    - destruct (truthyText_Some _ Et) as (token & Htok & _). rewrite Htok.
      change (default ""%string (Some token)) with token.
      destruct (loadInto api playlistId token s1) as [s2 thrown] eqn:El.
      exists s2, thrown. split; [done|]. destruct thrown as [e|].
      + by destruct (loadInto_spec _ _ _ _ _ _ El) as (_ & _ & _ & ->).
      + by exists token.
    - by eexists _, _. }
  destruct Hfirst as (s2 & thrown & -> & Hth).
  destruct thrown as [e|].
  2:{ destruct Hth as (token & Htok & Hl). cbn [fst].
      by apply (Hready token s1 s2). }
  subst s2.
  destruct (refreshAccessTokenIfPossible api now ls) as [[[newTok|]|e'] ls'];
    cbn [fst]; [|by apply Hfail..].
  destruct (negb (truthyText (Some newTok))); cbn [fst]; [by apply Hfail|].
  destruct (loadInto api playlistId newTok (set_token newTok s1))
    as [s3 thrown2] eqn:El.
  destruct thrown2 as [e2|]; cbn [fst].
  - destruct (loadInto_spec _ _ _ _ _ _ El) as (_ & _ & _ & ->).
    by apply Hfail.
  - by apply (Hready newTok (set_token newTok s1) s3).
Qed.

Example handleLoadPlaylist_sample :
  (handleLoadPlaylist sampleApi 0 sampleState ∅).1
  = mkAppState (Some "tok"%string) (units "abc") LoadReady (Some sampleMeta)
      sampleTracks
      (Some (mkTournament 0
               [RNormal (entrantsOf sampleTracks)
                  None
                  [mkMatch (Some (entrantOf (mkTrack "a" "spotify:track:a"
                                               (Some "a"%string) "" None None 7 None)))
                     (Some (entrantOf (mkTrack "c" "spotify:track:c"
                                         (Some "c"%string) "" None None 0 None)))
                     None (Some "m-a-c-0"%string)]]
               (Some (CMatch 0 0)) None []))
      SaveIdle.
Proof. vm_compute. reflexivity. Qed.
